(** * GraphIt: the request / subscription / script core, embedded in Rocq

    A shallow embedding of the execution core of the GraphIt GraphQL client:

    - [src/lib/interpolation.ts]  placeholder interpolation,
    - [src/lib/request.ts]        the HTTP request executor,
    - [src/lib/subscription.ts]   the subscription manager (module-scope
                                  [wsClient] / [sseClient]),
    - [src/lib/scripts.ts]        the worker that runs user scripts.

    JavaScript strings are modelled by [string]; a character stands for one
    UTF-16 code unit in the Latin-1 range.  What the browser provides is not
    code of the repository: [JSON.parse], [JSON.stringify] and [new URL] are
    the fields of the record [Platform], the answers of [fetch] are a
    [Network], the clocks are part of the [World] a request runs in, and
    every statement about the executor is quantified over them. *)

From Stdlib Require Import ZArith List String Ascii Bool Lia DecimalString DecimalNat.
From stdpp Require Import base option list gmap strings.

Import ListNotations.
Set Warnings "-register-all".
Local Open Scope string_scope.
Local Open Scope Z_scope.

(** ** JavaScript values *)

Module Js.

(** A value produced by [JSON.parse].  A number is kept as the text that
    [String(n)] prints for it. *)
Inductive JSON : Type :=
| JNull
| JBool (b : bool)
| JNumber (text : string)
| JString (s : string)
| JArray (items : list JSON)
| JObject (fields : list (string * JSON)).

(** What a [throw] carries: an [Error] instance with its [message], or any
    other value. *)
Inductive Thrown : Type :=
| ThrownError (message : string)
| ThrownOther.

(** The union [string | number | boolean | object] of [EnvVariable.value],
    read back through [Record<string, unknown>]: a lookup may also give
    [undefined].  [typeof null] is ['object'], so [null] is [VObject JNull]. *)
Inductive Value : Type :=
| VUndefined
| VString (s : string)
| VNumber (text : string)
| VBool (b : bool)
| VObject (j : JSON).

(** Truthiness of a string: [!!s]. *)
Definition truthy (s : string) : bool :=
  match s with
  | EmptyString => false
  | String _ _ => true
  end.

Definition is_rbrace (c : ascii) : bool := Ascii.eqb c "}".
Definition is_lbrace (c : ascii) : bool := Ascii.eqb c "{".

(** White space and line terminators removed by [String.prototype.trim],
    within Latin-1: TAB, LF, VT, FF, CR, SP, NBSP. *)
Definition is_space (c : ascii) : bool :=
  let n := nat_of_ascii c in
  ((9 <=? n) && (n <=? 13))%nat || (n =? 32)%nat || (n =? 160)%nat.

Fixpoint trimStart (s : string) : string :=
  match s with
  | EmptyString => EmptyString
  | String c s' => if is_space c then trimStart s' else s
  end.

(** [trimEnd] keeps a character when it is no white space or when something
    that survives follows it. *)
Fixpoint trimEnd (s : string) : string :=
  match s with
  | EmptyString => EmptyString
  | String c s' =>
      match trimEnd s' with
      | EmptyString => if is_space c then EmptyString else String c EmptyString
      | t => String c t
      end
  end.

Definition trim (s : string) : string := trimEnd (trimStart s).

Fixpoint concat_strings (l : list string) : string :=
  match l with
  | [] => EmptyString
  | s :: l' => s ++ concat_strings l'
  end.

(** *** Objects used as maps

    An object made by a literal, by [JSON.parse] or by a structured clone
    has [Object.prototype] as its prototype.  Beside its own entries, which
    a [gmap] holds, it inherits the members of [Object.prototype]: those of
    ECMAScript and of its Annex B, as every current engine has them, no
    code having written to [Object.prototype]. *)
Definition objectPrototypeNames : list string :=
  ["constructor"; "__defineGetter__"; "__defineSetter__"; "hasOwnProperty";
   "__lookupGetter__"; "__lookupSetter__"; "isPrototypeOf"; "propertyIsEnumerable";
   "toString"; "valueOf"; "__proto__"; "toLocaleString"].

Definition inherited (name : string) : bool :=
  existsb (String.eqb name) objectPrototypeNames.

(** [name in obj]: an own entry or an inherited member. *)
Definition hasProperty {A} (obj : gmap string A) (name : string) : bool :=
  match obj !! name with
  | Some _ => true
  | None => inherited name
  end.

(** [obj[name] = value], as far as the own entries go.  The name
    [__proto__], unless the object has an entry of that name already,
    reaches the setter every object inherits: no entry is made (the setter
    ignores a primitive and takes an object or [null] as the new
    prototype). *)
Definition writeOwn {A} (name : string) (value : A) (obj : gmap string A) : gmap string A :=
  match obj !! name with
  | Some _ => <[name := value]> obj
  | None => if String.eqb name "__proto__" then obj else <[name := value]> obj
  end.

(** *** Timers

    The delay that takes effect for [setTimeout(f, t)] in a browser: the
    argument is converted to a signed 32-bit integer, so it wraps from 2^31
    on, and a negative delay counts as 0. *)
Definition timerDelay (t : Z) : Z :=
  Z.max 0 ((t + 2147483648) mod 4294967296 - 2147483648).

End Js.

Import Js.

(** ** The browser *)

(** [new URL(s)] as the executor sees it: everything up to the path, the
    decoded query pairs ([url.searchParams]) and the fragment. *)
Record URL : Type := mkURL {
  url_prefix : string;
  url_searchParams : list (string * string);
  url_hash : string
}.

Record Platform : Type := mkPlatform {
  (** [JSON.parse]: [inl msg] is a throw of [SyntaxError(msg)]. *)
  JSON_parse : string -> string + JSON;
  (** [JSON.stringify] on a parsed value. *)
  JSON_stringify : JSON -> string;
  (** [new URL(s)]: [inl msg] is a throw of [TypeError(msg)]. *)
  URL_parse : string -> string + URL;
  (** The message of the [TypeError] the engine throws when a property of
      a primitive value or of [null] is tested with [in] or written. *)
  TypeError_message : string;
  (** [String(f)] for the function that is the member of that name of
      [Object.prototype], such as [function toString() { [native code] }]. *)
  Function_toString : string -> string
}.

(** ** [src/lib/interpolation.ts] *)

Module Interpolation.

(** [InterpolationContext.variables], a [Record<string, unknown>]: the own
    entries of an object whose prototype is [Object.prototype], which is
    what [buildInterpolationContext] makes. *)
Record InterpolationContext : Type := mkContext {
  variables : gmap string Value
}.

(** What a property read gives: a value, or a built-in member the object
    inherits from [Object.prototype], known by its name. *)
Inductive Lookup : Type :=
| Data (v : Value)
| Builtin (name : string).

(** [context.variables[name]]: the own entry; without one, the member of
    that name inherited from [Object.prototype]; without that,
    [undefined]. *)
Definition getVariable (context : InterpolationContext) (name : string) : Lookup :=
  match variables context !! name with
  | Some v => Data v
  | None => if inherited name then Builtin name else Data VUndefined
  end.

(** *** The regular expression [/\{\{([^}]+)\}\}/g]

    A global scan cuts the subject into characters outside any match and
    matches.  A match is the text [{{body}}]; its capture group is [body]. *)
Inductive Segment : Type :=
| Lit (c : ascii)
| Hole (body : string).

(** The longest prefix without ['}'], and what follows it. *)
Fixpoint span_body (s : string) : string * string :=
  match s with
  | EmptyString => (EmptyString, EmptyString)
  | String c s' =>
      if is_rbrace c then (EmptyString, s)
      else let '(b, r) := span_body s' in (String c b, r)
  end.

(** A match anchored at the start of [s]: the capture and the rest.  The
    greedy [[^}]+] takes the whole run of characters other than ['}'];
    giving some of them back never helps, the next character would still
    not be ['}']. *)
Definition match_at (s : string) : option (string * string) :=
  match s with
  | String c1 (String c2 s1) =>
      if is_lbrace c1 && is_lbrace c2 then
        match span_body s1 with
        | (String b bs, String d1 (String d2 rest)) =>
            if is_rbrace d1 && is_rbrace d2 then Some (String b bs, rest) else None
        | _ => None
        end
      else None
  | _ => None
  end.

(** Leftmost matches, left to right; the scan resumes after each match. *)
Fixpoint scan_fuel (fuel : nat) (s : string) : list Segment :=
  match fuel with
  | O => []
  | S fuel' =>
      match match_at s with
      | Some (body, rest) => Hole body :: scan_fuel fuel' rest
      | None =>
          match s with
          | EmptyString => []
          | String c s' => Lit c :: scan_fuel fuel' s'
          end
      end
  end.

Definition scan (s : string) : list Segment := scan_fuel (S (String.length s)) s.

(** The text a segment was cut from. *)
Definition raw (g : Segment) : string :=
  match g with
  | Lit c => String c EmptyString
  | Hole body => "{{" ++ body ++ "}}"
  end.

Section WithPlatform.
Context (P : Platform).

(** The callback handed to [replace]: [(match, varName) => ...]. *)
Definition replacer (context : InterpolationContext) (mtch varName : string) : string :=
  let name := trim varName in
  match getVariable context name with
  | Data VUndefined => mtch
  | Data (VObject j) => JSON_stringify P j
  | Data (VString s) => s
  | Data (VNumber text) => text
  | Data (VBool true) => "true"
  | Data (VBool false) => "false"
  | Builtin member =>
      (* [__proto__] reads as [Object.prototype] itself: [typeof] gives
         ['object'], and it has no enumerable property of its own; every
         other member is a function *)
      if String.eqb member "__proto__" then JSON_stringify P (JObject [])
      else Function_toString P member
  end.

Definition render (context : InterpolationContext) (g : Segment) : string :=
  match g with
  | Lit c => String c EmptyString
  | Hole body => replacer context (raw g) body
  end.

Definition interpolateString (template : string) (context : InterpolationContext) : string :=
  concat_strings (map (render context) (scan template)).

End WithPlatform.

(** [extractVariableNames]: the trimmed captures, first occurrence only. *)
Fixpoint pushNew (names : list string) (gs : list Segment) : list string :=
  match gs with
  | [] => names
  | Lit _ :: gs' => pushNew names gs'
  | Hole body :: gs' =>
      let name := trim body in
      if existsb (String.eqb name) names then pushNew names gs'
      else pushNew (names ++ [name]) gs'
  end.

Definition extractVariableNames (template : string) : list string :=
  pushNew [] (scan template).

End Interpolation.

(** ** [src/types/index.ts] *)

Module Types.

Inductive AuthMode : Type := ModeNone | ModeBearer | ModeBasic | ModeApiKey.

Inductive AddTo : Type := AddToHeader | AddToQuery.

Record BearerAuth : Type := mkBearer { token : string }.
Record BasicAuth : Type := mkBasic { username : string; password : string }.
Record ApiKeyAuth : Type := mkApiKey { ak_key : string; ak_value : string; addTo : AddTo }.

(** [AuthConfig]: the mode, and the three optional payloads. *)
Record AuthConfig : Type := mkAuth {
  mode : AuthMode;
  bearer : option BearerAuth;
  basic : option BasicAuth;
  apiKey : option ApiKeyAuth
}.

Record Header : Type := mkHeader {
  h_id : string;
  h_key : string;
  h_value : string;
  enabled : bool
}.

(** A [File] is an opaque handle; its name is enough to tell files apart. *)
Record File : Type := mkFile { file_name : string }.

Record FileMapping : Type := mkFileMapping {
  fm_id : string;
  variablePath : string;
  file : option File;
  fileName : string
}.

Inductive HttpMethod : Type := GET | POST | PUT | PATCH | DELETE.

Record RequestStats : Type := mkStats {
  status : Z;
  statusText : string;
  duration : Z;
  size : Z;
  timestamp : Z
}.

(** [RequestResult].  [response] is a JavaScript value, [JNull] being
    [null]; [error] and [stats] are nullable. *)
Record RequestResult : Type := mkResult {
  response : JSON;
  rr_headers : list (string * string);
  stats : option RequestStats;
  error : option string
}.

End Types.

Import Types.

(** ** [interpolateHeaders], [interpolateAuth] *)

Module InterpolationStructs.
Import Interpolation.

Section WithPlatform.
Context (P : Platform).

Definition interpolateHeaders (headers : list Header) (context : InterpolationContext)
  : list Header :=
  map (fun h => {| h_id := h_id h;
                   h_key := interpolateString P (h_key h) context;
                   h_value := interpolateString P (h_value h) context;
                   enabled := enabled h |}) headers.

Definition interpolateAuth (auth : AuthConfig) (context : InterpolationContext) : AuthConfig :=
  {| mode := mode auth;
     bearer :=
       match bearer auth with
       | Some b => Some {| token := interpolateString P (token b) context |}
       | None => None
       end;
     basic :=
       match basic auth with
       | Some b => Some {| username := interpolateString P (username b) context;
                           password := interpolateString P (password b) context |}
       | None => None
       end;
     apiKey :=
       match apiKey auth with
       | Some k => Some {| ak_key := interpolateString P (ak_key k) context;
                           ak_value := interpolateString P (ak_value k) context;
                           addTo := addTo k |}
       | None => None
       end |}.

End WithPlatform.
End InterpolationStructs.

(** ** Text encodings of the browser *)

Module Encoding.

Definition nat_of_char (c : ascii) : nat := nat_of_ascii c.
Definition char_of_nat (n : nat) : ascii := ascii_of_nat n.

(** *** [btoa]: base64 of a string of code units below 256 *)

Definition b64_digit (n : nat) : ascii :=
  if (n <? 26)%nat then char_of_nat (65 + n)
  else if (n <? 52)%nat then char_of_nat (97 + (n - 26))
  else if (n <? 62)%nat then char_of_nat (48 + (n - 52))
  else if (n =? 62)%nat then "+"%char
  else "/"%char.

Fixpoint btoa (s : string) : string :=
  match s with
  | EmptyString => EmptyString
  | String a EmptyString =>
      let x := nat_of_char a in
      String (b64_digit (x / 4))
        (String (b64_digit ((x mod 4) * 16)) "==")
  | String a (String b EmptyString) =>
      let x := nat_of_char a in
      let y := nat_of_char b in
      String (b64_digit (x / 4))
        (String (b64_digit ((x mod 4) * 16 + y / 16))
          (String (b64_digit ((y mod 16) * 4)) "="))
  | String a (String b (String c rest)) =>
      let x := nat_of_char a in
      let y := nat_of_char b in
      let z := nat_of_char c in
      String (b64_digit (x / 4))
        (String (b64_digit ((x mod 4) * 16 + y / 16))
          (String (b64_digit ((y mod 16) * 4 + z / 64))
            (String (b64_digit (z mod 64)) (btoa rest))))
  end.

(** *** Percent encoding *)

Definition hex_digit (n : nat) : ascii :=
  if (n <? 10)%nat then char_of_nat (48 + n) else char_of_nat (55 + n).

Definition percent (byte : nat) : string :=
  String "%" (String (hex_digit (byte / 16)) (String (hex_digit (byte mod 16)) EmptyString)).

(** The UTF-8 bytes of one code unit below 256, percent-encoded. *)
Definition percent_utf8 (c : ascii) : string :=
  let n := nat_of_char c in
  if (n <? 128)%nat then percent n
  else percent (192 + n / 64) ++ percent (128 + n mod 64).

Definition is_alnum (c : ascii) : bool :=
  let n := nat_of_char c in
  ((48 <=? n) && (n <=? 57) || (65 <=? n) && (n <=? 90) || (97 <=? n) && (n <=? 122))%nat.

Definition in_chars (set : string) (c : ascii) : bool :=
  existsb (Ascii.eqb c) (list_ascii_of_string set).

(** [encodeURIComponent] leaves [A-Z a-z 0-9 - _ . ! ~ * ' ( )] alone. *)
Definition uri_unreserved (c : ascii) : bool := is_alnum c || in_chars "-_.!~*'()" c.

(** What [encodeURIComponent] writes for one code unit. *)
Definition encode_unit (c : ascii) : string :=
  if uri_unreserved c then String c EmptyString else percent_utf8 c.

Fixpoint encodeURIComponent (s : string) : string :=
  match s with
  | EmptyString => EmptyString
  | String c s' =>
      encode_unit c ++ encodeURIComponent s'
  end.

Definition hex_value (c : ascii) : option nat :=
  let n := nat_of_char c in
  if ((48 <=? n) && (n <=? 57))%nat then Some (n - 48)%nat
  else if ((65 <=? n) && (n <=? 70))%nat then Some (n - 55)%nat
  else if ((97 <=? n) && (n <=? 102))%nat then Some (n - 87)%nat
  else None.

Definition hex_byte (h l : ascii) : option nat :=
  match hex_value h, hex_value l with
  | Some a, Some b => Some (16 * a + b)%nat
  | _, _ => None
  end.

(** [decodeURIComponent]: [None] is a throw of [URIError].  An escape that
    decodes to a code point above U+00FF has no counterpart in the string
    model and is reported like a malformed one. *)
Fixpoint decodeURIComponent (s : string) : option string :=
  match s with
  | EmptyString => Some EmptyString
  | String c s1 =>
      if Ascii.eqb c "%" then
        match s1 with
        | String h (String l s2) =>
            match hex_byte h l with
            | Some b =>
                if (b <? 128)%nat then
                  option_map (String (char_of_nat b)) (decodeURIComponent s2)
                else if ((194 <=? b) && (b <=? 195))%nat then
                  match s2 with
                  | String p (String h' (String l' s3)) =>
                      if Ascii.eqb p "%" then
                        match hex_byte h' l' with
                        | Some b' =>
                            if ((128 <=? b') && (b' <? 192))%nat then
                              option_map (String (char_of_nat ((b - 192) * 64 + (b' - 128))))
                                         (decodeURIComponent s3)
                            else None
                        | None => None
                        end
                      else None
                  | _ => None
                  end
                else None
            | None => None
            end
        | _ => None
        end
      else option_map (String c) (decodeURIComponent s1)
  end.

(** The [application/x-www-form-urlencoded] serializer behind
    [url.toString()]: alphanumerics and [* - . _] stay, a space becomes
    [+], every other byte is percent-encoded. *)
Definition form_encode_char (c : ascii) : string :=
  if is_alnum c || in_chars "*-._" c then String c EmptyString
  else if Ascii.eqb c " " then "+"
  else percent_utf8 c.

Fixpoint form_encode (s : string) : string :=
  match s with
  | EmptyString => EmptyString
  | String c s' => form_encode_char c ++ form_encode s'
  end.

(** [new TextEncoder().encode(s).length]. *)
Fixpoint utf8_length (s : string) : Z :=
  match s with
  | EmptyString => 0
  | String c s' => (if (nat_of_char c <? 128)%nat then 1 else 2) + utf8_length s'
  end.

(** [s.split(sep)] for a one-character separator. *)
Fixpoint split_on (sep : ascii) (s : string) : list string :=
  match s with
  | EmptyString => [EmptyString]
  | String c s' =>
      if Ascii.eqb c sep then EmptyString :: split_on sep s'
      else match split_on sep s' with
           | [] => [String c EmptyString]
           | p :: ps => String c p :: ps
           end
  end.

(** No occurrence of the separator. *)
Fixpoint free_of (sep : ascii) (s : string) : bool :=
  match s with
  | EmptyString => true
  | String c s' => negb (Ascii.eqb c sep) && free_of sep s'
  end.

(** [n.toString()] for an array index. *)
Definition index_toString (n : nat) : string :=
  DecimalString.NilZero.string_of_uint (Nat.to_uint n).

End Encoding.

(** ** [src/lib/request.ts] *)

Module Request.
Import Interpolation InterpolationStructs Encoding.

Record RequestOptions : Type := mkOptions {
  endpoint : string;
  query : string;
  variables : string;
  operationName : option string;
  headers : list Header;
  auth : AuthConfig;
  httpMethod : HttpMethod;
  fileMappings : list FileMapping;
  useProxy : bool;
  timeout : Z;
  context : InterpolationContext
}.

(** *** What goes to and comes from [fetch] *)

Inductive Part : Type :=
| TextPart (text : string)
| FilePart (f : File).

(** The [body] of the [fetch] init: absent, a string, or a [FormData]
    with its parts in [append] order. *)
Inductive Body : Type :=
| NoBody
| TextBody (text : string)
| FormBody (parts : list (string * Part)).

(** One call [fetch(url, {method, headers, body, signal})].  The signal is
    the one of an [AbortController] whose [abort] was scheduled just before
    by [setTimeout(..., fc_abortAfter)]: [fc_abortAfter] is the number the
    code hands to [setTimeout], [abortDelay] the delay that takes effect. *)
Record FetchCall : Type := mkFetchCall {
  fc_url : string;
  fc_method : string;
  fc_headers : gmap string string;
  fc_body : Body;
  fc_abortAfter : Z
}.


(** How [await response.text()] ends when it gives no text: the promise
    rejects (the connection is lost while the body is read), or it never
    settles (the body never ends; the abort timer was cleared when the
    headers arrived, so nothing bounds the wait). *)
Inductive BodyFailure : Type :=
| BodyRejects (e : Thrown)
| BodyStalls.

(** A [Response]; [resp_text] is what [await response.text()] does. *)
Record Response : Type := mkResponse {
  resp_status : Z;
  resp_statusText : string;
  resp_headers : list (string * string);
  resp_text : BodyFailure + string
}.

(** The network: how long a call is pending and how it settles (a
    [Response], or a rejection such as a [TypeError] or an [AbortError]).
    A call always settles: the abort timer sees to it. *)
Record Network : Type := mkNetwork {
  net_fetch : FetchCall -> Z * (Thrown + Response)
}.

(** *** Effects: two clocks, the calls made so far, exceptions *)

Record World : Type := mkWorld {
  perf_now : Z;
  date_now : Z;
  fetched : list FetchCall
}.

(** How a step ends when it gives no value: with a throw (or a rejected
    promise), which the next [catch] clause takes; with an awaited promise
    that never settles, after which nothing runs, no [catch] and no
    [finally]; or at the edge of the model, where the code goes on in a way
    the model does not follow (see [setNestedValue]). *)
Inductive Abrupt : Type :=
| Threw (e : Thrown)
| Pending
| Unmodelled.

Definition M (A : Type) : Type := World -> (Abrupt + A) * World.

Definition ret {A} (a : A) : M A := fun w => (inr a, w).

Definition bind {A B} (m : M A) (k : A -> M B) : M B :=
  fun w => match m w with
           | (inr a, w') => k a w'
           | (inl e, w') => (inl e, w')
           end.

Definition throw {A} (e : Thrown) : M A := fun w => (inl (Threw e), w).

Definition pending {A} : M A := fun w => (inl Pending, w).

Definition unmodelled {A} : M A := fun w => (inl Unmodelled, w).

(** [try { m } catch (error) { handler }]. *)
Definition try_catch {A} (m : M A) (handler : Thrown -> M A) : M A :=
  fun w => match m w with
           | (inr a, w') => (inr a, w')
           | (inl (Threw e), w') => handler e w'
           | (inl end_, w') => (inl end_, w')
           end.

(** Lifting a call of the platform that may throw an [Error]. *)
Definition lift_error {A} (r : string + A) : M A :=
  match r with
  | inr a => ret a
  | inl msg => throw (ThrownError msg)
  end.

Definition lift_thrown {A} (r : Thrown + A) : M A :=
  match r with
  | inr a => ret a
  | inl e => throw e
  end.

(** [await] on the promise of [response.text()]. *)
Definition await_body (r : BodyFailure + string) : M string :=
  match r with
  | inr text => ret text
  | inl (BodyRejects e) => throw e
  | inl BodyStalls => pending
  end.

Declare Scope js_scope.
Delimit Scope js_scope with js.
Notation "'let!' x ':=' m 'in' k" := (bind m (fun x => k))
  (at level 10, x pattern, m at level 100, k at level 200) : js_scope.
Local Open Scope js_scope.

(** The clocks are read where the code reads them.  They advance while a
    call is pending and stand still otherwise: the time the code itself
    takes between two readings is taken as 0. *)
Definition performance_now : M Z := fun w => (inr (perf_now w), w).
Definition Date_now : M Z := fun w => (inr (date_now w), w).

Section WithPlatform.
Context (P : Platform) (N : Network).

(** [await fetch(...)]: the call is recorded and both clocks advance by
    the time the network takes. *)
Definition fetch (call : FetchCall) : M Response :=
  fun w =>
    let '(latency, outcome) := net_fetch N call in
    (match outcome with
     | inr response => inr response
     | inl e => inl (Threw e)
     end,
     {| perf_now := perf_now w + latency;
        date_now := date_now w + latency;
        fetched := fetched w ++ [call] |}).

Definition isValidUrl (url : string) : bool :=
  match URL_parse P url with
  | inr _ => true
  | inl _ => false
  end.

Definition proxyName (name : string) : string := "X-GraphIt-Header-" ++ name.

(** The name a header goes under on the wire. *)
Definition wireName (useProxy : bool) (h : Header) : string :=
  if useProxy then proxyName (h_key h) else h_key h.

Definition buildAuthHeader (auth : AuthConfig) : option (string * string) :=
  match mode auth with
  | ModeBearer =>
      match bearer auth with
      | Some b =>
          if truthy (token b) then Some ("Authorization", "Bearer " ++ token b) else None
      | None => None
      end
  | ModeBasic =>
      match basic auth with
      | Some b =>
          if truthy (username b) && truthy (password b) then
            let encoded := btoa (username b ++ ":" ++ password b) in
            Some ("Authorization", "Basic " ++ encoded)
          else None
      | None => None
      end
  | ModeApiKey =>
      match apiKey auth with
      | Some k =>
          if truthy (ak_key k) && truthy (ak_value k)
             && match addTo k with AddToHeader => true | AddToQuery => false end
          then Some (ak_key k, ak_value k)
          else None
      | None => None
      end
  | ModeNone => None
  end.

(** The loop of [buildHeaders] over the interpolated headers.  A name that
    starts with the prefix is never [__proto__], so in proxy mode the write
    always makes an entry. *)
Fixpoint addHeaders (useProxy : bool) (hs : list Header) (result : gmap string string)
  : gmap string string :=
  match hs with
  | [] => result
  | h :: hs' =>
      addHeaders useProxy hs'
        (if enabled h then
           if useProxy then <[proxyName (h_key h) := h_value h]> result
           else writeOwn (h_key h) (h_value h) result
         else result)
  end.

Definition buildHeaders (headers : list Header) (auth : AuthConfig)
    (context : InterpolationContext) (useProxy : bool) (targetEndpoint : string)
  : gmap string string :=
  let result : gmap string string := {[ "Content-Type" := "application/json" ]} in
  let interpolatedHeaders := interpolateHeaders P headers context in
  let result := addHeaders useProxy interpolatedHeaders result in
  let interpolatedAuth := interpolateAuth P auth context in
  let authHeader := buildAuthHeader interpolatedAuth in
  let result :=
    match authHeader with
    | Some (key, value) =>
        if useProxy then <[proxyName key := value]> result
        else writeOwn key value result
    | None => result
    end in
  if useProxy then <["X-GraphIt-Target" := targetEndpoint]> result else result.

Definition buildApiKeyQueryParam (auth : AuthConfig) : string :=
  match mode auth, apiKey auth with
  | ModeApiKey, Some k =>
      if match addTo k with AddToQuery => true | AddToHeader => false end
         && truthy (ak_key k) && truthy (ak_value k)
      then encodeURIComponent (ak_key k) ++ "=" ++ encodeURIComponent (ak_value k)
      else EmptyString
  | _, _ => EmptyString
  end.

(** *** [URLSearchParams] and [URL] *)

Definition sp_delete (name : string) (params : list (string * string))
  : list (string * string) :=
  List.filter (fun p => negb (String.eqb (fst p) name)) params.

(** [searchParams.set(name, value)]: the first pair named [name] takes the
    value and the later ones go; without such a pair one is appended. *)
Fixpoint sp_set (name value : string) (params : list (string * string))
  : list (string * string) :=
  match params with
  | [] => [(name, value)]
  | (k, v) :: rest =>
      if String.eqb k name then (k, value) :: sp_delete name rest
      else (k, v) :: sp_set name value rest
  end.

Definition url_set (name value : string) (u : URL) : URL :=
  {| url_prefix := url_prefix u;
     url_searchParams := sp_set name value (url_searchParams u);
     url_hash := url_hash u |}.

Fixpoint join_with (sep : string) (l : list string) : string :=
  match l with
  | [] => EmptyString
  | [s] => s
  | s :: l' => s ++ sep ++ join_with sep l'
  end.

Definition encode_pair (p : string * string) : string :=
  form_encode (fst p) ++ "=" ++ form_encode (snd p).

Definition serialize_params (params : list (string * string)) : string :=
  join_with "&" (map encode_pair params).

(** How many pairs of the query carry the name. *)
Definition count_name (name : string) (params : list (string * string)) : nat :=
  length (List.filter (fun p => String.eqb (fst p) name) params).

(** [url.toString()] once the search parameters have been written (the
    query is then the serialization of the pairs). *)
Definition URL_toString (u : URL) : string :=
  url_prefix u
  ++ match url_searchParams u with
     | [] => EmptyString
     | params => "?" ++ serialize_params params
     end
  ++ url_hash u.

(** *** Request bodies *)

(** The object [{query, variables, operationName}] as [JSON.stringify]
    sees it: a property whose value is [undefined] is left out. *)
Definition operationsObject (query : string) (variables : option JSON)
    (operationName : option string) : JSON :=
  JObject ([("query", JString query)]
           ++ match variables with Some v => [("variables", v)] | None => [] end
           ++ match operationName with
              | Some n => [("operationName", JString n)]
              | None => []
              end)%list.

(** [s ? JSON.parse(s) : undefined], throwing when the text is malformed. *)
Definition parseIfTruthy (s : string) : M (option JSON) :=
  if truthy s then let! j := lift_error (JSON_parse P s) in ret (Some j)
  else ret None.

Definition executeGetRequest (endpoint : string) (options : RequestOptions)
    (headers : gmap string string) (timeout : Z) : M Response :=
  let variables := interpolateString P (variables options) (context options) in
  let! url := lift_error (URL_parse P (if useProxy options then "/api/proxy" else endpoint)) in
  let! (url, headers) :=
    if negb (useProxy options) then
      let url := url_set "query" (query options) url in
      let url :=
        if truthy variables && negb (String.eqb variables "{}")
        then url_set "variables" variables url else url in
      let url :=
        match operationName options with
        | Some n => if truthy n then url_set "operationName" n url else url
        | None => url
        end in
      let interpolatedAuth := interpolateAuth P (auth options) (context options) in
      let apiKeyParam := buildApiKeyQueryParam interpolatedAuth in
      if truthy apiKeyParam then
        (* const [key, value] = apiKeyParam.split('='); a missing second
           element is [undefined], which decodes to the text "undefined" *)
        let parts := split_on "=" apiKeyParam in
        let key := nth 0 parts "undefined" in
        let value := nth 1 parts "undefined" in
        match decodeURIComponent key, decodeURIComponent value with
        | Some k, Some v => ret (url_set k v url, headers)
        | _, _ => throw (ThrownError "URI malformed")
        end
      else ret (url, headers)
    else
      (* For proxy, send as POST with body *)
      ret (url, <["X-GraphIt-Method" := "GET"]> headers) in
  let headers := delete "Content-Type" headers in
  (* try { fetch } finally { clearTimeout(timeoutId) }: the timer has no
     effect of its own once the call has settled *)
  let! body :=
    if useProxy options then
      let! parsed := parseIfTruthy variables in
      ret (TextBody (JSON_stringify P
             (operationsObject (query options) parsed (operationName options))))
    else ret NoBody in
  fetch {| fc_url := URL_toString url;
           fc_method := if useProxy options then "POST" else "GET";
           fc_headers := headers;
           fc_body := body;
           fc_abortAfter := timeout |}.

Definition executePostRequest (endpoint : string) (options : RequestOptions)
    (headers : gmap string string) (useProxy : bool) (timeout : Z) : M Response :=
  let variables := interpolateString P (variables options) (context options) in
  let url := if useProxy then "/api/proxy" else endpoint in
  let parsedVariables : option JSON :=
    if truthy variables then
      match JSON_parse P variables with
      | inr j => Some j
      | inl _ => None
      end
    else None in
  let body := JSON_stringify P
                (operationsObject (query options) parsedVariables (operationName options)) in
  fetch {| fc_url := url;
           fc_method := "POST";
           fc_headers := headers;
           fc_body := TextBody body;
           fc_abortAfter := timeout |}.

(** *** [setNestedValue]

    Property access on a parsed value.  The model follows the walk as long
    as it stays in the parsed value and what it does shows in the own
    entries that [JSON.stringify] prints.  Where the code leaves that
    ground the step ends as [Unmodelled]: when the walk enters a member an
    object inherits ([constructor.x], [__proto__.x]: the write then lands on
    a built-in object of the engine, or throws there), when a write replaces
    the prototype of an object, when it makes a hole in an array or gives an
    array a property that is no index.  A [TypeError] on a primitive value
    or on [null] is a throw like any other. *)

(** An array index: the canonical decimal text of a number below 2^32 - 1. *)
Definition parse_index (s : string) : option nat :=
  match DecimalString.NilZero.uint_of_string s with
  | Some u =>
      if (N.of_uint u <? 4294967295)%N then
        let n := Nat.of_uint u in
        if String.eqb (index_toString n) s then Some n else None
      else None
  | None => None
  end.

Fixpoint field_lookup (name : string) (fields : list (string * JSON)) : option JSON :=
  match fields with
  | [] => None
  | (k, v) :: rest => if String.eqb k name then Some v else field_lookup name rest
  end.

(** A write to the first entry of that name; without one the entry is
    added at the end. *)
Fixpoint field_assign (name : string) (value : JSON) (fields : list (string * JSON))
  : list (string * JSON) :=
  match fields with
  | [] => [(name, value)]
  | (k, v) :: rest =>
      if String.eqb k name then (k, value) :: rest
      else (k, v) :: field_assign name value rest
  end.

(** Where a new index key goes among the own keys: the array indices come
    first, in ascending order, the other names after them in the order
    they were added. *)
Fixpoint insert_index (i : nat) (name : string) (value : JSON)
    (fields : list (string * JSON)) : list (string * JSON) :=
  match fields with
  | [] => [(name, value)]
  | (k, v) :: rest =>
      match parse_index k with
      | Some j => if (j <? i)%nat then (k, v) :: insert_index i name value rest
                  else (name, value) :: (k, v) :: rest
      | None => (name, value) :: (k, v) :: rest
      end
  end.

(** A new own entry, for a name the object has no entry of. *)
Definition field_insert (name : string) (value : JSON) (fields : list (string * JSON))
  : list (string * JSON) :=
  match parse_index name with
  | Some i => insert_index i name value fields
  | None => (fields ++ [(name, value)])%list
  end.

(** A write inside the array or just past its end. *)
Fixpoint item_assign (i : nat) (value : JSON) (items : list JSON) : list JSON :=
  match i, items with
  | O, [] => [value]
  | O, _ :: rest => value :: rest
  | S i', [] => JNull :: item_assign i' value []
  | S i', x :: rest => x :: item_assign i' value rest
  end.

(** [current[name] = value], in strict mode. *)
Definition setProperty (current : JSON) (name : string) (value : JSON) : M JSON :=
  match current with
  | JObject fields =>
      match field_lookup name fields with
      | Some _ => ret (JObject (field_assign name value fields))
      | None =>
          if String.eqb name "__proto__" then
            (* the inherited setter: a primitive is ignored, an object or
               null becomes the prototype *)
            match value with
            | JNull | JArray _ | JObject _ => unmodelled
            | _ => ret current
            end
          else ret (JObject (field_insert name value fields))
      end
  | JArray items =>
      match parse_index name with
      | Some i =>
          if (i <=? length items)%nat then ret (JArray (item_assign i value items))
          else unmodelled
      | None =>
          if String.eqb name "length" then
            (* [array.length = null] empties the array *)
            match value with
            | JNull => ret (JArray [])
            | _ => unmodelled
            end
          else unmodelled
      end
  | _ => throw (ThrownError (TypeError_message P))
  end.

(** The loop of [setNestedValue] from part [i] on, and the final write;
    [current] is the object the loop has reached, the result is that
    object after the writes below it. *)
Fixpoint setNestedFrom (parts : list string) (value : JSON) (current : JSON) : M JSON :=
  match parts with
  | [] => ret current
  | part :: rest =>
      match rest with
      | [] => setProperty current part value
      | _ :: _ =>
          (* if (!(part in current)) current[part] = {}; current = current[part] *)
          match current with
          | JObject fields =>
              match field_lookup part fields with
              | Some child =>
                  let! child' := setNestedFrom rest value child in
                  ret (JObject (field_assign part child' fields))
              | None =>
                  if inherited part then unmodelled
                  else
                    let! child' := setNestedFrom rest value (JObject []) in
                    ret (JObject (field_insert part child' fields))
              end
          | JArray items =>
              match parse_index part with
              | Some i =>
                  if (i <? length items)%nat then
                    let! child' := setNestedFrom rest value (nth i items JNull) in
                    ret (JArray (item_assign i child' items))
                  else if (i =? length items)%nat then
                    let! child' := setNestedFrom rest value (JObject []) in
                    ret (JArray (items ++ [child']))
                  else unmodelled
              | None =>
                  if String.eqb part "length" then
                    (* [current] becomes a number *)
                    throw (ThrownError (TypeError_message P))
                  else unmodelled
              end
          | _ => throw (ThrownError (TypeError_message P))
          end
      end
  end.

Definition setNestedValue (obj : JSON) (path : string) (value : JSON) : M JSON :=
  setNestedFrom (split_on "." path) value obj.

(** The loop of [executeMultipartRequest] over the file mappings. *)
Fixpoint collectFiles (mappings : list FileMapping) (fileList : list File)
    (map : list (string * JSON)) (parsedVariables : JSON)
  : M (list File * list (string * JSON) * JSON) :=
  match mappings with
  | [] => ret (fileList, map, parsedVariables)
  | mapping :: rest =>
      match file mapping with
      | Some f =>
          let index := length fileList in
          let fileList := (fileList ++ [f])%list in
          let map := field_assign (index_toString index)
                       (JArray [JString ("variables." ++ variablePath mapping)]) map in
          (* Set the variable to null as per spec *)
          let! parsedVariables := setNestedValue parsedVariables (variablePath mapping) JNull in
          collectFiles rest fileList map parsedVariables
      | None => collectFiles rest fileList map parsedVariables
      end
  end.

Fixpoint fileParts (i : nat) (fileList : list File) : list (string * Part) :=
  match fileList with
  | [] => []
  | f :: rest => (index_toString i, FilePart f) :: fileParts (S i) rest
  end.

Definition executeMultipartRequest (endpoint : string) (options : RequestOptions)
    (headers : gmap string string) (timeout : Z) : M Response :=
  (* GraphQL multipart request spec implementation *)
  let variables := interpolateString P (variables options) (context options) in
  let parsedVariables : JSON :=
    if truthy variables then
      match JSON_parse P variables with
      | inr j => j
      | inl _ => JObject []
      end
    else JObject [] in
  let! (fileList, map, parsedVariables) :=
    collectFiles (fileMappings options) [] [] parsedVariables in
  let operations := JSON_stringify P
                      (operationsObject (query options) (Some parsedVariables)
                                        (operationName options)) in
  let formData := ([("operations", TextPart operations);
                    ("map", TextPart (JSON_stringify P (JObject map)))]
                   ++ fileParts 0 fileList)%list in
  (* Remove Content-Type to let browser set it with boundary *)
  let headers := delete "Content-Type" headers in
  fetch {| fc_url := endpoint;
           fc_method := "POST";
           fc_headers := headers;
           fc_body := FormBody formData;
           fc_abortAfter := timeout |}.

(** *** [executeRequest] *)

(** The three ways a request is encoded. *)
Inductive Encoding : Type := EncodeGet | EncodeMultipart | EncodePost.

Definition hasFiles (options : RequestOptions) : bool :=
  existsb (fun m => match file m with Some _ => true | None => false end)
          (fileMappings options).

(** The [if / else if / else] of lines 33-39. *)
Definition selectEncoding (options : RequestOptions) : Encoding :=
  match httpMethod options with
  | GET => EncodeGet
  | _ => if hasFiles options then EncodeMultipart else EncodePost
  end.

(** Lines 22-39: from the options to the [Response]. *)
Definition sendRequest (options : RequestOptions) : M Response :=
  let endpoint := interpolateString P (endpoint options) (context options) in
  if negb (truthy endpoint) || negb (isValidUrl endpoint) then
    throw (ThrownError "Invalid endpoint URL")
  else
    let headers := buildHeaders (headers options) (auth options) (context options)
                                (useProxy options) endpoint in
    match selectEncoding options with
    | EncodeGet => executeGetRequest endpoint options headers (timeout options)
    | EncodeMultipart => executeMultipartRequest endpoint options headers (timeout options)
    | EncodePost =>
        executePostRequest endpoint options headers (useProxy options) (timeout options)
    end.

Definition parseFailure : JSON :=
  JObject [("errors", JArray [JObject [("message", JString "Failed to parse response as JSON")]])].

(** Lines 41-68: from the [Response] to the result. *)
Definition readResponse (startTime : Z) (response : Response) : M RequestResult :=
  let! now := performance_now in
  let duration := now - startTime in
  let! responseText := await_body (resp_text response) in
  let size := utf8_length responseText in
  let responseHeaders := resp_headers response in
  let parsedResponse :=
    match JSON_parse P responseText with
    | inr j => j
    | inl _ => parseFailure
    end in
  let! timestamp := Date_now in
  ret {| response := parsedResponse;
         rr_headers := responseHeaders;
         stats := Some {| status := resp_status response;
                          statusText := resp_statusText response;
                          duration := duration;
                          size := size;
                          timestamp := timestamp |};
         error := None |}.

(** Lines 69-83: the [catch] clause. *)
Definition failureResult (startTime : Z) (error : Thrown) : M RequestResult :=
  let! now := performance_now in
  let duration := now - startTime in
  let! timestamp := Date_now in
  ret {| response := JNull;
         rr_headers := [];
         stats := Some {| status := 0;
                          statusText := "Error";
                          duration := duration;
                          size := 0;
                          timestamp := timestamp |};
         error := Some match error with
                       | ThrownError message => message
                       | ThrownOther => "Unknown error"
                       end |}.

Definition executeRequest (options : RequestOptions) : M RequestResult :=
  let! startTime := performance_now in
  try_catch
    (let! response := sendRequest options in readResponse startTime response)
    (failureResult startTime).

End WithPlatform.

(** An action that leaves the world as it found it. *)
Definition pure {A} (m : M A) : Prop := forall w, snd (m w) = w.

(** An action that waits for nothing that may never come. *)
Definition settles {A} (m : M A) : Prop := forall w, fst (m w) <> inl Pending.


(** The files bound by the mappings, in order. *)
Definition boundFiles (mappings : list FileMapping) : list File :=
  omap file mappings.


End Request.

(** ** A browser for the examples

    [browser] fixes the platform on the few texts the examples below use,
    where it answers as a browser does; it rejects every other text, so an
    example never relies on it elsewhere.  [JSON.stringify] is printed in
    full (own enumerable properties in insertion order, no indentation). *)

Module Reference.
Import Request Encoding.

Definition dquote : string := String (ascii_of_nat 34) EmptyString.

Definition escape_char (c : ascii) : string :=
  let n := nat_of_ascii c in
  if (n =? 34)%nat then String "\" dquote
  else if (n =? 92)%nat then "\\"
  else if (n =? 8)%nat then "\b"
  else if (n =? 9)%nat then "\t"
  else if (n =? 10)%nat then "\n"
  else if (n =? 12)%nat then "\f"
  else if (n =? 13)%nat then "\r"
  else if (n <? 32)%nat then
    "\u00" ++ String (ascii_of_nat (48 + n / 16))
                (String (if (n mod 16 <? 10)%nat then ascii_of_nat (48 + n mod 16)
                         else ascii_of_nat (87 + n mod 16)) EmptyString)
  else String c EmptyString.

Fixpoint escape (s : string) : string :=
  match s with
  | EmptyString => EmptyString
  | String c s' => escape_char c ++ escape s'
  end.

Definition quoted (s : string) : string := dquote ++ escape s ++ dquote.

Fixpoint stringify (j : JSON) : string :=
  match j with
  | JNull => "null"
  | JBool true => "true"
  | JBool false => "false"
  | JNumber text => text
  | JString s => quoted s
  | JArray items =>
      "[" ++ join_with "," (map stringify items) ++ "]"
  | JObject fields =>
      "{" ++ join_with "," (map (fun kv => quoted (fst kv) ++ ":" ++ stringify (snd kv)) fields)
          ++ "}"
  end.

Definition parse (s : string) : string + JSON :=
  if String.eqb s "{}" then inr (JObject [])
  else if String.eqb s "[]" then inr (JArray [])
  else if String.eqb s "null" then inr JNull
  else if String.eqb s "true" then inr (JBool true)
  else if String.eqb s "7" then inr (JNumber "7")
  else inl "Unexpected token".

Definition newURL (s : string) : string + URL :=
  if String.eqb s "https://x.test/graphql" then
    inr {| url_prefix := "https://x.test/graphql"; url_searchParams := []; url_hash := "" |}
  else if String.eqb s "https://x.test/graphql?variables=1" then
    inr {| url_prefix := "https://x.test/graphql";
           url_searchParams := [("variables", "1")];
           url_hash := "" |}
  else inl "Invalid URL".

Definition browser : Platform :=
  {| JSON_parse := parse;
     JSON_stringify := stringify;
     URL_parse := newURL;
     TypeError_message := "Cannot create property on a primitive value";
     Function_toString := fun name =>
       "function " ++ (if String.eqb name "constructor" then "Object" else name)
       ++ "() { [native code] }" |}.

(** A server that answers every call after 12 ms with the given status
    line and body. *)
Definition server (status : Z) (statusText body : string) : Network :=
  {| net_fetch := fun _ =>
       (12, inr {| resp_status := status;
                   resp_statusText := statusText;
                   resp_headers := [("content-type", "text/html")];
                   resp_text := inr body |}) |}.

(** An endpoint nobody listens on: the call is rejected after 3 ms. *)
Definition unreachable : Network :=
  {| net_fetch := fun _ => (3, inl (ThrownError "Failed to fetch")) |}.

Definition world0 : World := {| perf_now := 1000; date_now := 1700000000000; fetched := [] |}.

Definition noAuth : AuthConfig :=
  {| mode := ModeNone; bearer := None; basic := None; apiKey := None |}.

Definition emptyContext : Interpolation.InterpolationContext :=
  {| Interpolation.variables := ∅ |}.

Definition baseOptions : RequestOptions :=
  {| endpoint := "https://x.test/graphql";
     query := "{me}";
     variables := "";
     operationName := None;
     headers := [];
     auth := noAuth;
     httpMethod := POST;
     fileMappings := [];
     useProxy := false;
     timeout := 30000;
     context := emptyContext |}.

Definition withMethod (m : HttpMethod) (o : RequestOptions) : RequestOptions :=
  {| endpoint := endpoint o; query := query o; variables := variables o;
     operationName := operationName o; headers := headers o; auth := auth o;
     httpMethod := m; fileMappings := fileMappings o; useProxy := useProxy o;
     timeout := timeout o; context := context o |}.

Definition withFiles (fs : list FileMapping) (o : RequestOptions) : RequestOptions :=
  {| endpoint := endpoint o; query := query o; variables := variables o;
     operationName := operationName o; headers := headers o; auth := auth o;
     httpMethod := httpMethod o; fileMappings := fs; useProxy := useProxy o;
     timeout := timeout o; context := context o |}.

Definition withVariables (v : string) (o : RequestOptions) : RequestOptions :=
  {| endpoint := endpoint o; query := query o; variables := v;
     operationName := operationName o; headers := headers o; auth := auth o;
     httpMethod := httpMethod o; fileMappings := fileMappings o; useProxy := useProxy o;
     timeout := timeout o; context := context o |}.

Definition withEndpoint (e : string) (o : RequestOptions) : RequestOptions :=
  {| endpoint := e; query := query o; variables := variables o;
     operationName := operationName o; headers := headers o; auth := auth o;
     httpMethod := httpMethod o; fileMappings := fileMappings o; useProxy := useProxy o;
     timeout := timeout o; context := context o |}.

Definition withAuth (a : AuthConfig) (o : RequestOptions) : RequestOptions :=
  {| endpoint := endpoint o; query := query o; variables := variables o;
     operationName := operationName o; headers := headers o; auth := a;
     httpMethod := httpMethod o; fileMappings := fileMappings o; useProxy := useProxy o;
     timeout := timeout o; context := context o |}.

Definition withProxy (h : list Header) (o : RequestOptions) : RequestOptions :=
  {| endpoint := endpoint o; query := query o; variables := variables o;
     operationName := operationName o; headers := h; auth := auth o;
     httpMethod := httpMethod o; fileMappings := fileMappings o; useProxy := true;
     timeout := timeout o; context := context o |}.

Definition upload : FileMapping :=
  {| fm_id := "m1"; variablePath := "file.upload";
     file := Some {| file_name := "a.png" |}; fileName := "a.png" |}.

(** A proxied request with a bearer token and two headers, one disabled. *)
Definition proxied : RequestOptions :=
  withProxy [ {| h_id := "1"; h_key := "X-Trace"; h_value := "on"; enabled := true |};
              {| h_id := "2"; h_key := "X-Debug"; h_value := "1"; enabled := false |} ]
    (withAuth {| mode := ModeBearer; bearer := Some {| token := "t0k" |};
                 basic := None; apiKey := None |} baseOptions).

(** An API key that goes in the query under the given name. *)
Definition keyInQuery (name : string) : AuthConfig :=
  {| mode := ModeApiKey; bearer := None; basic := None;
     apiKey := Some {| ak_key := name; ak_value := "s3"; addTo := AddToQuery |} |}.

(** A context with two variables, and a proxied request whose header name,
    header value and bearer token are templates over them. *)
Definition tokenContext : Interpolation.InterpolationContext :=
  {| Interpolation.variables := {[ "T" := VString "t0k"; "K" := VString "Trace" ]} |}.

Definition templated : RequestOptions :=
  {| endpoint := "https://x.test/graphql";
     query := "{me}";
     variables := "";
     operationName := None;
     headers := [ {| h_id := "1"; h_key := "X-{{K}}"; h_value := "{{T}}"; enabled := true |};
                  {| h_id := "2"; h_key := "X-Debug"; h_value := "1"; enabled := false |} ];
     auth := {| mode := ModeBearer; bearer := Some {| token := "{{T}}" |};
                basic := None; apiKey := None |};
     httpMethod := POST;
     fileMappings := [];
     useProxy := true;
     timeout := 30000;
     context := tokenContext |}.


End Reference.

(** ** [src/lib/subscription.ts] *)

Module Subscription.
Import Interpolation InterpolationStructs Encoding.

Inductive SubscriptionProtocol : Type := ws | sse | appsync.

Definition protocol_eqb (a b : SubscriptionProtocol) : bool :=
  match a, b with
  | ws, ws | sse, sse | appsync, appsync => true
  | _, _ => false
  end.

(** [SubscriptionOptions] without its four callbacks; what the module
    calls back synchronously is recorded in [delivered] below. *)
Record SubscriptionOptions : Type := mkSubscriptionOptions {
  url : string;
  query : string;
  variables : string;
  operationName : option string;
  headers : list Header;
  auth : AuthConfig;
  protocol : SubscriptionProtocol;
  context : InterpolationContext
}.

(** The payload of [client.subscribe]. *)
Record SubscribePayload : Type := mkPayload {
  p_query : string;
  p_variables : option JSON;
  p_operationName : option string
}.

(** A client object made by [createClient] of graphql-ws or graphql-sse:
    where it connects, whether its subscription has been released (the
    function [client.subscribe] returned was called) and whether
    [dispose()] was called on it. *)
Record Client : Type := mkClient {
  c_kind : SubscriptionProtocol;
  c_url : string;
  c_params : gmap string string;
  c_subscription : option SubscribePayload;
  c_released : bool;
  c_disposed : bool
}.

(** A client holds its transport open from [subscribe] until its
    subscription is released or it is disposed. *)
Definition live (c : Client) : bool :=
  match c_subscription c with
  | Some _ => negb (c_released c) && negb (c_disposed c)
  | None => false
  end.

Inductive Callback : Type :=
| OnConnected
| OnMessage (type : string) (message : string)
| OnError (message : string).

(** The state of the module: every client object created so far (a client
    is known by its position), the two module-scope variables, and the
    callbacks invoked so far. *)
Record ModuleState : Type := mkModuleState {
  clients : list Client;
  wsClient : option nat;
  sseClient : option nat;
  delivered : list Callback
}.

Definition initialState : ModuleState :=
  {| clients := []; wsClient := None; sseClient := None; delivered := [] |}.

(** The handle [subscribe] returns.  Its [unsubscribe] closes over the
    release function of its own subscription, and reads the module-scope
    variable when it runs. *)
Inductive SubscriptionHandle : Type :=
| WsHandle (own : nat)
| SseHandle (own : nat)
| AppSyncHandle.

Definition updateClient (id : nat) (f : Client -> Client) (st : ModuleState) : ModuleState :=
  {| clients := match clients st !! id with
                | Some c => <[id := f c]> (clients st)
                | None => clients st
                end;
     wsClient := wsClient st;
     sseClient := sseClient st;
     delivered := delivered st |}.

Definition createClient (kind : SubscriptionProtocol) (url : string)
    (params : gmap string string) (st : ModuleState) : nat * ModuleState :=
  (length (clients st),
   {| clients := clients st ++ [{| c_kind := kind; c_url := url; c_params := params;
                                   c_subscription := None;
                                   c_released := false; c_disposed := false |}];
      wsClient := wsClient st;
      sseClient := sseClient st;
      delivered := delivered st |}).

(** [client.subscribe(payload, sink)]. *)
Definition clientSubscribe (id : nat) (payload : SubscribePayload) : ModuleState -> ModuleState :=
  updateClient id (fun c =>
    {| c_kind := c_kind c; c_url := c_url c; c_params := c_params c;
       c_subscription := Some payload;
       c_released := c_released c; c_disposed := c_disposed c |}).

(** The function [client.subscribe] returned. *)
Definition release (id : nat) : ModuleState -> ModuleState :=
  updateClient id (fun c =>
    {| c_kind := c_kind c; c_url := c_url c; c_params := c_params c;
       c_subscription := c_subscription c;
       c_released := true; c_disposed := c_disposed c |}).

(** [client.dispose()]. *)
Definition dispose (id : nat) : ModuleState -> ModuleState :=
  updateClient id (fun c =>
    {| c_kind := c_kind c; c_url := c_url c; c_params := c_params c;
       c_subscription := c_subscription c;
       c_released := c_released c; c_disposed := true |}).

Definition setWsClient (v : option nat) (st : ModuleState) : ModuleState :=
  {| clients := clients st; wsClient := v; sseClient := sseClient st;
     delivered := delivered st |}.

Definition setSseClient (v : option nat) (st : ModuleState) : ModuleState :=
  {| clients := clients st; wsClient := wsClient st; sseClient := v;
     delivered := delivered st |}.

Definition deliver (cs : list Callback) (st : ModuleState) : ModuleState :=
  {| clients := clients st; wsClient := wsClient st; sseClient := sseClient st;
     delivered := delivered st ++ cs |}.

Definition payloadOf (options : SubscriptionOptions) (variables : option JSON)
  : SubscribePayload :=
  {| p_query := query options; p_variables := variables;
     p_operationName := operationName options |}.

(** [url.replace(/^http/, 'ws')]. *)
Definition toWsUrl (url : string) : string :=
  match url with
  | String h (String t1 (String t2 (String p rest))) =>
      if Ascii.eqb h "h" && Ascii.eqb t1 "t" && Ascii.eqb t2 "t" && Ascii.eqb p "p"
      then "ws" ++ rest else url
  | _ => url
  end.

Definition subscribeWebSocket (url : string) (options : SubscriptionOptions)
    (headers : gmap string string) (variables : option JSON) (st : ModuleState)
  : SubscriptionHandle * ModuleState :=
  (* Convert http(s) to ws(s) if needed *)
  let wsUrl := toWsUrl url in
  (* wsClient = createWsClient({...}) *)
  let '(id, st) := createClient ws wsUrl headers st in
  let st := setWsClient (Some id) st in
  (* const unsubscribe = wsClient.subscribe({...}, {...}) *)
  let st := clientSubscribe id (payloadOf options variables) st in
  (WsHandle id, st).

Definition subscribeSSE (url : string) (options : SubscriptionOptions)
    (headers : gmap string string) (variables : option JSON) (st : ModuleState)
  : SubscriptionHandle * ModuleState :=
  (* sseClient = createSseClient({...}) *)
  let '(id, st) := createClient sse url headers st in
  let st := setSseClient (Some id) st in
  let st := deliver [OnConnected; OnMessage "connection" "Connected to SSE"] st in
  let st := clientSubscribe id (payloadOf options variables) st in
  (SseHandle id, st).

(** AppSync adapter stub. *)
Definition subscribeAppSync (url : string) (options : SubscriptionOptions)
    (headers : gmap string string) (variables : option JSON) (st : ModuleState)
  : SubscriptionHandle * ModuleState :=
  (AppSyncHandle,
   deliver [OnMessage "error"
              "AppSync subscriptions require additional configuration. Please use the WebSocket or SSE protocol, or implement a custom AppSync adapter.";
            OnError "AppSync adapter not fully implemented"] st).

Section WithPlatform.
Context (P : Platform).

(** The headers and auth of [subscribe]. *)
Definition connectionHeaders (options : SubscriptionOptions) : gmap string string :=
  let interpolatedHeaders := interpolateHeaders P (headers options) (context options) in
  let interpolatedAuth := interpolateAuth P (auth options) (context options) in
  let headers : gmap string string :=
    fold_left (fun acc h => if enabled h then writeOwn (h_key h) (h_value h) acc else acc)
              interpolatedHeaders ∅ in
  (* Add auth headers *)
  match mode interpolatedAuth, bearer interpolatedAuth, basic interpolatedAuth,
        apiKey interpolatedAuth with
  | ModeBearer, Some b, _, _ =>
      if truthy (token b) then <["Authorization" := "Bearer " ++ token b]> headers
      else headers
  | ModeBasic, _, Some b, _ =>
      <["Authorization" := "Basic " ++ btoa (username b ++ ":" ++ password b)]> headers
  | ModeApiKey, _, _, Some k =>
      match addTo k with
      | AddToHeader => writeOwn (ak_key k) (ak_value k) headers
      | AddToQuery => headers
      end
  | _, _, _, _ => headers
  end.

Definition subscribe (options : SubscriptionOptions) (st : ModuleState)
  : SubscriptionHandle * ModuleState :=
  let url := interpolateString P (url options) (context options) in
  let headers := connectionHeaders options in
  let variables : option JSON :=
    if truthy (variables options) then
      match JSON_parse P (interpolateString P (variables options) (context options)) with
      | inr j => Some j
      | inl _ => None
      end
    else None in
  match protocol options with
  | ws => subscribeWebSocket url options headers variables st
  | sse => subscribeSSE url options headers variables st
  | appsync => subscribeAppSync url options headers variables st
  end.

End WithPlatform.

(** [handle.unsubscribe()]. *)
Definition unsubscribe (handle : SubscriptionHandle) (st : ModuleState) : ModuleState :=
  match handle with
  | WsHandle own =>
      let st := release own st in
      (* wsClient?.dispose(); wsClient = null *)
      let st := match wsClient st with
                | Some current => dispose current st
                | None => st
                end in
      setWsClient None st
  | SseHandle own =>
      let st := release own st in
      let st := match sseClient st with
                | Some current => dispose current st
                | None => st
                end in
      setSseClient None st
  | AppSyncHandle => st
  end.

Definition disconnectAll (st : ModuleState) : ModuleState :=
  let st := match wsClient st with
            | Some current => setWsClient None (dispose current st)
            | None => st
            end in
  match sseClient st with
  | Some current => setSseClient None (dispose current st)
  | None => st
  end.

(** The clients of a kind that hold a transport open. *)
Definition liveClients (kind : SubscriptionProtocol) (st : ModuleState) : list Client :=
  List.filter (fun c => protocol_eqb (c_kind c) kind && live c) (clients st).

Definition wsOptions : SubscriptionOptions :=
  {| url := "https://x.test/graphql"; query := "subscription{tick}"; variables := EmptyString;
     operationName := None; headers := []; auth := Reference.noAuth; protocol := ws;
     context := Reference.emptyContext |}.

Definition sseOptions : SubscriptionOptions :=
  {| url := "https://x.test/stream"; query := "subscription{tick}"; variables := EmptyString;
     operationName := None; headers := []; auth := Reference.noAuth; protocol := sse;
     context := Reference.emptyContext |}.

End Subscription.

(** ** [src/lib/scripts.ts] *)

Module Scripts.
Import Encoding.

Record EnvVariable : Type := mkEnvVariable {
  ev_id : string;
  ev_name : string;
  ev_value : Value;
  isSecret : bool
}.

Record ScriptResult : Type := mkScriptResult {
  success : bool;
  logs : list string;
  envOverrides : gmap string Value;
  varsOverrides : gmap string Value;
  headersOverrides : gmap string string;
  script_error : option string
}.

(** The message [postMessage] carries to the worker. *)
Record ScriptMessage : Type := mkScriptMessage {
  m_script : string;
  m_env : gmap string Value;
  m_vars : JSON;
  m_headers : gmap string string;
  m_response : option JSON;
  m_timeout : Z
}.

(** *** What a user script does

    A script is JavaScript text; all the worker sees of running it is the
    calls it makes on the API it is handed, the time it computes, and how the
    call [fn(...)] ends.  ([env.get] and [vars.get] read without changing
    anything and leave no trace here.) *)
Inductive Step : Type :=
| EnvSet (name : string) (value : Value)
| VarsSet (obj : gmap string Value)
| HeadersSet (key value : string)
| Log (args : list Value)
| Busy (ms : Z).

(** How [executeScript] ends: it returns, it throws (the text being
    [error instanceof Error ? error.message : String(error)]), or, the
    script looping for ever, it does neither. *)
Inductive Ending : Type :=
| Returns
| Throws (text : string)
| NeverReturns.

Record Behaviour : Type := mkBehaviour {
  steps : list Step;
  ending : Ending
}.

(** *** The worker: one thread, one event loop

    A timer armed by [setTimeout] is a pending entry; its callback runs
    only when the loop takes it up, which it does between handlers, never
    while one (here the [onmessage] handler) is running. *)
Record Worker : Type := mkWorker {
  clock : Z;
  timers : list (nat * Z);
  nextTimer : nat;
  w_logs : list string;
  w_envOverrides : gmap string Value;
  w_varsOverrides : gmap string Value;
  w_headersOverrides : gmap string string;
  posted : list ScriptResult
}.

Definition newWorker : Worker :=
  {| clock := 0; timers := []; nextTimer := 1; w_logs := [];
     w_envOverrides := ∅; w_varsOverrides := ∅; w_headersOverrides := ∅; posted := [] |}.

Definition setTimeout (delay : Z) (wk : Worker) : nat * Worker :=
  (nextTimer wk,
   {| clock := clock wk;
      timers := timers wk ++ [(nextTimer wk, clock wk + timerDelay delay)];
      nextTimer := S (nextTimer wk);
      w_logs := w_logs wk; w_envOverrides := w_envOverrides wk;
      w_varsOverrides := w_varsOverrides wk; w_headersOverrides := w_headersOverrides wk;
      posted := posted wk |}).

Definition clearTimeout (id : nat) (wk : Worker) : Worker :=
  {| clock := clock wk;
     timers := List.filter (fun t => negb (Nat.eqb (fst t) id)) (timers wk);
     nextTimer := nextTimer wk;
     w_logs := w_logs wk; w_envOverrides := w_envOverrides wk;
     w_varsOverrides := w_varsOverrides wk; w_headersOverrides := w_headersOverrides wk;
     posted := posted wk |}.

(** [self.postMessage({success, logs: [...logs], envOverrides, ...})]. *)
Definition postResult (success : bool) (error : option string) (wk : Worker) : Worker :=
  {| clock := clock wk; timers := timers wk; nextTimer := nextTimer wk;
     w_logs := w_logs wk; w_envOverrides := w_envOverrides wk;
     w_varsOverrides := w_varsOverrides wk; w_headersOverrides := w_headersOverrides wk;
     posted := posted wk ++ [{| success := success;
                                logs := w_logs wk;
                                envOverrides := w_envOverrides wk;
                                varsOverrides := w_varsOverrides wk;
                                headersOverrides := w_headersOverrides wk;
                                script_error := error |}] |}.

(** The callback of the timer armed in [onmessage]. *)
Definition timeoutCallback (wk : Worker) : Worker :=
  postResult false (Some "Script execution timed out") wk.

Section WithEngine.
(** [pretty] is [JSON.stringify(arg, null, 2)]; [engine] is what
    [new Function(..., script)] does when called on that API, in the run
    at hand: the calls it makes on the API and how it ends.  What a script
    reads beside its arguments (the clock, a global an earlier run left)
    belongs to that run; no two runs are compared. *)
Context (pretty : JSON -> string) (engine : ScriptMessage -> Behaviour).

(** One argument of [log]:
    [typeof arg === 'object' ? JSON.stringify(arg, null, 2) : String(arg)]. *)
Definition showArg (arg : Value) : string :=
  match arg with
  | VObject j => pretty j
  | VString s => s
  | VNumber text => text
  | VBool true => "true"
  | VBool false => "false"
  | VUndefined => "undefined"
  end.

(** One call on the script's API, or a stretch of computation. *)
Definition runStep (step : Step) (wk : Worker) : Worker :=
  match step with
  | EnvSet name value =>
      {| clock := clock wk; timers := timers wk; nextTimer := nextTimer wk;
         w_logs := w_logs wk;
         w_envOverrides := writeOwn name value (w_envOverrides wk);
         w_varsOverrides := w_varsOverrides wk;
         w_headersOverrides := w_headersOverrides wk; posted := posted wk |}
  | VarsSet obj =>
      (* varsOverrides = { ...varsOverrides, ...obj } *)
      {| clock := clock wk; timers := timers wk; nextTimer := nextTimer wk;
         w_logs := w_logs wk; w_envOverrides := w_envOverrides wk;
         w_varsOverrides := obj ∪ w_varsOverrides wk;
         w_headersOverrides := w_headersOverrides wk; posted := posted wk |}
  | HeadersSet key value =>
      {| clock := clock wk; timers := timers wk; nextTimer := nextTimer wk;
         w_logs := w_logs wk; w_envOverrides := w_envOverrides wk;
         w_varsOverrides := w_varsOverrides wk;
         w_headersOverrides := writeOwn key value (w_headersOverrides wk);
         posted := posted wk |}
  | Log args =>
      {| clock := clock wk; timers := timers wk; nextTimer := nextTimer wk;
         w_logs := w_logs wk ++ [Request.join_with " " (map showArg args)];
         w_envOverrides := w_envOverrides wk; w_varsOverrides := w_varsOverrides wk;
         w_headersOverrides := w_headersOverrides wk; posted := posted wk |}
  | Busy ms =>
      {| clock := clock wk + Z.max 0 ms; timers := timers wk; nextTimer := nextTimer wk;
         w_logs := w_logs wk; w_envOverrides := w_envOverrides wk;
         w_varsOverrides := w_varsOverrides wk;
         w_headersOverrides := w_headersOverrides wk; posted := posted wk |}
  end.

Definition runSteps (l : list Step) (wk : Worker) : Worker :=
  fold_left (fun wk step => runStep step wk) l wk.

(** The handler [self.onmessage]: [None] when it never returns. *)
Definition onmessage (msg : ScriptMessage) (wk : Worker) : option Worker :=
  (* logs.length = 0; envOverrides = {}; varsOverrides = {};
     headersOverrides = { ...headers } *)
  let wk := {| clock := clock wk; timers := timers wk; nextTimer := nextTimer wk;
               w_logs := []; w_envOverrides := ∅; w_varsOverrides := ∅;
               w_headersOverrides := m_headers msg; posted := posted wk |} in
  let '(timeoutId, wk) := setTimeout (m_timeout msg) wk in
  (* try { executeScript(script, api); ... } catch (error) { ... } *)
  let behaviour := engine msg in
  let wk := runSteps (steps behaviour) wk in
  match ending behaviour with
  | Returns => Some (postResult true None (clearTimeout timeoutId wk))
  | Throws text => Some (postResult false (Some text) (clearTimeout timeoutId wk))
  | NeverReturns => None
  end.

(** The loop, idle after a handler: time passes and the timers still pending
    fire, each in its turn. *)
Definition runTimers (wk : Worker) : Worker :=
  fold_left (fun wk t =>
               timeoutCallback
                 {| clock := Z.max (clock wk) (snd t);
                    timers := List.filter (fun t' => negb (Nat.eqb (fst t') (fst t))) (timers wk);
                    nextTimer := nextTimer wk;
                    w_logs := w_logs wk; w_envOverrides := w_envOverrides wk;
                    w_varsOverrides := w_varsOverrides wk;
                    w_headersOverrides := w_headersOverrides wk; posted := posted wk |})
            (timers wk) wk.

(** A message sent to an idle worker, and the first message that comes
    back: the one the listener [handleMessage] resolves the promise with.
    [None]: nothing ever comes back. *)
Definition exchange (msg : ScriptMessage) (wk : Worker) : option (ScriptResult * Worker) :=
  let wk := {| clock := clock wk; timers := timers wk; nextTimer := nextTimer wk;
               w_logs := w_logs wk; w_envOverrides := w_envOverrides wk;
               w_varsOverrides := w_varsOverrides wk;
               w_headersOverrides := w_headersOverrides wk; posted := [] |} in
  match onmessage msg wk with
  | None => None
  | Some wk' =>
      let wk'' := runTimers wk' in
      match posted wk'' with
      | r :: _ => Some (r, wk'')
      | [] => None
      end
  end.

Section WithPlatform.
Context (P : Platform).

Definition envOf (envVariables : list EnvVariable) : gmap string Value :=
  fold_left (fun env v => writeOwn (ev_name v) (ev_value v) env) envVariables ∅.

(** [let vars = {}; try { vars = JSON.parse(variables) } catch {}]. *)
Definition varsOf (variables : string) : JSON :=
  match JSON_parse P variables with
  | inr j => j
  | inl _ => JObject []
  end.

Definition headerMapOf (headers : list Header) : gmap string string :=
  fold_left (fun acc h => if enabled h then writeOwn (h_key h) (h_value h) acc else acc)
            headers ∅.

Definition emptyResult : ScriptResult :=
  {| success := true; logs := []; envOverrides := ∅; varsOverrides := ∅;
     headersOverrides := ∅; script_error := None |}.

(** The promise of [runPreRequestScript]: [Some] with what it resolves to
    and the worker afterwards, [None] when it stays pending for ever. *)
Definition runPreRequestScript (script : string) (envVariables : list EnvVariable)
    (variables : string) (headers : list Header) (timeout : Z) (wk : Worker)
  : option (ScriptResult * Worker) :=
  if negb (truthy (trim script)) then Some (emptyResult, wk)
  else
    exchange {| m_script := script;
                m_env := envOf envVariables;
                m_vars := varsOf variables;
                m_headers := headerMapOf headers;
                m_response := None;
                m_timeout := timeout |} wk.

Definition runPostRequestScript (script : string) (envVariables : list EnvVariable)
    (variables : string) (headers : list Header) (response : JSON) (timeout : Z)
    (wk : Worker) : option (ScriptResult * Worker) :=
  if negb (truthy (trim script)) then Some (emptyResult, wk)
  else
    exchange {| m_script := script;
                m_env := envOf envVariables;
                m_vars := varsOf variables;
                m_headers := headerMapOf headers;
                m_response := Some response;
                m_timeout := timeout |} wk.

End WithPlatform.
End WithEngine.

(** *** Two scripts for the examples *)

(** [log('start'); const t = Date.now(); while (Date.now() - t < 10000) {}]:
    ten seconds of computation, then a return. *)
Definition slowScript : string := "log('start'); const t = Date.now(); while (Date.now() - t < 10000) {}".

(** [log('start'); while (true) {}]. *)
Definition loopScript : string := "log('start'); while (true) {}".

Definition exampleEngine (msg : ScriptMessage) : Behaviour :=
  if String.eqb (m_script msg) slowScript then
    {| steps := [Log [VString "start"]; Busy 10000]; ending := Returns |}
  else if String.eqb (m_script msg) loopScript then
    {| steps := [Log [VString "start"]]; ending := NeverReturns |}
  else {| steps := []; ending := Returns |}.

End Scripts.

(** ** The rest of [src/lib/interpolation.ts] *)

Module InterpolationTools.
Import Interpolation Scripts.

(** A write [variables[name] = value] that replaces the prototype of
    [variables]: the name is [__proto__], which reaches the inherited
    setter ([variables] starts empty and the loop never gives it an entry of
    that name), and the value is an object or [null]. *)
Definition replacesPrototype (name : string) (value : Value) : bool :=
  String.eqb name "__proto__" && match value with VObject _ => true | _ => false end.

(** The loop [variables[v.name] = v.value]: a later entry of the same name
    replaces an earlier one, a primitive written under [__proto__] is
    ignored.  [None]: the prototype has been replaced, and the object is
    not one an [InterpolationContext] of the model stands for. *)
Fixpoint assignVariables (envVariables : list EnvVariable) (vars : gmap string Value)
  : option (gmap string Value) :=
  match envVariables with
  | [] => Some vars
  | v :: rest =>
      if replacesPrototype (ev_name v) (ev_value v) then None
      else assignVariables rest (writeOwn (ev_name v) (ev_value v) vars)
  end.

Definition buildInterpolationContext (envVariables : list EnvVariable)
  : option InterpolationContext :=
  option_map mkContext (assignVariables envVariables ∅).

(** [name in context.variables]. *)
Definition hasVariable (context : InterpolationContext) (name : string) : bool :=
  hasProperty (variables context) name.

(** [validateInterpolation]: the pair [(valid, missingVars)]. *)
Definition validateInterpolation (template : string) (context : InterpolationContext)
  : bool * list string :=
  let names := extractVariableNames template in
  let missingVars := List.filter (fun name => negb (hasVariable context name)) names in
  (Nat.eqb (length missingVars) 0, missingVars).

Section WithPlatform.
Context (P : Platform).

Definition interpolateVariablesJSON (variablesStr : string) (context : InterpolationContext)
  : string :=
  let interpolated := interpolateString P variablesStr context in
  match JSON_parse P interpolated with
  | inr _ => interpolated
  | inl _ => variablesStr
  end.

End WithPlatform.

(** The value of the last entry of the given name, if there is one. *)
Definition lastValue (name : string) (envVariables : list EnvVariable) : option Value :=
  option_map ev_value
    (List.find (fun v => String.eqb (ev_name v) name) (rev envVariables)).

(** What the variables leave under a name in the object the loop fills:
    the last value, and nothing under [__proto__]. *)
Definition ownValue (name : string) (envVariables : list EnvVariable) : option Value :=
  if String.eqb name "__proto__" then None else lastValue name envVariables.

End InterpolationTools.

(** ** Reading [setNestedValue] back, and what the multipart map holds *)

Module RequestTools.
Import Encoding Request.

(** The object [{p1: {p2: ... {pn: value}}}]. *)
Fixpoint nestObject (parts : list string) (value : JSON) : JSON :=
  match parts with
  | [] => value
  | part :: rest => JObject [(part, nestObject rest value)]
  end.

(** [obj.p1.p2...pn], through objects. *)
Fixpoint readPath (parts : list string) (j : JSON) : option JSON :=
  match parts with
  | [] => Some j
  | part :: rest =>
      match j with
      | JObject fields =>
          match field_lookup part fields with
          | Some child => readPath rest child
          | None => None
          end
      | _ => None
      end
  end.

(** The walk of [setNestedValue] stays on plain ground: it goes through
    objects only, and a part the object reached has no entry of is no name
    that objects inherit (from there on the objects are new and empty). *)
Fixpoint plainPath (parts : list string) (j : JSON) : bool :=
  match parts with
  | [] => true
  | part :: rest =>
      match j with
      | JObject fields =>
          match field_lookup part fields with
          | Some child =>
              match rest with
              | [] => true
              | _ :: _ => plainPath rest child
              end
          | None => forallb (fun p => negb (inherited p)) parts
          end
      | _ => false
      end
  end.




(** The entries [index: ["variables.<path>"]] of the bound mappings,
    numbered from [i]. *)
Fixpoint mapEntries (i : nat) (mappings : list FileMapping) : list (string * JSON) :=
  match mappings with
  | [] => []
  | mapping :: rest =>
      match file mapping with
      | Some _ =>
          (index_toString i, JArray [JString ("variables." ++ variablePath mapping)])
            :: mapEntries (S i) rest
      | None => mapEntries i rest
      end
  end.

(** A step of the executor that either ends before any call is made, with
    a throw or at the edge of the model, or makes exactly one call, which
    then satisfies [Q]. *)
Definition atMostOneCall {A} (Q : FetchCall -> Prop) (m : M A) : Prop :=
  forall w,
    (fetched (snd (m w)) = fetched w /\
     ((exists e, fst (m w) = inl (Threw e)) \/ fst (m w) = inl Unmodelled)) \/
    exists call, Q call /\ fetched (snd (m w)) = (fetched w ++ [call])%list.

(** [s ? JSON.parse(s) : undefined], a failure to parse giving [undefined]
    as well: the variables a JSON POST carries. *)
Definition parsedOrUndefined (P : Platform) (s : string) : option JSON :=
  if truthy s then
    match JSON_parse P s with
    | inr j => Some j
    | inl _ => None
    end
  else None.

End RequestTools.

(** ** [src/components/editor/RequestBar.tsx]: applying script overrides *)

Module RequestBar.
Import Scripts.

(** [envVars.map(v => v.name in envOverrides ? {...v, value: ...} : v)].
    [envOverrides] is the object the worker posted, with [Object.prototype]
    behind it: for a variable named like a member every object inherits
    ([toString], [constructor], ...) the test holds without an entry and
    the value read is that built-in, which is no [Value]: [None]. *)
Fixpoint applyEnvOverrides (envVars : list EnvVariable) (envOverrides : gmap string Value)
  : option (list EnvVariable) :=
  match envVars with
  | [] => Some []
  | v :: rest =>
      match envOverrides !! ev_name v with
      | Some value =>
          option_map (cons {| ev_id := ev_id v; ev_name := ev_name v;
                              ev_value := value; isSecret := isSecret v |})
                     (applyEnvOverrides rest envOverrides)
      | None =>
          if inherited (ev_name v) then None
          else option_map (cons v) (applyEnvOverrides rest envOverrides)
      end
  end.

(** [existing.value = value] on the first header found by
    [allHeaders.find(h => h.key === key)]; [None] when there is none. *)
Fixpoint setExisting (key value : string) (allHeaders : list Header) : option (list Header) :=
  match allHeaders with
  | [] => None
  | h :: rest =>
      if String.eqb (h_key h) key then
        Some ({| h_id := h_id h; h_key := h_key h; h_value := value;
                 enabled := enabled h |} :: rest)
      else option_map (cons h) (setExisting key value rest)
  end.

Section WithIds.
(** [crypto.randomUUID()], by the number of headers there are. *)
Context (randomUUID : nat -> string).

(** One turn of the loop over [Object.entries(headersOverrides)]. *)
Definition applyHeaderOverride (allHeaders : list Header) (entry : string * string)
  : list Header :=
  let '(key, value) := entry in
  match setExisting key value allHeaders with
  | Some updated => updated
  | None => (allHeaders ++ [{| h_id := randomUUID (length allHeaders); h_key := key;
                               h_value := value; enabled := true |}])%list
  end.

Definition applyHeaderOverrides (entries : list (string * string)) (allHeaders : list Header)
  : list Header :=
  fold_left applyHeaderOverride entries allHeaders.

End WithIds.

(** The value of the first header of the given key. *)
Definition firstValue (key : string) (allHeaders : list Header) : option string :=
  option_map h_value (List.find (fun h => String.eqb (h_key h) key) allHeaders).

(** What of a header an override never touches. *)
Definition sameHeader (a b : Header) : Prop :=
  h_id a = h_id b /\ h_key a = h_key b /\ enabled a = enabled b.

End RequestBar.

(** ** The store of [src/lib/scripts.ts]: history and tabs

    The calls on the database are not part of the model; a transition is
    the state the store is set to once they have succeeded. *)

Module Store.

Section WithEntries.
Context {HistoryEntry Tab : Type} (tab_id : Tab -> string).

(** [set(s => ({ history: [full, ...s.history].slice(0, 100) }))]. *)
Definition addHistoryEntry (full : HistoryEntry) (history : list HistoryEntry)
  : list HistoryEntry :=
  firstn 100 (full :: history).

Record TabsState : Type := mkTabsState {
  tabs : list Tab;
  activeTabId : option string
}.

Definition optionEqb (a : option string) (b : string) : bool :=
  match a with
  | Some x => String.eqb x b
  | None => false
  end.

(** [deleteTab]: [inl] is the throw of ['Cannot delete the last tab']. *)
Definition deleteTab (id : string) (s : TabsState) : string + TabsState :=
  if (length (tabs s) <=? 1)%nat then inl "Cannot delete the last tab"
  else
    let remaining := List.filter (fun t => negb (String.eqb (tab_id t) id)) (tabs s) in
    let newActiveId :=
      if optionEqb (activeTabId s) id then
        (* remaining[0]?.id ?? null *)
        match remaining with
        | t :: _ => Some (tab_id t)
        | [] => None
        end
      else activeTabId s in
    inr {| tabs := remaining; activeTabId := newActiveId |}.

(** The active tab is one of the tabs. *)
Definition activeIsTab (s : TabsState) : Prop :=
  exists t id, activeTabId s = Some id /\ In t (tabs s) /\ tab_id t = id.

End WithEntries.
End Store.

(** ** Objects used as maps, timers *)

Module JsFacts.

Lemma writeOwn_insert {A} (name : string) (value : A) (m : gmap string A) :
  name <> "__proto__" -> writeOwn name value m = <[name := value]> m.
Proof.
  intros Hne. unfold writeOwn. destruct (m !! name); [reflexivity|].
  now destruct (String.eqb_spec name "__proto__").
Qed.

Lemma writeOwn_lookup_eq {A} (name : string) (value : A) (m : gmap string A) :
  name <> "__proto__" -> writeOwn name value m !! name = Some value.
Proof. intros Hne. rewrite writeOwn_insert by exact Hne. apply lookup_insert_eq. Qed.

Lemma writeOwn_lookup_ne {A} (name other : string) (value : A) (m : gmap string A) :
  name <> other -> writeOwn name value m !! other = m !! other.
Proof.
  intros Hne. unfold writeOwn. destruct (m !! name).
  - now apply lookup_insert_ne.
  - destruct (String.eqb name "__proto__"); [reflexivity | now apply lookup_insert_ne].
Qed.

(** An entry after the write is the one written, or was there before. *)
Lemma writeOwn_lookup_Some {A} (name other : string) (value x : A) (m : gmap string A) :
  writeOwn name value m !! other = Some x ->
  (other = name /\ x = value) \/ m !! other = Some x.
Proof.
  destruct (decide (name = other)) as [<- | Hne].
  - unfold writeOwn. destruct (m !! name) as [y|] eqn:E.
    + rewrite lookup_insert_eq. intros [= <-]. now left.
    + destruct (String.eqb name "__proto__").
      * rewrite E. discriminate.
      * rewrite lookup_insert_eq. intros [= <-]. now left.
  - rewrite writeOwn_lookup_ne by exact Hne. now right.
Qed.

Lemma writeOwn_lookup_is_Some {A} (name other : string) (value : A) (m : gmap string A) :
  is_Some (m !! other) -> is_Some (writeOwn name value m !! other).
Proof.
  intros Hm. destruct (decide (name = other)) as [<- | Hne].
  - unfold writeOwn. destruct Hm as [y Hy]. rewrite Hy, lookup_insert_eq. eauto.
  - now rewrite writeOwn_lookup_ne.
Qed.

(** No write gives an object an entry named [__proto__]. *)
Lemma writeOwn_proto {A} (name : string) (value : A) (m : gmap string A) :
  m !! "__proto__" = None -> writeOwn name value m !! "__proto__" = None.
Proof.
  intros Hm. destruct (decide (name = "__proto__")) as [-> | Hne].
  - unfold writeOwn. now rewrite Hm.
  - now rewrite writeOwn_lookup_ne.
Qed.

Lemma inherited_proto : inherited "__proto__" = true.
Proof. reflexivity. Qed.

Lemma not_inherited_proto (name : string) : inherited name = false -> name <> "__proto__".
Proof. intros H ->. discriminate. Qed.




Lemma timerDelay_range (t : Z) : 0 <= timerDelay t < 2147483648.
Proof.
  unfold timerDelay.
  pose proof (Z.mod_pos_bound (t + 2147483648) 4294967296 ltac:(lia)). lia.
Qed.

End JsFacts.

(** ** Interpolation: unresolved placeholders *)

Module InterpolationFacts.
Import Interpolation.

Lemma append_cons (c : ascii) (a b : string) : String c a ++ b = String c (a ++ b).
Proof. reflexivity. Qed.

Lemma append_empty (b : string) : EmptyString ++ b = b.
Proof. reflexivity. Qed.

Lemma string_app_length (a b : string) :
  String.length (a ++ b) = (String.length a + String.length b)%nat.
Proof.
  induction a as [|c a IH]; [reflexivity|].
  rewrite append_cons. simpl. now rewrite IH.
Qed.

Lemma append_empty_r (a : string) : a ++ EmptyString = a.
Proof.
  induction a as [|c a IH]; [reflexivity|].
  rewrite append_cons. now rewrite IH.
Qed.

Lemma string_app_assoc (a b c : string) : (a ++ b) ++ c = a ++ (b ++ c).
Proof.
  induction a as [|x a IH]; [reflexivity|].
  rewrite !append_cons. now rewrite IH.
Qed.

Lemma span_body_split (s b r : string) :
  span_body s = (b, r) -> s = b ++ r.
Proof.
  revert b r. induction s as [|c s IH]; intros b r; simpl.
  - intros [= <- <-]. reflexivity.
  - destruct (is_rbrace c).
    + intros [= <- <-]. reflexivity.
    + destruct (span_body s) as [b' r'] eqn:E. intros [= <- <-].
      rewrite append_cons. f_equal. apply IH. reflexivity.
Qed.

Lemma is_lbrace_true (c : ascii) : is_lbrace c = true -> c = "{"%char.
Proof. apply Ascii.eqb_eq. Qed.

Lemma is_rbrace_true (c : ascii) : is_rbrace c = true -> c = "}"%char.
Proof. apply Ascii.eqb_eq. Qed.

(** A match is the text [{{body}}] at the head of the subject. *)
Lemma match_at_split (s body rest : string) :
  match_at s = Some (body, rest) ->
  s = raw (Hole body) ++ rest /\ (String.length rest < String.length s)%nat.
Proof.
  unfold match_at.
  destruct s as [|c1 [|c2 s1]]; try discriminate.
  destruct (is_lbrace c1) eqn:E1; [|discriminate].
  destruct (is_lbrace c2) eqn:E2; [|discriminate]. simpl.
  destruct (span_body s1) as [b r] eqn:Es.
  destruct b as [|b0 bs]; [discriminate|].
  destruct r as [|d1 [|d2 r]]; try discriminate.
  destruct (is_rbrace d1) eqn:E3; [|discriminate].
  destruct (is_rbrace d2) eqn:E4; [|discriminate]. simpl.
  intros [= <- <-].
  apply is_lbrace_true in E1, E2. apply is_rbrace_true in E3, E4. subst.
  apply span_body_split in Es. subst s1. split.
  - unfold raw. rewrite !append_cons, append_empty, !append_cons.
    now rewrite string_app_assoc.
  - simpl. rewrite string_app_length. simpl. lia.
Qed.

(** The scan loses nothing: gluing the segments back gives the subject. *)
Lemma scan_fuel_raw (fuel : nat) (s : string) :
  (String.length s < fuel)%nat ->
  concat_strings (map raw (scan_fuel fuel s)) = s.
Proof.
  revert s. induction fuel as [|fuel IH]; intros s Hlen; [lia|].
  simpl. destruct (match_at s) as [[body rest]|] eqn:Em.
  - apply match_at_split in Em as [Hs Hlt].
    cbn [map concat_strings]. rewrite IH by lia. symmetry. exact Hs.
  - destruct s as [|c s]; [reflexivity|].
    cbn [map concat_strings raw]. rewrite IH by (simpl in Hlen; lia). reflexivity.
Qed.

Lemma scan_raw (s : string) : concat_strings (map raw (scan s)) = s.
Proof. apply scan_fuel_raw. lia. Qed.

Lemma pushNew_incl (names : list string) (gs : list Segment) (n : string) :
  In n names -> In n (pushNew names gs).
Proof.
  revert names. induction gs as [|[c|body] gs IH]; intros names Hn; simpl; auto.
  destruct (existsb _ names); apply IH; auto. apply in_or_app. now left.
Qed.

Lemma pushNew_holes (names : list string) (gs : list Segment) (body : string) :
  In (Hole body) gs -> In (trim body) (pushNew names gs).
Proof.
  revert names. induction gs as [|g gs IH]; intros names; simpl; [tauto|].
  intros [->|Hin].
  - destruct (existsb _ names) eqn:E.
    + apply pushNew_incl. apply existsb_exists in E as [x [Hx Heq]].
      apply String.eqb_eq in Heq. now subst.
    + apply pushNew_incl. apply in_or_app. right. now left.
  - destruct g as [c|b]; [now apply IH|].
    destruct (existsb _ names); now apply IH.
Qed.

(** Every capture of the scan is listed by [extractVariableNames]. *)
Lemma extractVariableNames_holes (template body : string) :
  In (Hole body) (scan template) -> In (trim body) (extractVariableNames template).
Proof. apply pushNew_holes. Qed.

Lemma replacer_unbound (P : Platform) (context : InterpolationContext) (mtch varName : string) :
  getVariable context (trim varName) = Data VUndefined ->
  replacer P context mtch varName = mtch.
Proof. unfold replacer. now intros ->. Qed.

Lemma interpolateString_unbound (P : Platform) (template : string) (context : InterpolationContext) :
  (forall name, In name (extractVariableNames template) ->
                getVariable context name = Data VUndefined) ->
  interpolateString P template context = template.
Proof.
  intros Hun. unfold interpolateString.
  rewrite <- (scan_raw template) at 2. f_equal.
  apply map_ext_in. intros [c|body] Hin; [reflexivity|].
  simpl. apply replacer_unbound, Hun. now apply extractVariableNames_holes.
Qed.

(** When a name reads as [undefined]. *)
Lemma getVariable_undefined (context : InterpolationContext) (name : string) :
  getVariable context name = Data VUndefined <->
  variables context !! name = Some VUndefined \/
  (variables context !! name = None /\ inherited name = false).
Proof.
  unfold getVariable. destruct (variables context !! name) as [v|].
  - split; [intros [= ->]; now left|]. intros [[= ->] | [? _]]; [reflexivity | discriminate].
  - destruct (inherited name); split; try discriminate.
    + intros [? | [_ ?]]; discriminate.
    + intros _. right. now split.
    + reflexivity.
Qed.

(** C9.  What interpolation leaves alone, and where it does not.  The
    callback returns the matched text for a placeholder whose trimmed name
    reads as [undefined]; so in any template each such placeholder is
    rendered as its own text [{{body}}], the segments of the scan gluing
    back to the template; a template all of whose placeholders read as
    [undefined] comes out unchanged, [interpolate("{{X}}", {})] being
    ["{{X}}"]; and interpolating the output once more changes nothing when
    none of the placeholders left in it resolves.  But a name reads as
    [undefined] only if, beside having no entry in the context, it is no
    member that objects inherit: the read [context.variables[name]] goes
    through the prototype chain, so in the empty context [{{constructor}}]
    is replaced by the text of a built-in function and [{{__proto__}}] by
    the JSON text of an empty object.  An unknown variable of such a name
    is not left unchanged. *)
Theorem interpolateString_unresolved (P : Platform) :
  interpolateString P "{{X}}" {| variables := ∅ |} = "{{X}}" /\
  (forall context mtch varName,
     getVariable context (trim varName) = Data VUndefined ->
     replacer P context mtch varName = mtch) /\
  (forall template context,
     interpolateString P template context =
       concat_strings (map (render P context) (scan template)) /\
     concat_strings (map raw (scan template)) = template /\
     forall body, In (Hole body) (scan template) ->
                  getVariable context (trim body) = Data VUndefined ->
                  render P context (Hole body) = "{{" ++ body ++ "}}") /\
  (forall template context,
     (forall name, In name (extractVariableNames template) ->
                   getVariable context name = Data VUndefined) ->
     interpolateString P template context = template) /\
  (forall template context,
     let output := interpolateString P template context in
     (forall name, In name (extractVariableNames output) ->
                   getVariable context name = Data VUndefined) ->
     interpolateString P output context = output) /\
  (forall context name,
     getVariable context name = Data VUndefined <->
     variables context !! name = Some VUndefined \/
     (variables context !! name = None /\ inherited name = false)) /\
  interpolateString P "{{constructor}}" {| variables := ∅ |} =
    Function_toString P "constructor" /\
  interpolateString P "{{toString}}" {| variables := ∅ |} =
    Function_toString P "toString" /\
  interpolateString P "{{__proto__}}" {| variables := ∅ |} =
    JSON_stringify P (JObject []).
Proof.
  split; [reflexivity|].
  split; [intros; now apply replacer_unbound|].
  split.
  { intros template context. split; [reflexivity|]. split; [apply scan_raw|].
    intros body _ Hun. simpl. now apply replacer_unbound. }
  split; [intros; now apply interpolateString_unbound|].
  split; [intros template context output; apply interpolateString_unbound|].
  split; [apply getVariable_undefined|].
  unfold interpolateString. cbn. rewrite !append_empty_r. repeat split.
Qed.

(** A resolved placeholder is replaced, an unresolved one next to it stays. *)
Example interpolate_mixed (P : Platform) :
  interpolateString P "{{ A }}/{{B}}" {| variables := {[ "A" := VString "x" ]} |} = "x/{{B}}".
Proof. reflexivity. Qed.

(** A value that itself holds a placeholder: a second pass goes on. *)
Example interpolate_twice (P : Platform) :
  let context := {| variables := {[ "A" := VString "{{B}}"; "B" := VNumber "1" ]} |} in
  interpolateString P "{{A}}" context = "{{B}}" /\
  interpolateString P (interpolateString P "{{A}}" context) context = "1".
Proof. split; reflexivity. Qed.

End InterpolationFacts.

(** ** Encodings: what the query of a GET relies on *)

Module EncodingFacts.
Import Encoding InterpolationFacts.

Lemma free_of_app (sep : ascii) (a b : string) :
  free_of sep (a ++ b) = free_of sep a && free_of sep b.
Proof.
  induction a as [|c a IH]; [reflexivity|].
  rewrite append_cons. simpl. rewrite IH. now rewrite andb_assoc.
Qed.

Lemma encode_unit_free (c : ascii) : free_of "=" (encode_unit c) = true.
Proof. destruct c as [[] [] [] [] [] [] [] []]; reflexivity. Qed.

Lemma encodeURIComponent_free (s : string) : free_of "=" (encodeURIComponent s) = true.
Proof.
  induction s as [|c s IH]; [reflexivity|].
  simpl. now rewrite free_of_app, encode_unit_free, IH.
Qed.

Lemma split_on_free (sep : ascii) (s : string) :
  free_of sep s = true -> split_on sep s = [s].
Proof.
  induction s as [|c s IH]; [reflexivity|].
  simpl. intros H. apply andb_true_iff in H as [Hc Hs].
  apply negb_true_iff in Hc. rewrite Hc, (IH Hs). reflexivity.
Qed.

(** [(a + "=" + b).split("=")] is [[a, b]] when neither has an ["="]. *)
Lemma split_on_pair (sep : ascii) (a b : string) :
  free_of sep a = true -> free_of sep b = true ->
  split_on sep (a ++ String sep b) = [a; b].
Proof.
  intros Ha Hb. induction a as [|c a IH].
  - rewrite append_empty. simpl. rewrite Ascii.eqb_refl.
    now rewrite (split_on_free _ _ Hb).
  - rewrite append_cons. simpl in *. apply andb_true_iff in Ha as [Hc Ha].
    apply negb_true_iff in Hc. rewrite Hc, (IH Ha). reflexivity.
Qed.

Lemma decode_encode_unit (c : ascii) (rest : string) :
  decodeURIComponent (encode_unit c ++ rest) =
  option_map (String c) (decodeURIComponent rest).
Proof. destruct c as [[] [] [] [] [] [] [] []]; reflexivity. Qed.

(** [decodeURIComponent(encodeURIComponent(s))] is [s]. *)
Lemma decode_encode (s : string) :
  decodeURIComponent (encodeURIComponent s) = Some s.
Proof.
  induction s as [|c s IH]; [reflexivity|].
  simpl. now rewrite decode_encode_unit, IH.
Qed.

End EncodingFacts.

(** ** The request executor: results *)

Module RequestFacts.
Import Interpolation InterpolationStructs Encoding Request.
Local Open Scope js_scope.

Section WithPlatform.
Context (P : Platform) (N : Network).

(** The record the [catch] clause builds. *)
Lemma failureResult_returns (startTime : Z) (e : Thrown) (w : World) :
  failureResult startTime e w =
  (inr {| response := JNull;
          rr_headers := [];
          stats := Some {| status := 0; statusText := "Error";
                           duration := perf_now w - startTime;
                           size := 0; timestamp := date_now w |};
          error := Some match e with
                        | ThrownError message => message
                        | ThrownOther => "Unknown error"
                        end |}, w).
Proof. reflexivity. Qed.

(** [executeRequest] is its [try] block, with every throw handed to the
    [catch] clause. *)
Lemma executeRequest_unfold (options : RequestOptions) (w : World) :
  executeRequest P N options w =
  match bind (sendRequest P N options) (readResponse P (perf_now w)) w with
  | (inr r, w') => (inr r, w')
  | (inl (Threw e), w') => failureResult (perf_now w) e w'
  | (inl end_, w') => (inl end_, w')
  end.
Proof. reflexivity. Qed.

Lemma readResponse_cases (startTime : Z) (resp : Response) (w : World) :
  match resp_text resp with
  | inl (BodyRejects e) => readResponse P startTime resp w = (inl (Threw e), w)
  | inl BodyStalls => readResponse P startTime resp w = (inl Pending, w)
  | inr text =>
      readResponse P startTime resp w =
      (inr {| response := match JSON_parse P text with
                          | inr j => j
                          | inl _ => parseFailure
                          end;
              rr_headers := resp_headers resp;
              stats := Some {| status := resp_status resp;
                               statusText := resp_statusText resp;
                               duration := perf_now w - startTime;
                               size := utf8_length text;
                               timestamp := date_now w |};
              error := None |}, w)
  end.
Proof.
  unfold readResponse, bind, performance_now, Date_now, await_body, ret, throw, pending.
  destruct (resp_text resp) as [[e|]|text]; reflexivity.
Qed.



Lemma pure_ret {A} (a : A) : pure (ret a).
Proof. intros w. reflexivity. Qed.

Lemma pure_throw {A} (e : Thrown) : pure (@throw A e).
Proof. intros w. reflexivity. Qed.

Lemma pure_unmodelled {A} : pure (@unmodelled A).
Proof. intros w. reflexivity. Qed.

Lemma pure_bind {A B} (m : M A) (k : A -> M B) :
  pure m -> (forall a, pure (k a)) -> pure (bind m k).
Proof.
  intros Hm Hk w. unfold bind. specialize (Hm w).
  destruct (m w) as [[e | a] w1]; simpl in *; subst; [reflexivity | apply Hk].
Qed.

Lemma pure_setProperty (current : JSON) (name : string) (value : JSON) :
  pure (setProperty P current name value).
Proof.
  destruct current; simpl; try apply pure_throw.
  - destruct (parse_index name) as [i|].
    + destruct (i <=? length items)%nat; [apply pure_ret | apply pure_unmodelled].
    + destruct (String.eqb name "length"); [|apply pure_unmodelled].
      destruct value; first [apply pure_ret | apply pure_unmodelled].
  - destruct (field_lookup name fields); [apply pure_ret|].
    destruct (String.eqb name "__proto__"); [|apply pure_ret].
    destruct value; first [apply pure_ret | apply pure_unmodelled].
Qed.

(** One turn of the loop of [setNestedValue]. *)
Lemma setNestedFrom_step (part : string) (rest : list string) (value current : JSON) :
  rest <> [] ->
  setNestedFrom P (part :: rest) value current =
  match current with
  | JObject fields =>
      match field_lookup part fields with
      | Some child =>
          bind (setNestedFrom P rest value child)
               (fun child' => ret (JObject (field_assign part child' fields)))
      | None =>
          if inherited part then unmodelled
          else bind (setNestedFrom P rest value (JObject []))
                    (fun child' => ret (JObject (field_insert part child' fields)))
      end
  | JArray items =>
      match parse_index part with
      | Some i =>
          if (i <? length items)%nat then
            bind (setNestedFrom P rest value (nth i items JNull))
                 (fun child' => ret (JArray (item_assign i child' items)))
          else if (i =? length items)%nat then
            bind (setNestedFrom P rest value (JObject []))
                 (fun child' => ret (JArray (items ++ [child'])%list))
          else unmodelled
      | None =>
          if String.eqb part "length" then throw (ThrownError (TypeError_message P))
          else unmodelled
      end
  | _ => throw (ThrownError (TypeError_message P))
  end.
Proof. destruct rest; [congruence | reflexivity]. Qed.

Lemma pure_setNestedFrom (parts : list string) (value current : JSON) :
  pure (setNestedFrom P parts value current).
Proof.
  revert current. induction parts as [|part rest IH]; intros current.
  - apply pure_ret.
  - destruct rest as [|part' rest'].
    + apply pure_setProperty.
    + rewrite setNestedFrom_step by discriminate.
      destruct current; try apply pure_throw.
      * destruct (parse_index part) as [i|].
        -- destruct (i <? length items)%nat;
             [apply pure_bind; [apply IH | intros; apply pure_ret]|].
           destruct (i =? length items)%nat; [|apply pure_unmodelled].
           apply pure_bind; [apply IH | intros; apply pure_ret].
        -- destruct (String.eqb part "length"); [apply pure_throw | apply pure_unmodelled].
      * destruct (field_lookup part fields).
        -- apply pure_bind; [apply IH | intros; apply pure_ret].
        -- destruct (inherited part); [apply pure_unmodelled|].
           apply pure_bind; [apply IH | intros; apply pure_ret].
Qed.

Lemma pure_collectFiles (mappings : list FileMapping) (fileList : list File)
    (map : list (string * JSON)) (parsedVariables : JSON) :
  pure (collectFiles P mappings fileList map parsedVariables).
Proof.
  revert fileList map parsedVariables.
  induction mappings as [|m ms IH]; intros fl mp pv; simpl.
  - apply pure_ret.
  - destruct (file m); [|apply IH].
    apply pure_bind; [apply pure_setNestedFrom | intros; apply IH].
Qed.

(** The files that reach the form are the bound ones, in mapping order. *)
Lemma collectFiles_files (mappings : list FileMapping) (fileList fileList' : list File)
    (map map' : list (string * JSON)) (pv pv' : JSON) (w w' : World) :
  collectFiles P mappings fileList map pv w = (inr (fileList', map', pv'), w') ->
  fileList' = (fileList ++ boundFiles mappings)%list.
Proof.
  revert fileList map pv w.
  induction mappings as [|m ms IH]; intros fl mp pv0 w0; simpl.
  - intros [= <- _ _ _]. unfold boundFiles. simpl. now rewrite app_nil_r.
  - unfold boundFiles. simpl. destruct (file m) as [f|].
    + unfold bind.
      destruct (setNestedValue P pv0 (variablePath m) JNull w0) as [[e | pv1] w1];
        [discriminate|].
      intros H. apply IH in H. rewrite H. unfold boundFiles.
      now rewrite <- app_assoc.
    + apply IH.
Qed.

Lemma settles_ret {A} (a : A) : settles (ret a).
Proof. intros w. discriminate. Qed.

Lemma settles_throw {A} (e : Thrown) : settles (@throw A e).
Proof. intros w. discriminate. Qed.

Lemma settles_unmodelled {A} : settles (@unmodelled A).
Proof. intros w. discriminate. Qed.

Lemma settles_bind {A B} (m : M A) (k : A -> M B) :
  settles m -> (forall a, settles (k a)) -> settles (bind m k).
Proof.
  intros Hm Hk w. unfold bind. specialize (Hm w).
  destruct (m w) as [[e | a] w1]; simpl in *; [congruence | apply Hk].
Qed.

Lemma settles_lift_error {A} (r : string + A) : settles (lift_error r).
Proof. destruct r; [apply settles_throw | apply settles_ret]. Qed.







Lemma settles_setProperty (current : JSON) (name : string) (value : JSON) :
  settles (setProperty P current name value).
Proof.
  destruct current; simpl; try apply settles_throw.
  - destruct (parse_index name) as [i|].
    + destruct (i <=? length items)%nat; [apply settles_ret | apply settles_unmodelled].
    + destruct (String.eqb name "length"); [|apply settles_unmodelled].
      destruct value; first [apply settles_ret | apply settles_unmodelled].
  - destruct (field_lookup name fields); [apply settles_ret|].
    destruct (String.eqb name "__proto__"); [|apply settles_ret].
    destruct value; first [apply settles_ret | apply settles_unmodelled].
Qed.

Lemma settles_setNestedFrom (parts : list string) (value current : JSON) :
  settles (setNestedFrom P parts value current).
Proof.
  revert current. induction parts as [|part rest IH]; intros current.
  - apply settles_ret.
  - destruct rest as [|part' rest'].
    + apply settles_setProperty.
    + rewrite setNestedFrom_step by discriminate.
      destruct current; try apply settles_throw.
      * destruct (parse_index part) as [i|].
        -- destruct (i <? length items)%nat;
             [apply settles_bind; [apply IH | intros; apply settles_ret]|].
           destruct (i =? length items)%nat; [|apply settles_unmodelled].
           apply settles_bind; [apply IH | intros; apply settles_ret].
        -- destruct (String.eqb part "length");
             [apply settles_throw | apply settles_unmodelled].
      * destruct (field_lookup part fields).
        -- apply settles_bind; [apply IH | intros; apply settles_ret].
        -- destruct (inherited part); [apply settles_unmodelled|].
           apply settles_bind; [apply IH | intros; apply settles_ret].
Qed.

Lemma settles_collectFiles (mappings : list FileMapping) (fileList : list File)
    (map : list (string * JSON)) (parsedVariables : JSON) :
  settles (collectFiles P mappings fileList map parsedVariables).
Proof.
  revert fileList map parsedVariables.
  induction mappings as [|m ms IH]; intros fl mp pv; simpl.
  - apply settles_ret.
  - destruct (file m); [|apply IH].
    apply settles_bind; [apply settles_setNestedFrom | intros; apply IH].
Qed.

(** C5.  When the interpolated endpoint is the empty string or is refused
    by [new URL], [executeRequest] returns at once: no call reaches the
    network (the world, with its list of calls, is the one it started in),
    [error] is ['Invalid endpoint URL'], [response] is [null], and the
    stats carry status 0, statusText ["Error"] and size 0. *)
Theorem executeRequest_invalid_endpoint (options : RequestOptions) (w : World) :
  let endpoint := interpolateString P (endpoint options) (context options) in
  endpoint = EmptyString \/ isValidUrl P endpoint = false ->
  executeRequest P N options w =
  (inr {| response := JNull;
          rr_headers := [];
          stats := Some {| status := 0; statusText := "Error"; duration := 0;
                           size := 0; timestamp := date_now w |};
          error := Some "Invalid endpoint URL" |}, w).
Proof.
  intros ep Hbad.
  assert (Hguard : negb (truthy ep) || negb (isValidUrl P ep) = true).
  { destruct Hbad as [-> | ->]; [reflexivity | apply orb_true_r]. }
  rewrite executeRequest_unfold. unfold bind, sendRequest. fold ep.
  rewrite Hguard. unfold throw. rewrite failureResult_returns.
  now rewrite Z.sub_diag.
Qed.

(** C4.  When the request is answered and the body text is refused by
    [JSON.parse], the result has a non-null [response] whose [errors] holds
    the single entry [{message: "Failed to parse response as JSON"}], a
    null [error], the headers of the response, and stats taken from the
    response: its status and statusText, the time until it arrived, the
    UTF-8 length of the body. *)
Theorem executeRequest_non_json_body
    (options : RequestOptions) (w w1 : World) (resp : Response) (text message : string) :
  sendRequest P N options w = (inr resp, w1) ->
  resp_text resp = inr text ->
  JSON_parse P text = inl message ->
  executeRequest P N options w =
  (inr {| response :=
            JObject [("errors",
                      JArray [JObject [("message",
                                        JString "Failed to parse response as JSON")]])];
          rr_headers := resp_headers resp;
          stats := Some {| status := resp_status resp;
                           statusText := resp_statusText resp;
                           duration := perf_now w1 - perf_now w;
                           size := utf8_length text;
                           timestamp := date_now w1 |};
          error := None |}, w1).
Proof.
  intros Hsend Htext Hparse.
  rewrite executeRequest_unfold. unfold bind. rewrite Hsend.
  pose proof (readResponse_cases (perf_now w) resp w1) as Hread.
  rewrite Htext in Hread. rewrite Hread, Hparse. reflexivity.
Qed.

(** Reading the response and building the failure record make no call. *)
Lemma executeRequest_fetched (options : RequestOptions) (w : World) :
  fetched (snd (executeRequest P N options w)) =
  fetched (snd (sendRequest P N options w)).
Proof.
  rewrite executeRequest_unfold. unfold bind.
  destruct (sendRequest P N options w) as [[[e| |] | resp] w1]; [reflexivity..|].
  pose proof (readResponse_cases (perf_now w) resp w1) as Hread.
  destruct (resp_text resp) as [[e|]|text]; rewrite Hread; reflexivity.
Qed.

Lemma fetch_fetched (call : FetchCall) (w : World) :
  fetched (snd (fetch N call w)) = (fetched w ++ [call])%list.
Proof. unfold fetch. destruct (net_fetch N call). reflexivity. Qed.

Lemma fetch_settles (call : FetchCall) (w : World) :
  (exists e, fst (fetch N call w) = inl (Threw e)) \/ exists resp, fst (fetch N call w) = inr resp.
Proof. unfold fetch. destruct (net_fetch N call) as [l [e|r]]; simpl; eauto. Qed.

(** *** The header map *)

Lemma truthy_nonempty (s : string) : truthy s = true <-> s <> EmptyString.
Proof. destruct s; simpl; split; congruence. Qed.

Lemma proxyName_inj (a b : string) : proxyName a = proxyName b -> a = b.
Proof. unfold proxyName. intros H. cbv [String.append] in H. congruence. Qed.

Lemma proxyName_not_target (a : string) : proxyName a <> "X-GraphIt-Target".
Proof. unfold proxyName. intros H. cbv [String.append] in H. discriminate. Qed.

Lemma proxyName_not_content_type (a : string) : proxyName a <> "Content-Type".
Proof. unfold proxyName. intros H. cbv [String.append] in H. discriminate. Qed.

Lemma proxyName_not_proto (a : string) : proxyName a <> "__proto__".
Proof. unfold proxyName. intros H. cbv [String.append] in H. discriminate. Qed.

Lemma wireName_proxy (h : Header) : wireName true h <> "__proto__".
Proof. apply proxyName_not_proto. Qed.

(** The name under which [addHeaders] files a header. *)
Lemma addHeaders_cons (useProxy : bool) (h : Header) (hs : list Header)
    (m : gmap string string) :
  addHeaders useProxy (h :: hs) m =
  addHeaders useProxy hs
    (if enabled h then writeOwn (wireName useProxy h) (h_value h) m else m).
Proof.
  simpl. unfold wireName. destruct (enabled h), useProxy; try reflexivity.
  now rewrite JsFacts.writeOwn_insert by apply proxyName_not_proto.
Qed.

(** An entry of the result comes from the map the loop started with, and
    then no enabled header has written under its name, or from an enabled
    header. *)
Lemma addHeaders_lookup_Some (useProxy : bool) (hs : list Header)
    (m : gmap string string) (name value : string) :
  addHeaders useProxy hs m !! name = Some value ->
  (m !! name = Some value /\
   (name = "__proto__" \/
    forall h, In h hs -> enabled h = true -> wireName useProxy h <> name)) \/
  (exists h, In h hs /\ enabled h = true /\ wireName useProxy h = name /\ h_value h = value).
Proof.
  revert m. induction hs as [|h hs IH]; intros m.
  - simpl. intros Hm. left. split; [exact Hm|]. right. intros h [].
  - rewrite addHeaders_cons. intros Hl.
    apply IH in Hl as [[Hm Hno] | (h' & Hin & Hen & Hk & Hv)].
    + destruct (enabled h) eqn:Een.
      * pose proof Hm as Hm0.
        apply JsFacts.writeOwn_lookup_Some in Hm as [[-> ->] | Hm].
        -- right. exists h. repeat split; auto. now left.
        -- destruct (decide (wireName useProxy h = name)) as [Heq | Hne].
           ++ destruct (decide (name = "__proto__")) as [Hp | Hp]; [left; auto|].
              right. exists h. repeat split; auto; [now left|].
              assert (Hx : writeOwn (wireName useProxy h) (h_value h) m !! name
                           = Some (h_value h)).
              { rewrite Heq. apply JsFacts.writeOwn_lookup_eq. exact Hp. }
              congruence.
           ++ left. split; [exact Hm|]. destruct Hno as [Hp | Hno]; [now left|].
              right. intros h0 [<- | Hin] Hen; auto.
      * left. split; [exact Hm|]. destruct Hno as [Hp | Hno]; [now left|].
        right. intros h0 [<- | Hin] Hen; [congruence | auto].
    + right. exists h'. repeat split; auto. now right.
Qed.

Lemma addHeaders_lookup_is_Some (useProxy : bool) (hs : list Header)
    (m : gmap string string) (name : string) :
  is_Some (m !! name) -> is_Some (addHeaders useProxy hs m !! name).
Proof.
  revert m. induction hs as [|h hs IH]; intros m Hm; [exact Hm|].
  rewrite addHeaders_cons. apply IH. destruct (enabled h); [|exact Hm].
  now apply JsFacts.writeOwn_lookup_is_Some.
Qed.

(** A name no enabled header goes under keeps what the map had. *)
Lemma addHeaders_lookup_other (useProxy : bool) (hs : list Header)
    (m : gmap string string) (name : string) :
  (forall h, In h hs -> enabled h = true -> wireName useProxy h <> name) ->
  addHeaders useProxy hs m !! name = m !! name.
Proof.
  revert m. induction hs as [|h hs IH]; intros m Hno; [reflexivity|].
  rewrite addHeaders_cons. rewrite IH by (intros h' Hin; apply Hno; now right).
  destruct (enabled h) eqn:Een; [|reflexivity].
  apply JsFacts.writeOwn_lookup_ne. apply Hno; [now left | exact Een].
Qed.

(** No header makes an entry named [__proto__]. *)
Lemma addHeaders_proto (useProxy : bool) (hs : list Header) (m : gmap string string) :
  m !! "__proto__" = None -> addHeaders useProxy hs m !! "__proto__" = None.
Proof.
  revert m. induction hs as [|h hs IH]; intros m Hm; [exact Hm|].
  rewrite addHeaders_cons. apply IH. destruct (enabled h); [|exact Hm].
  now apply JsFacts.writeOwn_proto.
Qed.

(** Every enabled header whose wire name is not [__proto__] is in the
    result under that name, with the value of an enabled header of that
    name. *)
Lemma addHeaders_enabled (useProxy : bool) (hs : list Header)
    (m : gmap string string) (h : Header) :
  In h hs -> enabled h = true -> wireName useProxy h <> "__proto__" ->
  exists h', In h' hs /\ enabled h' = true /\
             wireName useProxy h' = wireName useProxy h /\
             addHeaders useProxy hs m !! wireName useProxy h = Some (h_value h').
Proof.
  intros Hin Hen Hnp.
  assert (Hsome : is_Some (addHeaders useProxy hs m !! wireName useProxy h)).
  { revert m. induction hs as [|h0 hs IH]; intros m; [destruct Hin|].
    rewrite addHeaders_cons. destruct Hin as [-> | Hin]; [|now apply IH].
    apply addHeaders_lookup_is_Some. rewrite Hen.
    rewrite JsFacts.writeOwn_lookup_eq by exact Hnp. eauto. }
  destruct Hsome as [v Hv].
  destruct (addHeaders_lookup_Some _ _ _ _ _ Hv)
    as [[_ [Hp | Hno]] | (h' & Hin' & Hen' & Hk & Hval)].
  - contradiction.
  - exfalso. now apply (Hno h).
  - exists h'. rewrite Hv, Hval. auto.
Qed.

(** *** The query of a GET *)

Lemma count_name_sp_delete (name : string) (params : list (string * string)) :
  count_name name (sp_delete name params) = 0%nat.
Proof.
  unfold count_name, sp_delete. induction params as [|[k v] rest IH]; [reflexivity|].
  simpl. destruct (String.eqb k name) eqn:E; simpl; [exact IH|].
  now rewrite E.
Qed.

Lemma count_name_sp_delete_other (name other : string) (params : list (string * string)) :
  name <> other ->
  count_name name (sp_delete other params) = count_name name params.
Proof.
  intros Hne. unfold count_name, sp_delete.
  induction params as [|[k v] rest IH]; [reflexivity|].
  simpl. destruct (String.eqb k other) eqn:E; simpl.
  - apply String.eqb_eq in E. subst k.
    assert (String.eqb other name = false) as -> by (apply String.eqb_neq; congruence).
    exact IH.
  - destruct (String.eqb k name); simpl; now rewrite IH.
Qed.

(** After [set(name, _)] exactly one pair has the name. *)
Lemma count_name_sp_set (name value : string) (params : list (string * string)) :
  count_name name (sp_set name value params) = 1%nat.
Proof.
  induction params as [|[k v] rest IH].
  - unfold count_name. simpl. now rewrite String.eqb_refl.
  - simpl. destruct (String.eqb k name) eqn:E.
    + unfold count_name. simpl. rewrite E. simpl. f_equal.
      apply count_name_sp_delete.
    + unfold count_name in *. simpl. now rewrite E.
Qed.

(** [set] of another name leaves the count alone. *)
Lemma count_name_sp_set_other (name other value : string)
    (params : list (string * string)) :
  name <> other ->
  count_name name (sp_set other value params) = count_name name params.
Proof.
  intros Hne. induction params as [|[k v] rest IH].
  - unfold count_name. simpl.
    now assert (String.eqb other name = false) as -> by (apply String.eqb_neq; congruence).
  - simpl. destruct (String.eqb k other) eqn:E.
    + apply String.eqb_eq in E. subst k. unfold count_name. simpl.
      assert (String.eqb other name = false) as -> by (apply String.eqb_neq; congruence).
      apply count_name_sp_delete_other, Hne.
    + unfold count_name in *. simpl. destruct (String.eqb k name); simpl; now rewrite IH.
Qed.

Lemma In_sp_delete_other (name other value : string) (params : list (string * string)) :
  name <> other -> In (name, value) params -> In (name, value) (sp_delete other params).
Proof.
  intros Hne Hin. unfold sp_delete. apply filter_In. split; [exact Hin|].
  simpl. apply negb_true_iff, String.eqb_neq, Hne.
Qed.

Lemma In_sp_set (name value : string) (params : list (string * string)) :
  count_name name params = 0%nat -> In (name, value) (sp_set name value params).
Proof.
  induction params as [|[k v] rest IH]; intros Hc.
  - now left.
  - simpl. unfold count_name in Hc. simpl in Hc.
    destruct (String.eqb k name) eqn:E; [discriminate|]. right. apply IH, Hc.
Qed.

Lemma In_sp_set_other (name other value value' : string)
    (params : list (string * string)) :
  name <> other -> In (name, value) params ->
  In (name, value) (sp_set other value' params).
Proof.
  intros Hne. induction params as [|[k v] rest IH]; intros Hin; [destruct Hin|].
  simpl. destruct (String.eqb k other) eqn:E.
  - apply String.eqb_eq in E. subst k. destruct Hin as [[= -> ->] | Hin]; [congruence|].
    right. now apply In_sp_delete_other.
  - destruct Hin as [Hin | Hin]; [now left | right; auto].
Qed.

(** The query pair of an API key that goes in the query. *)
Lemma apiKeyParam_roundtrip (a : AuthConfig) :
  let param := buildApiKeyQueryParam a in
  (param = EmptyString /\
   forall k, mode a = ModeApiKey -> apiKey a = Some k -> addTo k = AddToQuery ->
             ak_key k = EmptyString \/ ak_value k = EmptyString) \/
  (exists k, mode a = ModeApiKey /\ apiKey a = Some k /\ addTo k = AddToQuery /\
             truthy param = true /\
             decodeURIComponent (nth 0 (split_on "=" param) "undefined") = Some (ak_key k) /\
             decodeURIComponent (nth 1 (split_on "=" param) "undefined") = Some (ak_value k) /\
             ak_key k <> EmptyString /\ ak_value k <> EmptyString).
Proof.
  unfold buildApiKeyQueryParam.
  destruct (mode a) eqn:Hm; try (left; split; [reflexivity | discriminate]).
  destruct (apiKey a) as [k|] eqn:Hk; [|left; split; [reflexivity | discriminate]].
  destruct (addTo k) eqn:Ha.
  - left. split; [reflexivity|]. intros k' _ [= <-]. congruence.
  - destruct (truthy (ak_key k)) eqn:Hkk; simpl.
    + destruct (truthy (ak_value k)) eqn:Hv; simpl.
      * right. exists k.
        split; [solve [auto]|]. split; [solve [auto]|]. split; [solve [auto]|].
        split; [|split; [|split; [|split]]].
        -- destruct (ak_key k) as [|c s]; [discriminate|]. simpl.
           destruct c as [[] [] [] [] [] [] [] []]; reflexivity.
        -- change ("=" ++ ?x) with (String "=" x).
           rewrite EncodingFacts.split_on_pair by apply EncodingFacts.encodeURIComponent_free.
           apply EncodingFacts.decode_encode.
        -- change ("=" ++ ?x) with (String "=" x).
           rewrite EncodingFacts.split_on_pair by apply EncodingFacts.encodeURIComponent_free.
           apply EncodingFacts.decode_encode.
        -- now apply truthy_nonempty.
        -- now apply truthy_nonempty.
      * left. split; [reflexivity|]. intros k' _ [= <-] _. right.
        now destruct (ak_value k).
    + left. split; [reflexivity|]. intros k' _ [= <-] _. left.
      now destruct (ak_key k).
Qed.

Lemma count_name_pos_sp_set (name other value : string) (params : list (string * string)) :
  (0 < count_name name params)%nat ->
  (0 < count_name name (sp_set other value params))%nat.
Proof.
  intros Hpos. destruct (String.eqb_spec name other) as [<- | Hne].
  - rewrite count_name_sp_set. apply Nat.lt_0_1.
  - now rewrite count_name_sp_set_other.
Qed.

Lemma URL_toString_query (prefix hash : string) (params : list (string * string)) :
  (0 < count_name "query" params)%nat ->
  URL_toString {| url_prefix := prefix; url_searchParams := params; url_hash := hash |} =
  prefix ++ "?" ++ join_with "&" (map encode_pair params) ++ hash.
Proof.
  intros Hpos. unfold URL_toString. simpl.
  destruct params as [|p ps]; [now apply Nat.lt_irrefl in Hpos|].
  unfold serialize_params. now rewrite InterpolationFacts.string_app_assoc.
Qed.

(** What the query-string GET sends: the endpoint's own query with
    [query], [variables], [operationName] and the API key written over
    it, in that order. *)
Lemma executeGetRequest_direct (endpoint : string) (options : RequestOptions)
    (headers : gmap string string) (timeout : Z) (w : World) (u : URL) :
  useProxy options = false ->
  URL_parse P endpoint = inr u ->
  let variables := interpolateString P (variables options) (context options) in
  let a := interpolateAuth P (auth options) (context options) in
  let p1 := sp_set "query" (query options) (url_searchParams u) in
  let p2 := if truthy variables && negb (String.eqb variables "{}")
            then sp_set "variables" variables p1 else p1 in
  let p3 := match operationName options with
            | Some n => if truthy n then sp_set "operationName" n p2 else p2
            | None => p2
            end in
  exists p4,
    ((p4 = p3 /\
      forall k, mode a = ModeApiKey -> apiKey a = Some k -> addTo k = AddToQuery ->
                ak_key k = EmptyString \/ ak_value k = EmptyString) \/
     exists k, mode a = ModeApiKey /\ apiKey a = Some k /\ addTo k = AddToQuery /\
               ak_key k <> EmptyString /\ ak_value k <> EmptyString /\
               p4 = sp_set (ak_key k) (ak_value k) p3) /\
    executeGetRequest P N endpoint options headers timeout w =
    fetch N {| fc_url := URL_toString {| url_prefix := url_prefix u;
                                         url_searchParams := p4;
                                         url_hash := url_hash u |};
               fc_method := "GET";
               fc_headers := delete "Content-Type" headers;
               fc_body := NoBody;
               fc_abortAfter := timeout |} w.
Proof.
  intros Hproxy Hparse variables a p1 p2 p3.
  unfold executeGetRequest. rewrite Hproxy, Hparse. fold variables. fold a.
  cbn [negb lift_error]. unfold bind at 1. unfold ret at 1.
  destruct (apiKeyParam_roundtrip a)
    as [[Hempty Hnokey] | (k & Hm & Hk & Ha & Ht & Hd0 & Hd1 & Hkk & Hkv)].
  - exists p3. split; [left; split; [reflexivity | exact Hnokey]|].
    rewrite Hempty. cbn [truthy].
    unfold bind, ret.
    destruct (operationName options) as [n|]; [destruct (truthy n)|];
      destruct (truthy variables && negb (String.eqb variables "{}")); reflexivity.
  - exists (sp_set (ak_key k) (ak_value k) p3).
    split; [right; exists k; repeat split; assumption|].
    rewrite Ht, Hd0, Hd1. unfold bind, ret.
    destruct (operationName options) as [n|]; [destruct (truthy n)|];
      destruct (truthy variables && negb (String.eqb variables "{}")); reflexivity.
Qed.

(** *** The claims on the header map *)

Lemma In_interpolateHeaders (hs : list Header) (context : InterpolationContext) (h' : Header) :
  In h' (interpolateHeaders P hs context) <->
  exists h, In h hs /\
            h' = {| h_id := h_id h;
                    h_key := interpolateString P (h_key h) context;
                    h_value := interpolateString P (h_value h) context;
                    enabled := enabled h |}.
Proof.
  unfold interpolateHeaders. rewrite in_map_iff. split.
  - intros (h & <- & Hin). eauto.
  - intros (h & Hin & ->). eauto.
Qed.

(** The derived auth header, from the credentials as they are given. *)
Lemma buildAuthHeader_interpolated (auth : AuthConfig) (context : InterpolationContext)
    (key value : string) :
  let text := fun s => interpolateString P s context in
  buildAuthHeader (interpolateAuth P auth context) = Some (key, value) <->
  (mode auth = ModeBearer /\
   exists b, bearer auth = Some b /\ text (token b) <> EmptyString /\
             key = "Authorization" /\ value = "Bearer " ++ text (token b)) \/
  (mode auth = ModeBasic /\
   exists b, basic auth = Some b /\
             text (username b) <> EmptyString /\ text (password b) <> EmptyString /\
             key = "Authorization" /\
             value = "Basic " ++ btoa (text (username b) ++ ":" ++ text (password b))) \/
  (mode auth = ModeApiKey /\
   exists k, apiKey auth = Some k /\
             text (ak_key k) <> EmptyString /\ text (ak_value k) <> EmptyString /\
             addTo k = AddToHeader /\ key = text (ak_key k) /\ value = text (ak_value k)).
Proof.
  intros text. unfold buildAuthHeader, interpolateAuth. cbn [mode bearer basic apiKey].
  destruct (mode auth) eqn:Hmode.
  - split; [discriminate|]. intros [[? _] | [[? _] | [? _]]]; discriminate.
  - destruct (bearer auth) as [b|] eqn:Hb; cbn [token].
    + fold (text (token b)). destruct (truthy (text (token b))) eqn:Ht.
      * split.
        -- intros [= <- <-]. left. split; [reflexivity|].
           exists b. repeat split. now apply truthy_nonempty.
        -- intros [[_ (b' & [= <-] & _ & -> & ->)] | [[? _] | [? _]]];
             [reflexivity | discriminate | discriminate].
      * split; [discriminate|].
        intros [[_ (b' & [= <-] & Hne & _)] | [[? _] | [? _]]];
          [|discriminate|discriminate].
        apply truthy_nonempty in Hne. congruence.
    + split; [discriminate|].
      intros [[_ (b' & ? & _)] | [[? _] | [? _]]]; discriminate.
  - destruct (basic auth) as [b|] eqn:Hb; cbn [username password].
    + fold (text (username b)) (text (password b)).
      destruct (truthy (text (username b)) && truthy (text (password b))) eqn:Ht.
      * apply andb_true_iff in Ht as [Hu Hp]. split.
        -- intros [= <- <-]. right; left. split; [reflexivity|].
           exists b. repeat split; now apply truthy_nonempty.
        -- intros [[? _] | [[_ (b' & [= <-] & _ & _ & -> & ->)] | [? _]]];
             [discriminate | reflexivity | discriminate].
      * split; [discriminate|].
        intros [[? _] | [[_ (b' & [= <-] & Hu & Hp & _)] | [? _]]];
          [discriminate| |discriminate].
        apply truthy_nonempty in Hu, Hp. rewrite Hu, Hp in Ht. discriminate.
    + split; [discriminate|].
      intros [[? _] | [[_ (b' & ? & _)] | [? _]]]; discriminate.
  - destruct (apiKey auth) as [k|] eqn:Hk; cbn [ak_key ak_value addTo].
    + fold (text (ak_key k)) (text (ak_value k)).
      destruct (truthy (text (ak_key k)) && truthy (text (ak_value k))
                && match addTo k with AddToHeader => true | AddToQuery => false end) eqn:Ht.
      * apply andb_true_iff in Ht as [Ht Ha]. apply andb_true_iff in Ht as [Hkk Hv].
        split.
        -- intros [= <- <-]. right; right. split; [reflexivity|].
           exists k. repeat split; try now apply truthy_nonempty.
           now destruct (addTo k).
        -- intros [[? _] | [[? _] | [_ (k' & [= <-] & _ & _ & _ & -> & ->)]]];
             [discriminate | discriminate | reflexivity].
      * split; [discriminate|].
        intros [[? _] | [[? _] | [_ (k' & [= <-] & Hkk & Hv & Ha & _)]]];
          [discriminate|discriminate|].
        apply truthy_nonempty in Hkk, Hv. rewrite Hkk, Hv, Ha in Ht. discriminate.
    + split; [discriminate|].
      intros [[? _] | [[? _] | [_ (k' & ? & _)]]]; discriminate.
Qed.

(** The header map in proxy mode, from the interpolated headers. *)
Lemma buildHeaders_proxy_map (headers : list Header) (auth : AuthConfig)
    (context : InterpolationContext) (target : string) :
  let hs := interpolateHeaders P headers context in
  let authHeader := buildAuthHeader (interpolateAuth P auth context) in
  let result := buildHeaders P headers auth context true target in
  result !! "X-GraphIt-Target" = Some target /\
  (forall h, In h hs -> enabled h = true ->
     exists value,
       result !! proxyName (h_key h) = Some value /\
       ((exists h', In h' hs /\ enabled h' = true /\ h_key h' = h_key h /\ h_value h' = value)
        \/ authHeader = Some (h_key h, value))) /\
  (forall key value, authHeader = Some (key, value) ->
     result !! proxyName key = Some value) /\
  (forall name value, result !! name = Some value ->
     name = "Content-Type" \/ name = "X-GraphIt-Target" \/
     exists key, name = proxyName key /\
       ((exists h, In h hs /\ enabled h = true /\ h_key h = key)
        \/ exists value', authHeader = Some (key, value'))).
Proof.
  intros hs authHeader result.
  subst result. unfold buildHeaders. fold hs. fold authHeader.
  set (base := addHeaders true hs _).
  repeat split.
  - apply lookup_insert_eq.
  - intros h Hin Hen.
    rewrite lookup_insert_ne by (apply not_eq_sym, proxyName_not_target).
    destruct (addHeaders_enabled true hs {[ "Content-Type" := "application/json" ]} h Hin Hen
                (wireName_proxy h))
      as (h' & Hin' & Hen' & Hk & Hv).
    simpl in Hk, Hv. apply proxyName_inj in Hk. fold base in Hv.
    destruct authHeader as [[key value]|].
    + destruct (decide (key = h_key h)) as [-> | Hne].
      * exists value. rewrite lookup_insert_eq. split; [reflexivity | now right].
      * exists (h_value h'). rewrite lookup_insert_ne.
        -- split; [exact Hv|]. left. exists h'. auto.
        -- intros Heq. now apply proxyName_inj in Heq.
    + exists (h_value h'). split; [exact Hv|]. left. exists h'. auto.
  - intros key value ->.
    rewrite lookup_insert_ne by (apply not_eq_sym, proxyName_not_target).
    apply lookup_insert_eq.
  - intros name value Hl.
    destruct (decide (name = "X-GraphIt-Target")) as [-> | Hnt]; [now right; left|].
    rewrite lookup_insert_ne in Hl by congruence.
    assert (Hbase : base !! name = Some value ->
                    name = "Content-Type" \/
                    exists key, name = proxyName key /\
                                exists h, In h hs /\ enabled h = true /\ h_key h = key).
    { intros Hb. apply addHeaders_lookup_Some in Hb
        as [[Hm _] | (h & Hin & Hen & Hk & _)].
      - left. apply lookup_singleton_Some in Hm as [<- _]. reflexivity.
      - right. exists (h_key h). split; [now rewrite <- Hk | eauto]. }
    destruct authHeader as [[key value']|].
    + destruct (decide (proxyName key = name)) as [<- | Hne].
      * right; right. exists key. split; [reflexivity|]. right. eauto.
      * rewrite lookup_insert_ne in Hl by exact Hne.
        destruct (Hbase Hl) as [-> | (k & -> & Hh)]; [now left|].
        right; right. exists k. split; [reflexivity | now left].
    + destruct (Hbase Hl) as [-> | (k & -> & Hh)]; [now left|].
      right; right. exists k. split; [reflexivity | now left].
Qed.

(** C7.  In proxy mode the header map [executeRequest] builds holds
    ['X-GraphIt-Target'], set to the interpolated endpoint; every enabled
    header of the options is in it under ['X-GraphIt-Header-<name>'],
    [<name>] being its interpolated key, with the interpolated value of an
    enabled header of that name (a name given twice keeps one value) or
    with the value of the auth header of that name; the derived auth header
    is in it under ['X-GraphIt-Header-<name>'] as well, a bearer token going
    as [X-GraphIt-Header-Authorization: Bearer <interpolated token>]; and
    nothing is in it under another name, the initial ['Content-Type']
    apart. *)
Theorem buildHeaders_proxy (options : RequestOptions) :
  useProxy options = true ->
  let text := fun s => interpolateString P s (context options) in
  let target := text (endpoint options) in
  let authHeader := buildAuthHeader (interpolateAuth P (auth options) (context options)) in
  let result := buildHeaders P (headers options) (auth options) (context options)
                             (useProxy options) target in
  result !! "X-GraphIt-Target" = Some target /\
  (forall h, In h (headers options) -> enabled h = true ->
     exists value,
       result !! ("X-GraphIt-Header-" ++ text (h_key h)) = Some value /\
       ((exists h', In h' (headers options) /\ enabled h' = true /\
                    text (h_key h') = text (h_key h) /\ value = text (h_value h'))
        \/ authHeader = Some (text (h_key h), value))) /\
  (forall key value, authHeader = Some (key, value) ->
     result !! ("X-GraphIt-Header-" ++ key) = Some value) /\
  (forall b, mode (auth options) = ModeBearer -> bearer (auth options) = Some b ->
     text (token b) <> EmptyString ->
     result !! "X-GraphIt-Header-Authorization" = Some ("Bearer " ++ text (token b))) /\
  (forall name value, result !! name = Some value ->
     name = "Content-Type" \/ name = "X-GraphIt-Target" \/
     exists key, name = "X-GraphIt-Header-" ++ key /\
       ((exists h, In h (headers options) /\ enabled h = true /\ text (h_key h) = key)
        \/ exists value', authHeader = Some (key, value'))).
Proof.
  intros Hproxy text target authHeader result. subst result. rewrite Hproxy.
  destruct (buildHeaders_proxy_map (headers options) (auth options) (context options) target)
    as (Htarget & Hheaders & Hauth & Honly).
  fold authHeader in Hheaders, Hauth, Honly.
  change (String.append "X-GraphIt-Header-") with proxyName.
  split; [exact Htarget|]. split; [|split; [exact Hauth|split]].
  - intros h Hin Hen.
    destruct (Hheaders {| h_id := h_id h; h_key := text (h_key h);
                          h_value := text (h_value h); enabled := enabled h |})
      as (value & Hl & Hfrom).
    { apply In_interpolateHeaders. eauto. }
    { exact Hen. }
    exists value. split; [exact Hl|].
    destruct Hfrom as [(h' & Hin' & Hen' & Hk & Hv) | Ha]; [left | now right].
    apply In_interpolateHeaders in Hin' as (h0 & Hin0 & ->).
    exists h0. simpl in *. auto.
  - intros b Hmode Hb Hne. apply Hauth. subst authHeader.
    apply buildAuthHeader_interpolated. left. split; [exact Hmode|].
    exists b. auto.
  - intros name value Hl.
    destruct (Honly name value Hl) as [-> | [-> | (key & -> & Hfrom)]]; auto.
    right; right. exists key. split; [reflexivity|].
    destruct Hfrom as [(h' & Hin' & Hen' & Hk) | Ha]; [left | now right].
    apply In_interpolateHeaders in Hin' as (h0 & Hin0 & ->).
    exists h0. simpl in *. auto.
Qed.

(** C10.  The derived auth header follows the credentials as they are
    after interpolation.  [buildAuthHeader], applied to the interpolated
    auth, gives a header exactly in three cases: bearer mode, the token
    interpolating to a non-empty text ([Authorization: Bearer <text>]);
    basic mode, the username and the password both interpolating to
    non-empty texts ([Authorization: Basic <base64>]); api-key mode, the
    key and the value interpolating to non-empty texts and [addTo] being
    ['header'] (those two texts).  When it gives a header, the header map
    of [executeRequest] has it, under its name or in proxy mode under
    ['X-GraphIt-Header-<name>'] (an api key named [__proto__] makes no
    entry without the proxy); when it gives [null], the header map is the
    one built from the headers alone. *)
Theorem buildAuthHeader_credentials (auth : AuthConfig) (context : InterpolationContext) :
  let text := fun s => interpolateString P s context in
  let a := interpolateAuth P auth context in
  (forall key value,
     buildAuthHeader a = Some (key, value) <->
     (mode auth = ModeBearer /\
      exists b, bearer auth = Some b /\ text (token b) <> EmptyString /\
                key = "Authorization" /\ value = "Bearer " ++ text (token b)) \/
     (mode auth = ModeBasic /\
      exists b, basic auth = Some b /\
                text (username b) <> EmptyString /\ text (password b) <> EmptyString /\
                key = "Authorization" /\
                value = "Basic " ++ btoa (text (username b) ++ ":" ++ text (password b))) \/
     (mode auth = ModeApiKey /\
      exists k, apiKey auth = Some k /\
                text (ak_key k) <> EmptyString /\ text (ak_value k) <> EmptyString /\
                addTo k = AddToHeader /\ key = text (ak_key k) /\ value = text (ak_value k))) /\
  (forall key value headers useProxy target,
     buildAuthHeader a = Some (key, value) ->
     useProxy = true \/ key <> "__proto__" ->
     buildHeaders P headers auth context useProxy target
       !! (if useProxy then "X-GraphIt-Header-" ++ key else key) = Some value) /\
  (buildAuthHeader a = None ->
   forall headers useProxy target,
     buildHeaders P headers auth context useProxy target =
     let result := addHeaders useProxy (interpolateHeaders P headers context)
                              {[ "Content-Type" := "application/json" ]} in
     if useProxy then <["X-GraphIt-Target" := target]> result else result).
Proof.
  intros text a. split; [|split].
  - intros key value. apply buildAuthHeader_interpolated.
  - intros key value headers useProxy target Hsome Hok.
    unfold buildHeaders. fold a. rewrite Hsome. destruct useProxy.
    + change (String.append "X-GraphIt-Header-") with proxyName.
      rewrite lookup_insert_ne by (apply not_eq_sym, proxyName_not_target).
      apply lookup_insert_eq.
    + destruct Hok as [? | Hne]; [discriminate|].
      now apply JsFacts.writeOwn_lookup_eq.
  - intros Hnone headers useProxy target. unfold buildHeaders.
    fold a. rewrite Hnone. reflexivity.
Qed.

(** C8, as the code has it.  For a non-proxy GET to a valid endpoint, the
    query of the URL that is fetched has exactly one [variables] pair
    whenever the interpolated variables text is neither empty nor ["{}"];
    its value is that text, written form-urlencoded as
    [variables=<encoded text>], unless an API key that goes in the query is
    itself named [variables] and takes the place.  When the text is empty
    or ["{}"] nothing is written for it, and the query has no [variables]
    pair exactly when the endpoint URL has none of its own and no such API
    key is named [variables]. *)
Theorem executeRequest_get_variables
    (options : RequestOptions) (w : World) (u : URL) :
  httpMethod options = GET ->
  useProxy options = false ->
  let endpoint := interpolateString P (endpoint options) (context options) in
  let variables := interpolateString P (variables options) (context options) in
  endpoint <> EmptyString ->
  URL_parse P endpoint = inr u ->
  let keyed :=
    exists k, mode (auth options) = ModeApiKey /\ apiKey (auth options) = Some k /\
              addTo k = AddToQuery /\
              interpolateString P (ak_key k) (context options) = "variables" /\
              interpolateString P (ak_value k) (context options) <> EmptyString in
  exists params headers,
    fetched (snd (executeRequest P N options w)) =
    (fetched w ++
     [{| fc_url := url_prefix u ++ "?" ++ join_with "&" (map encode_pair params)
                   ++ url_hash u;
         fc_method := "GET";
         fc_headers := headers;
         fc_body := NoBody;
         fc_abortAfter := timeout options |}])%list /\
    (variables <> EmptyString -> variables <> "{}" ->
     count_name "variables" params = 1%nat /\
     (~ keyed ->
      In ("variables", variables) params /\
      In ("variables=" ++ form_encode variables) (map encode_pair params))) /\
    (variables = EmptyString \/ variables = "{}" ->
     (count_name "variables" params = 0%nat <->
      count_name "variables" (url_searchParams u) = 0%nat /\ ~ keyed)).
Proof.
  intros Hget Hproxy ep variables Hne Hparse keyed.
  rewrite executeRequest_fetched. unfold sendRequest. fold ep.
  assert (Hguard : negb (truthy ep) || negb (isValidUrl P ep) = false).
  { unfold isValidUrl. rewrite Hparse. apply truthy_nonempty in Hne. now rewrite Hne. }
  rewrite Hguard. unfold selectEncoding. rewrite Hget.
  destruct (executeGetRequest_direct ep options
              (buildHeaders P (headers options) (auth options) (context options)
                            (useProxy options) ep)
              (timeout options) w u Hproxy Hparse) as (p4 & Hp4 & Hrun).
  rewrite Hrun, fetch_fetched. fold variables in Hp4.
  set (a := interpolateAuth P (auth options) (context options)) in Hp4.
  set (p1 := sp_set "query" (query options) (url_searchParams u)) in Hp4.
  set (p2 := if truthy variables && negb (String.eqb variables "{}")
             then sp_set "variables" variables p1 else p1) in Hp4.
  set (p3 := match operationName options with
             | Some n => if truthy n then sp_set "operationName" n p2 else p2
             | None => p2
             end) in Hp4.
  (* the API key of the interpolated auth, in terms of the one given *)
  assert (Hkeyed : forall k', mode a = ModeApiKey -> apiKey a = Some k' ->
                     exists k, apiKey (auth options) = Some k /\
                               mode (auth options) = ModeApiKey /\
                               ak_key k' = interpolateString P (ak_key k) (context options) /\
                               ak_value k' = interpolateString P (ak_value k) (context options) /\ addTo k' = addTo k).
  { intros k' Hm Hk. subst a. unfold interpolateAuth in Hm, Hk. simpl in Hm, Hk.
    destruct (apiKey (auth options)) as [k|]; [|discriminate].
    injection Hk as <-. exists k. auto. }
  assert (Hkeyed' : forall k, mode (auth options) = ModeApiKey ->
                      apiKey (auth options) = Some k ->
                      mode a = ModeApiKey /\
                      apiKey a = Some {| ak_key := interpolateString P (ak_key k) (context options);
                                         ak_value := interpolateString P (ak_value k) (context options);
                                         addTo := addTo k |}).
  { intros k Hm Hk. subst a. unfold interpolateAuth. simpl. now rewrite Hk. }
  assert (Hq1 : (0 < count_name "query" p1)%nat).
  { subst p1. rewrite count_name_sp_set. apply Nat.lt_0_1. }
  assert (Hv1 : count_name "variables" p1 = count_name "variables" (url_searchParams u)).
  { subst p1. now rewrite count_name_sp_set_other. }
  assert (Hq2 : (0 < count_name "query" p2)%nat).
  { subst p2. destruct (_ && _); [now apply count_name_pos_sp_set | exact Hq1]. }
  assert (Hq3 : (0 < count_name "query" p3)%nat).
  { subst p3. destruct (operationName options) as [n|]; [destruct (truthy n)|]; auto.
    now apply count_name_pos_sp_set. }
  assert (Hv3 : count_name "variables" p3 = count_name "variables" p2 /\
                (In ("variables", variables) p2 -> In ("variables", variables) p3)).
  { subst p3. destruct (operationName options) as [n|]; [destruct (truthy n)|]; auto.
    split; [now apply count_name_sp_set_other | now apply In_sp_set_other]. }
  destruct Hv3 as [Hv3 Hin3].
  assert (Hq4 : (0 < count_name "query" p4)%nat).
  { destruct Hp4 as [[-> _] | (k & _ & _ & _ & _ & _ & ->)]; [exact Hq3|].
    now apply count_name_pos_sp_set. }
  exists p4, (delete "Content-Type"
                (buildHeaders P (headers options) (auth options) (context options)
                              (useProxy options) ep)).
  split; [now rewrite URL_toString_query|].
  split.
  - (* a text that is written *)
    intros Hne1 Hne2.
    assert (Hinc : truthy variables && negb (String.eqb variables "{}") = true).
    { apply andb_true_iff. split; [now apply truthy_nonempty|].
      apply negb_true_iff. now apply String.eqb_neq. }
    assert (Hc2 : count_name "variables" p2 = 1%nat).
    { subst p2. rewrite Hinc. apply count_name_sp_set. }
    assert (Hin2 : In ("variables", variables) p2).
    { subst p2. rewrite Hinc. clear. induction p1 as [|[k v] rest IH]; [now left|].
      simpl. destruct (String.eqb_spec k "variables") as [-> | _]; [now left | now right]. }
    destruct Hp4 as [[-> _] | (k' & Hm & Hk & Ha & Hkk & Hkv & ->)].
    + split; [congruence|]. intros _.
      assert (Hin : In ("variables", variables) p3) by auto.
      split; [exact Hin|]. now apply (in_map encode_pair) in Hin.
    + destruct (String.eqb_spec "variables" (ak_key k')) as [Heq | Hneq].
      * split; [rewrite <- Heq; apply count_name_sp_set|].
        intros Hnot. exfalso. apply Hnot.
        destruct (Hkeyed k' Hm Hk) as (k & Hk0 & Hm0 & Hkey & Hval & Hadd).
        exists k. repeat split; auto; congruence.
      * split; [rewrite count_name_sp_set_other by exact Hneq; congruence|].
        intros _.
        assert (Hin : In ("variables", variables) (sp_set (ak_key k') (ak_value k') p3)).
        { apply In_sp_set_other; auto. }
        split; [exact Hin|]. now apply (in_map encode_pair) in Hin.
  - (* a text that is not written *)
    intros Hempty.
    assert (Hinc : truthy variables && negb (String.eqb variables "{}") = false).
    { destruct Hempty as [-> | ->]; reflexivity. }
    assert (Hc3 : count_name "variables" p3 = count_name "variables" (url_searchParams u)).
    { rewrite Hv3. subst p2. rewrite Hinc. exact Hv1. }
    destruct Hp4 as [[-> Hnokey] | (k' & Hm & Hk & Ha & Hkk & Hkv & ->)].
    + rewrite Hc3. split; [|tauto].
      intros Hzero. split; [exact Hzero|].
      intros (k & Hm0 & Hk0 & Ha0 & Hkey & Hval).
      destruct (Hkeyed' k Hm0 Hk0) as [Hma Hka].
      destruct (Hnokey _ Hma Hka Ha0) as [He | He]; simpl in He; [|contradiction].
      rewrite Hkey in He. discriminate.
    + destruct (String.eqb_spec "variables" (ak_key k')) as [Heq | Hneq].
      * rewrite <- Heq, count_name_sp_set. split; [discriminate|].
        intros [_ Hnot]. exfalso. apply Hnot.
        destruct (Hkeyed k' Hm Hk) as (k & Hk0 & Hm0 & Hkey & Hval & Hadd).
        exists k. repeat split; auto; congruence.
      * rewrite count_name_sp_set_other by exact Hneq. rewrite Hc3.
        split; [|tauto]. intros Hzero. split; [exact Hzero|].
        intros (k & Hm0 & Hk0 & Ha0 & Hkey & Hval).
        destruct (Hkeyed' k Hm0 Hk0) as [Hma Hka].
        rewrite Hk in Hka. injection Hka as ->. simpl in Hneq. congruence.
Qed.

End WithPlatform.
End RequestFacts.

(** ** The request executor on concrete requests *)

Module RequestExamples.
Import Interpolation InterpolationStructs Encoding Request Reference RequestFacts.

(** A run against a server that answers with an HTML page. *)
Example html_answer_is_a_result :
  fst (executeRequest browser (server 502 "Bad Gateway" "<html>") baseOptions world0) =
  inr {| response := parseFailure;
         rr_headers := [("content-type", "text/html")];
         stats := Some {| status := 502; statusText := "Bad Gateway"; duration := 12;
                          size := 6; timestamp := 1700000000012 |};
         error := None |}.
Proof. reflexivity. Qed.

(** A run against an endpoint nobody listens on. *)
Example unreachable_is_a_failure :
  fst (executeRequest browser unreachable baseOptions world0) =
  inr {| response := JNull;
         rr_headers := [];
         stats := Some {| status := 0; statusText := "Error"; duration := 3;
                          size := 0; timestamp := 1700000000003 |};
         error := Some "Failed to fetch" |}.
Proof. reflexivity. Qed.

(** Variables that parse to a number cannot take a file: the [TypeError]
    of [setNestedValue] is reported, nothing is sent. *)
Example primitive_variables_are_a_failure :
  let options := withMethod PUT (withVariables "7" (withFiles [upload] baseOptions)) in
  executeRequest browser unreachable options world0 =
  (inr {| response := JNull;
          rr_headers := [];
          stats := Some {| status := 0; statusText := "Error"; duration := 0;
                           size := 0; timestamp := 1700000000000 |};
          error := Some "Cannot create property on a primitive value" |}, world0).
Proof. reflexivity. Qed.


Lemma executeRequest_invalid_endpoint_witness :
  let options := withEndpoint "not a url" baseOptions in
  isValidUrl browser (interpolateString browser (endpoint options) (context options)) = false /\
  executeRequest browser unreachable options world0 =
  (inr {| response := JNull;
          rr_headers := [];
          stats := Some {| status := 0; statusText := "Error"; duration := 0;
                           size := 0; timestamp := 1700000000000 |};
          error := Some "Invalid endpoint URL" |}, world0).
Proof.
  intros options. split; [reflexivity|].
  apply (executeRequest_invalid_endpoint browser unreachable options world0).
  right. reflexivity.
Defined.

Lemma executeRequest_non_json_body_witness :
  let net := server 200 "OK" "<html>" in
  exists resp w1,
    sendRequest browser net baseOptions world0 = (inr resp, w1) /\
    resp_text resp = inr "<html>" /\
    JSON_parse browser "<html>" = inl "Unexpected token" /\
    executeRequest browser net baseOptions world0 =
    (inr {| response :=
              JObject [("errors",
                        JArray [JObject [("message",
                                          JString "Failed to parse response as JSON")]])];
            rr_headers := [("content-type", "text/html")];
            stats := Some {| status := 200; statusText := "OK"; duration := 12;
                             size := 6; timestamp := 1700000000012 |};
            error := None |}, w1).
Proof.
  intros net.
  exists {| resp_status := 200; resp_statusText := "OK";
            resp_headers := [("content-type", "text/html")];
            resp_text := inr "<html>" |},
         (snd (sendRequest browser net baseOptions world0)).
  split; [reflexivity|]. split; [reflexivity|]. split; [reflexivity|].
  exact (executeRequest_non_json_body browser net baseOptions world0
           (snd (sendRequest browser net baseOptions world0))
           {| resp_status := 200; resp_statusText := "OK";
              resp_headers := [("content-type", "text/html")];
              resp_text := inr "<html>" |}
           "<html>" "Unexpected token" eq_refl eq_refl eq_refl).
Defined.

Example proxied_headers :
  buildHeaders browser (headers proxied) (auth proxied) (context proxied) true
               "https://x.test/graphql" =
  {[ "Content-Type" := "application/json";
     "X-GraphIt-Header-X-Trace" := "on";
     "X-GraphIt-Header-Authorization" := "Bearer t0k";
     "X-GraphIt-Target" := "https://x.test/graphql" ]}.
Proof. vm_compute. reflexivity. Qed.

(** The same map, as it leaves with the POST through the proxy. *)
Example proxied_call :
  map (fun call => (fc_url call, fc_method call, fc_headers call))
      (fetched (snd (executeRequest browser unreachable proxied world0))) =
  [("/api/proxy", "POST",
    {[ "Content-Type" := "application/json";
       "X-GraphIt-Header-X-Trace" := "on";
       "X-GraphIt-Header-Authorization" := "Bearer t0k";
       "X-GraphIt-Target" := "https://x.test/graphql" ]})].
Proof. vm_compute. reflexivity. Qed.

(** Header name, header value and token as templates: what is renamed is
    the interpolated name, what is sent the interpolated value. *)
Lemma buildHeaders_proxy_witness :
  let result := buildHeaders browser (headers templated) (auth templated) (context templated)
                             (useProxy templated) "https://x.test/graphql" in
  useProxy templated = true /\
  result !! "X-GraphIt-Target" = Some "https://x.test/graphql" /\
  result !! "X-GraphIt-Header-Authorization" = Some "Bearer t0k" /\
  result !! "X-GraphIt-Header-X-Trace" = Some "t0k" /\
  result !! "X-GraphIt-Header-X-Debug" = None /\
  result !! "X-GraphIt-Header-X-{{K}}" = None.
Proof.
  intros result. split; [reflexivity|].
  destruct (buildHeaders_proxy browser templated eq_refl)
    as (Htarget & _ & _ & Hbearer & _).
  split; [exact Htarget|].
  split; [exact (Hbearer {| token := "{{T}}" |} eq_refl eq_refl ltac:(discriminate))|].
  repeat split.
Defined.

(** C8, two inputs on which the claim fails.  The variables text is ["{}"]
    or empty, and still the URL that is fetched has a [variables]
    parameter: the API key is written to the query under its own name,
    here [variables]; and a parameter the endpoint URL itself carries is
    left in place. *)
Lemma executeRequest_get_variables_present :
  let byKey := withMethod GET (withVariables "{}" (withAuth (keyInQuery "variables") baseOptions)) in
  let byEndpoint := withMethod GET
                      (withEndpoint "https://x.test/graphql?variables=1" baseOptions) in
  let net := server 200 "OK" "{}" in
  (interpolateString browser (variables byKey) (context byKey) = "{}" /\
   map fc_url (fetched (snd (executeRequest browser net byKey world0))) =
   ["https://x.test/graphql?query=%7Bme%7D&variables=s3"]) /\
  (interpolateString browser (variables byEndpoint) (context byEndpoint) = EmptyString /\
   map fc_url (fetched (snd (executeRequest browser net byEndpoint world0))) =
   ["https://x.test/graphql?variables=1&query=%7Bme%7D"]).
Proof. repeat split. Qed.

Lemma executeRequest_get_variables_witness :
  let options := withMethod GET (withVariables "7" baseOptions) in
  let u := {| url_prefix := "https://x.test/graphql"; url_searchParams := [];
              url_hash := EmptyString |} in
  URL_parse browser (interpolateString browser (endpoint options) (context options)) = inr u /\
  exists params headers,
    fetched (snd (executeRequest browser unreachable options world0)) =
    [{| fc_url := "https://x.test/graphql" ++ "?" ++ join_with "&" (map encode_pair params);
        fc_method := "GET";
        fc_headers := headers;
        fc_body := NoBody;
        fc_abortAfter := 30000 |}] /\
    count_name "variables" params = 1%nat /\
    In "variables=7" (map encode_pair params).
Proof.
  intros options u. split; [reflexivity|].
  destruct (executeRequest_get_variables browser unreachable options world0 u)
    as (params & headers & Hcall & Hin & _); try reflexivity; try discriminate.
  exists params, headers. split.
  - rewrite Hcall. simpl. now rewrite InterpolationFacts.append_empty_r.
  - destruct Hin as (Hone & Hvalue); [discriminate | discriminate |].
    split; [exact Hone|].
    apply Hvalue. intros (k & Hmode & _). discriminate Hmode.
Defined.

End RequestExamples.

(** ** The subscription manager: what [subscribe] does to earlier clients *)

Module SubscriptionFacts.
Import Subscription.
Local Open Scope list_scope.

Lemma updateClient_last (f : Client -> Client) (c : Client) (st : ModuleState) (l : list Client) :
  clients st = l ++ [c] ->
  clients (updateClient (length l) f st) = l ++ [f c].
Proof.
  intros Hst. unfold updateClient. simpl. rewrite Hst.
  rewrite lookup_app_r by lia. rewrite Nat.sub_diag. simpl.
  rewrite insert_app_r_alt by lia. now rewrite Nat.sub_diag.
Qed.

Lemma liveClients_app (kind : SubscriptionProtocol) (st : ModuleState)
    (l : list Client) (c : Client) :
  clients st = l ++ [c] -> c_kind c = kind -> live c = true ->
  liveClients kind st =
  List.filter (fun c => protocol_eqb (c_kind c) kind && live c) l ++ [c].
Proof.
  intros Hst Hk Hl. unfold liveClients. rewrite Hst, List.filter_app. simpl.
  rewrite Hk, Hl. now destruct kind.
Qed.

Lemma subscribeWebSocket_clients (url : string) (options : SubscriptionOptions)
    (headers : gmap string string) (variables : option JSON) (st : ModuleState) :
  clients (snd (subscribeWebSocket url options headers variables st)) =
  clients st ++ [{| c_kind := ws; c_url := toWsUrl url; c_params := headers;
                    c_subscription := Some (payloadOf options variables);
                    c_released := false; c_disposed := false |}].
Proof.
  unfold subscribeWebSocket, createClient, clientSubscribe. cbn [snd].
  now rewrite (updateClient_last _
                 {| c_kind := ws; c_url := toWsUrl url; c_params := headers;
                    c_subscription := None; c_released := false; c_disposed := false |}
                 _ (clients st)).
Qed.

Lemma subscribeSSE_clients (url : string) (options : SubscriptionOptions)
    (headers : gmap string string) (variables : option JSON) (st : ModuleState) :
  clients (snd (subscribeSSE url options headers variables st)) =
  clients st ++ [{| c_kind := sse; c_url := url; c_params := headers;
                    c_subscription := Some (payloadOf options variables);
                    c_released := false; c_disposed := false |}].
Proof.
  unfold subscribeSSE, createClient, clientSubscribe. cbn [snd].
  now rewrite (updateClient_last _
                 {| c_kind := sse; c_url := url; c_params := headers;
                    c_subscription := None; c_released := false; c_disposed := false |}
                 _ (clients st)).
Qed.

(** C2, what the code does.  [subscribe] never disposes: every client
    object made before the call is, after it, exactly as it was, whether
    or not the module-scope variable pointed to it; for ['ws'] and ['sse']
    one more client of that kind is live, and the module-scope variable now
    points to it alone. *)
Theorem subscribe_disposes_nothing (P : Platform) (options : SubscriptionOptions)
    (st : ModuleState) :
  let st' := snd (subscribe P options st) in
  (forall id c, clients st !! id = Some c -> clients st' !! id = Some c) /\
  match protocol options with
  | appsync => clients st' = clients st
  | kind =>
      exists c, clients st' = clients st ++ [c] /\
                c_kind c = kind /\ live c = true /\
                liveClients kind st' = liveClients kind st ++ [c] /\
                (if protocol_eqb kind ws then wsClient st' else sseClient st') =
                Some (length (clients st))
  end.
Proof.
  intros st'.
  assert (Hcases :
    match protocol options with
    | appsync => clients st' = clients st
    | kind =>
        exists c, clients st' = clients st ++ [c] /\
                  c_kind c = kind /\ live c = true /\
                  liveClients kind st' = liveClients kind st ++ [c] /\
                  (if protocol_eqb kind ws then wsClient st' else sseClient st') =
                  Some (length (clients st))
    end).
  { subst st'. unfold subscribe.
    destruct (protocol options); [| |reflexivity].
    - eexists. split; [apply subscribeWebSocket_clients|].
      split; [reflexivity|]. split; [reflexivity|]. split; [|reflexivity].
      eapply liveClients_app; [apply subscribeWebSocket_clients | reflexivity..].
    - eexists. split; [apply subscribeSSE_clients|].
      split; [reflexivity|]. split; [reflexivity|]. split; [|reflexivity].
      eapply liveClients_app; [apply subscribeSSE_clients | reflexivity..]. }
  split; [|exact Hcases].
  intros id c Hc.
  destruct (protocol options); try destruct Hcases as (c' & -> & _);
    try (rewrite Hcases; exact Hc);
    now apply lookup_app_l_Some.
Qed.

(** Two [subscribe] calls for ['ws'] in a row, from a fresh module: two
    live clients, the variable on the second. *)
Example two_ws_subscriptions (P : Platform) :
  let s1 := snd (subscribe P wsOptions initialState) in
  let s2 := snd (subscribe P wsOptions s1) in
  length (liveClients ws s1) = 1%nat /\
  length (liveClients ws s2) = 2%nat /\
  wsClient s2 = Some 1%nat.
Proof. repeat split. Qed.

(** The same for ['sse']. *)
Example two_sse_subscriptions (P : Platform) :
  let s1 := snd (subscribe P sseOptions initialState) in
  let s2 := snd (subscribe P sseOptions s1) in
  length (liveClients sse s2) = 2%nat /\ sseClient s2 = Some 1%nat.
Proof. repeat split. Qed.

(** [disconnectAll] then reaches the second client only. *)
Example first_client_outlives_disconnectAll (P : Platform) :
  let s1 := snd (subscribe P wsOptions initialState) in
  let s2 := snd (subscribe P wsOptions s1) in
  map c_disposed (clients (disconnectAll s2)) = [false; true] /\
  length (liveClients ws (disconnectAll s2)) = 1%nat.
Proof. split; reflexivity. Qed.

(** The first handle, used after the second [subscribe], releases its own
    subscription and disposes the second client. *)
Example stale_handle_disposes_the_newer_client (P : Platform) :
  let '(h1, s1) := subscribe P wsOptions initialState in
  let s2 := snd (subscribe P wsOptions s1) in
  map c_released (clients (unsubscribe h1 s2)) = [true; false] /\
  map c_disposed (clients (unsubscribe h1 s2)) = [false; true].
Proof. split; reflexivity. Qed.

(** Subscribing after the handle was used starts from no live client. *)
Example unsubscribe_then_subscribe (P : Platform) :
  let '(h1, s1) := subscribe P wsOptions initialState in
  let s2 := snd (subscribe P wsOptions (unsubscribe h1 s1)) in
  length (liveClients ws s2) = 1%nat.
Proof. reflexivity. Qed.

End SubscriptionFacts.

(** ** The script worker: the timer and the handler *)

Module ScriptsFacts.
Import Scripts.
Local Open Scope list_scope.

Section WithEngine.
Context (pretty : JSON -> string) (engine : ScriptMessage -> Behaviour).

Lemma runStep_timers (step : Step) (wk : Worker) :
  timers (runStep pretty step wk) = timers wk /\
  posted (runStep pretty step wk) = posted wk.
Proof. destruct step; split; reflexivity. Qed.

(** Running the script arms no timer, fires none and posts nothing. *)
Lemma runSteps_timers (l : list Step) (wk : Worker) :
  timers (runSteps pretty l wk) = timers wk /\
  posted (runSteps pretty l wk) = posted wk.
Proof.
  revert wk. unfold runSteps. induction l as [|step l IH]; intros wk; [split; reflexivity|].
  simpl. destruct (IH (runStep pretty step wk)) as [-> ->]. apply runStep_timers.
Qed.

(** The timer the handler arms is gone when the handler is done. *)
Lemma clearTimeout_own (l : list Step) (wk : Worker) (delay : Z) :
  timers wk = [] ->
  let '(id, wk1) := setTimeout delay wk in
  timers (clearTimeout id (runSteps pretty l wk1)) = [].
Proof.
  intros Hnone. unfold setTimeout, clearTimeout. simpl.
  destruct (runSteps_timers l
              {| clock := clock wk;
                 timers := timers wk ++ [(nextTimer wk, clock wk + timerDelay delay)];
                 nextTimer := S (nextTimer wk);
                 w_logs := w_logs wk; w_envOverrides := w_envOverrides wk;
                 w_varsOverrides := w_varsOverrides wk;
                 w_headersOverrides := w_headersOverrides wk;
                 posted := posted wk |}) as [-> _].
  simpl. rewrite Hnone. simpl. now rewrite Nat.eqb_refl.
Qed.

(** With no timer pending the idle loop has nothing to run. *)
Lemma runTimers_none (wk : Worker) : timers wk = [] -> runTimers wk = wk.
Proof. intros H. unfold runTimers. now rewrite H. Qed.

(** What comes back from the worker, by how the script ends. *)
Lemma exchange_by_ending (msg : ScriptMessage) (wk : Worker) :
  timers wk = [] ->
  match ending (engine msg) with
  | Returns =>
      exists r wk', exchange pretty engine msg wk = Some (r, wk') /\
                    success r = true /\ script_error r = None /\ timers wk' = []
  | Throws text =>
      exists r wk', exchange pretty engine msg wk = Some (r, wk') /\
                    success r = false /\ script_error r = Some text /\ timers wk' = []
  | NeverReturns => exchange pretty engine msg wk = None
  end.
Proof.
  intros Hnone. unfold exchange, onmessage.
  set (wk0 := {| clock := clock wk; timers := timers wk; nextTimer := nextTimer wk;
                 w_logs := []; w_envOverrides := ∅; w_varsOverrides := ∅;
                 w_headersOverrides := m_headers msg; posted := [] |}).
  pose proof (clearTimeout_own (steps (engine msg)) wk0 (m_timeout msg) Hnone) as Hclear.
  cbn [clock timers nextTimer w_logs w_envOverrides w_varsOverrides w_headersOverrides posted].
  fold wk0.
  destruct (setTimeout (m_timeout msg) wk0) as [id wk1] eqn:Hset.
  assert (Hposted : posted (clearTimeout id (runSteps pretty (steps (engine msg)) wk1)) = []).
  { unfold clearTimeout. simpl.
    destruct (runSteps_timers (steps (engine msg)) wk1) as [_ ->].
    unfold setTimeout in Hset. injection Hset as _ <-. reflexivity. }
  set (wk2 := clearTimeout id (runSteps pretty (steps (engine msg)) wk1)) in *.
  destruct (ending (engine msg)); [| |reflexivity].
  - rewrite runTimers_none by exact Hclear.
    cbn [posted postResult]. rewrite Hposted. simpl.
    do 2 eexists. split; [reflexivity|]. auto.
  - rewrite runTimers_none by exact Hclear.
    cbn [posted postResult]. rewrite Hposted. simpl.
    do 2 eexists. split; [reflexivity|]. auto.
Qed.


(** C6, what the code does.  A run of a non-blank script on an idle worker
    is settled by how the script ends and by nothing else: when the script
    returns, however late, the promise resolves with [success: true] and no
    error; when it throws, with [success: false] and the thrown text; when
    it never returns, the promise stays pending.  The timer armed for
    [timeoutMs] is cleared by the handler before the event loop could run
    its callback, so no run reports ["Script execution timed out"] for the
    script's being late. *)
Theorem script_run_by_ending (P : Platform) (script : string)
    (envVariables : list EnvVariable) (variables : string) (headers : list Header)
    (response : JSON) (timeout : Z) (wk : Worker) :
  truthy (trim script) = true ->
  timers wk = [] ->
  let pre := runPreRequestScript pretty engine P script envVariables variables headers
                                 timeout wk in
  let post := runPostRequestScript pretty engine P script envVariables variables headers
                                   response timeout wk in
  let message (response : option JSON) :=
    {| m_script := script; m_env := envOf envVariables; m_vars := varsOf P variables;
       m_headers := headerMapOf headers; m_response := response; m_timeout := timeout |} in
  let settles (run : option (ScriptResult * Worker)) (how : Ending) :=
    match how with
    | Returns =>
        exists r wk', run = Some (r, wk') /\ success r = true /\ script_error r = None
    | Throws text =>
        exists r wk', run = Some (r, wk') /\ success r = false /\ script_error r = Some text
    | NeverReturns => run = None
    end in
  settles pre (ending (engine (message None))) /\
  settles post (ending (engine (message (Some response)))).
Proof.
  intros Hscript Hnone pre post message settles.
  subst pre post. unfold runPreRequestScript, runPostRequestScript.
  rewrite Hscript. cbn [negb].
  split.
  - pose proof (exchange_by_ending (message None) wk Hnone) as H.
    subst settles. cbv beta.
    destruct (ending (engine (message None))); [| |exact H];
      destruct H as (r & wk' & Hrun & Hs & He & _); exists r, wk'; auto.
  - pose proof (exchange_by_ending (message (Some response)) wk Hnone) as H.
    subst settles. cbv beta.
    destruct (ending (engine (message (Some response)))); [| |exact H];
      destruct H as (r & wk' & Hrun & Hs & He & _); exists r, wk'; auto.
Qed.

End WithEngine.

(** Ten seconds of computation under a timeout of five: the run succeeds,
    at time 10000. *)
Example slow_script_succeeds :
  option_map (fun rw => (success (fst rw), logs (fst rw), script_error (fst rw),
                         clock (snd rw)))
    (runPreRequestScript Reference.stringify exampleEngine Reference.browser
       slowScript [] "{}" [] 5000 newWorker) =
  Some (true, ["start"], None, 10000%Z).
Proof. reflexivity. Qed.

(** A loop without end under the same timeout: no reply, ever. *)
Example looping_script_never_settles :
  runPreRequestScript Reference.stringify exampleEngine Reference.browser
    loopScript [] "{}" [] 5000 newWorker = None.
Proof. reflexivity. Qed.

Lemma script_run_by_ending_witness :
  truthy (trim slowScript) = true /\
  timers newWorker = [] /\
  exists r wk',
    runPreRequestScript Reference.stringify exampleEngine Reference.browser
      slowScript [] "{}" [] 5000 newWorker = Some (r, wk') /\
    success r = true /\ script_error r = None.
Proof.
  split; [reflexivity|]. split; [reflexivity|].
  exact (proj1 (script_run_by_ending Reference.stringify exampleEngine Reference.browser
                  slowScript [] "{}" [] JNull 5000 newWorker eq_refl eq_refl)).
Defined.

End ScriptsFacts.

(** ** More on interpolation: names, validation, contexts *)

Module InterpolationMore.
Import Interpolation InterpolationTools InterpolationFacts Scripts.
Local Open Scope list_scope.

Lemma NoDup_snoc (l : list string) (x : string) :
  List.NoDup l -> ~ In x l -> List.NoDup (l ++ [x]).
Proof.
  induction l as [|y l IH]; intros Hnd Hx; simpl.
  - constructor; [intros [] | constructor].
  - inversion Hnd as [|? ? Hy Hl]; subst. constructor.
    + rewrite in_app_iff. intros [Hin | [-> | []]]; [auto | apply Hx; now left].
    + apply IH; [exact Hl | intros Hin; apply Hx; now right].
Qed.

Lemma existsb_eqb_In (name : string) (names : list string) :
  existsb (String.eqb name) names = true <-> In name names.
Proof.
  rewrite existsb_exists. split.
  - intros (x & Hx & Heq). apply String.eqb_eq in Heq. now subst.
  - intros Hin. exists name. split; [exact Hin | apply String.eqb_refl].
Qed.

Lemma pushNew_NoDup (names : list string) (gs : list Segment) :
  List.NoDup names -> List.NoDup (pushNew names gs).
Proof.
  revert names. induction gs as [|[c|body] gs IH]; intros names Hnd; simpl; auto.
  destruct (existsb (String.eqb (trim body)) names) eqn:E; [auto|].
  apply IH, NoDup_snoc; [exact Hnd|].
  intros Hin. apply existsb_eqb_In in Hin. congruence.
Qed.

Lemma pushNew_In (names : list string) (gs : list Segment) (n : string) :
  In n (pushNew names gs) <->
  In n names \/ exists body, In (Hole body) gs /\ trim body = n.
Proof.
  revert names. induction gs as [|[c|body] gs IH]; intros names; simpl.
  - split; [now left | intros [H | (b & [] & _)]; exact H].
  - rewrite IH. split.
    + intros [H | (b & Hb & Ht)]; [now left | right; exists b; auto].
    + intros [H | (b & [Hb | Hb] & Ht)]; [now left | discriminate | right; exists b; auto].
  - destruct (existsb (String.eqb (trim body)) names) eqn:E; rewrite IH.
    + split.
      * intros [H | (b & Hb & Ht)]; [now left | right; exists b; auto].
      * intros [H | (b & [Hb | Hb] & Ht)]; [now left | | right; exists b; auto].
        injection Hb as <-. left. subst n. now apply existsb_eqb_In.
    + rewrite in_app_iff. simpl. split.
      * intros [[H | [H | []]] | (b & Hb & Ht)];
          [now left | right; exists body; auto | right; exists b; auto].
      * intros [H | (b & [Hb | Hb] & Ht)];
          [now left; left | | right; exists b; auto].
        injection Hb as <-. left; right. now left.
Qed.

(** X1.  [extractVariableNames] lists each placeholder name once: the
    result has no duplicates, and a name is in it exactly when it is the
    trimmed capture of a match of the template. *)
Theorem extractVariableNames_names (template : string) :
  List.NoDup (extractVariableNames template) /\
  forall name,
    In name (extractVariableNames template) <->
    exists body, In (Hole body) (scan template) /\ trim body = name.
Proof.
  split.
  - apply pushNew_NoDup. constructor.
  - intros name. unfold extractVariableNames. rewrite pushNew_In. simpl.
    split; [intros [[] | H]; exact H | intros H; now right].
Qed.

End InterpolationMore.

Module InterpolationMore2.
Import Interpolation InterpolationTools InterpolationFacts InterpolationMore Scripts Encoding.
Local Open Scope list_scope.

Lemma match_at_braces (s body rest : string) :
  match_at s = Some (body, rest) ->
  free_of "}" s = false /\ free_of "{" s = false.
Proof.
  intros H. apply match_at_split in H as [-> _]. unfold raw.
  rewrite !EncodingFacts.free_of_app. split; [|reflexivity].
  change (free_of "}" "}}") with false.
  now rewrite andb_false_r, andb_false_l.
Qed.

Lemma scan_fuel_no_hole (fuel : nat) (s body : string) :
  free_of "}" s || free_of "{" s = true -> ~ In (Hole body) (scan_fuel fuel s).
Proof.
  revert s. induction fuel as [|fuel IH]; intros s Hfree; simpl; [tauto|].
  destruct (match_at s) as [[b r]|] eqn:Em.
  - apply match_at_braces in Em as [E1 E2]. rewrite E1, E2 in Hfree. discriminate.
  - destruct s as [|c s]; simpl; [tauto|].
    intros [Hc | Hin]; [discriminate|]. revert Hin. apply IH.
    simpl in Hfree. apply orb_true_iff in Hfree as [H | H];
      apply andb_true_iff in H as [_ H]; rewrite H; [reflexivity | apply orb_true_r].
Qed.

(** X2.  A text without ['}'], or without ['{'], holds no placeholder:
    [extractVariableNames] finds none in it and [interpolateString]
    returns it unchanged, whatever the context. *)
Theorem interpolateString_no_brace (P : Platform) (template : string)
    (context : InterpolationContext) :
  free_of "}" template || free_of "{" template = true ->
  extractVariableNames template = [] /\
  interpolateString P template context = template.
Proof.
  intros Hfree.
  assert (Hnone : extractVariableNames template = []).
  { destruct (extractVariableNames template) as [|n l] eqn:E; [reflexivity|].
    assert (Hin : In n (extractVariableNames template)) by (rewrite E; now left).
    unfold extractVariableNames in Hin. apply pushNew_In in Hin as [[] | (b & Hb & _)].
    exfalso. revert Hb. now apply scan_fuel_no_hole. }
  split; [exact Hnone|].
  apply interpolateString_unbound. rewrite Hnone. intros name [].
Qed.

Lemma interpolateString_no_brace_witness :
  free_of "}" "{ user(id: 1) { name" || free_of "{" "{ user(id: 1) { name" = true /\
  interpolateString Reference.browser "{ user(id: 1) { name" Reference.emptyContext =
  "{ user(id: 1) { name".
Proof.
  split; [reflexivity|].
  exact (proj2 (interpolateString_no_brace Reference.browser "{ user(id: 1) { name"
                  Reference.emptyContext eq_refl)).
Defined.

Lemma lastValue_snoc (name : string) (vs : list EnvVariable) (v : EnvVariable) :
  lastValue name (vs ++ [v]) =
  if String.eqb (ev_name v) name then Some (ev_value v) else lastValue name vs.
Proof.
  unfold lastValue. rewrite rev_app_distr. simpl.
  now destruct (String.eqb (ev_name v) name).
Qed.

Lemma lastValue_cons (name : string) (v : EnvVariable) (vs : list EnvVariable) :
  lastValue name (v :: vs) =
  match lastValue name vs with
  | Some x => Some x
  | None => if String.eqb (ev_name v) name then Some (ev_value v) else None
  end.
Proof.
  unfold lastValue. simpl rev.
  induction (rev vs) as [|x l IH]; simpl.
  - now destruct (String.eqb (ev_name v) name).
  - destruct (String.eqb (ev_name x) name); [reflexivity | exact IH].
Qed.

Lemma lastValue_In (name : string) (vs : list EnvVariable) :
  is_Some (lastValue name vs) <-> exists v, In v vs /\ ev_name v = name.
Proof.
  unfold lastValue.
  destruct (List.find _ (rev vs)) as [v|] eqn:Ef; simpl.
  - split; [intros _ | eauto].
    apply find_some in Ef as [Hin Heq]. exists v. split.
    + now apply in_rev.
    + now apply String.eqb_eq.
  - split; [intros [? ?]; discriminate|]. intros (v & Hin & Hname). exfalso.
    apply in_rev in Hin. pose proof (find_none _ _ Ef v Hin) as Hf.
    simpl in Hf. rewrite Hname, String.eqb_refl in Hf. discriminate.
Qed.

(** The loop of [buildInterpolationContext], entry by entry. *)
Lemma assignVariables_lookup (vs : list EnvVariable) (m m' : gmap string Value)
    (name : string) :
  assignVariables vs m = Some m' ->
  m !! "__proto__" = None ->
  m' !! name = match ownValue name vs with
               | Some x => Some x
               | None => m !! name
               end.
Proof.
  revert m. induction vs as [|v vs IH]; intros m; simpl.
  - intros [= <-] _. unfold ownValue. now destruct (String.eqb name "__proto__").
  - destruct (replacesPrototype (ev_name v) (ev_value v)); [discriminate|].
    intros Hrun Hp.
    rewrite (IH _ Hrun) by now apply JsFacts.writeOwn_proto.
    unfold ownValue. destruct (String.eqb_spec name "__proto__") as [-> | Hnp].
    + rewrite Hp. now apply JsFacts.writeOwn_proto.
    + rewrite lastValue_cons. destruct (lastValue name vs); [reflexivity|].
      destruct (String.eqb_spec (ev_name v) name) as [<- | Hne].
      * now apply JsFacts.writeOwn_lookup_eq.
      * now apply JsFacts.writeOwn_lookup_ne.
Qed.

Lemma assignVariables_None (vs : list EnvVariable) (m : gmap string Value) :
  match assignVariables vs m with
  | Some _ => forall v, In v vs -> replacesPrototype (ev_name v) (ev_value v) = false
  | None => exists v, In v vs /\ replacesPrototype (ev_name v) (ev_value v) = true
  end.
Proof.
  revert m. induction vs as [|v vs IH]; intros m; simpl; [intros v []|].
  destruct (replacesPrototype (ev_name v) (ev_value v)) eqn:E.
  - exists v. split; [now left | exact E].
  - specialize (IH (writeOwn (ev_name v) (ev_value v) m)).
    destruct (assignVariables vs _).
    + intros v' [<- | Hin]; auto.
    + destruct IH as (v' & Hin & Hv'). exists v'. split; [now right | exact Hv'].
Qed.

Lemma replacesPrototype_true (name : string) (value : Value) :
  replacesPrototype name value = true <-> name = "__proto__" /\ exists j, value = VObject j.
Proof.
  unfold replacesPrototype. rewrite andb_true_iff, String.eqb_eq.
  split; intros [Hn Hv]; (split; [exact Hn|]).
  - destruct value; try discriminate. eauto.
  - destruct Hv as [j ->]. reflexivity.
Qed.

(** What the built context holds and reads. *)
Lemma buildInterpolationContext_Some (envVariables : list EnvVariable)
    (context : InterpolationContext) (name : string) :
  buildInterpolationContext envVariables = Some context ->
  variables context !! name = ownValue name envVariables.
Proof.
  unfold buildInterpolationContext.
  destruct (assignVariables envVariables ∅) as [m|] eqn:E; [|discriminate].
  intros [= <-]. simpl. rewrite (assignVariables_lookup _ _ _ name E) by apply lookup_empty.
  rewrite lookup_empty. now destruct (ownValue name envVariables).
Qed.

(** X3.  The context built from a list of environment variables.  Unless a
    variable named [__proto__] carries an object or [null] (the write then
    replaces the prototype of the object being filled), the context has,
    under a name other than [__proto__], the value of the last variable of
    that name, and no entry under [__proto__]; a read gives that value,
    else the member of that name that objects inherit, else [undefined];
    and [name in context.variables] holds exactly when some variable has
    the name, [__proto__] apart, or objects inherit it. *)
Theorem buildInterpolationContext_lookup (envVariables : list EnvVariable) :
  match buildInterpolationContext envVariables with
  | Some context =>
      (forall v, In v envVariables -> ev_name v = "__proto__" ->
                 forall j, ev_value v <> VObject j) /\
      forall name,
        variables context !! name = ownValue name envVariables /\
        getVariable context name =
          match ownValue name envVariables with
          | Some value => Data value
          | None => if inherited name then Builtin name else Data VUndefined
          end /\
        (hasVariable context name = true <->
         (name <> "__proto__" /\ exists v, In v envVariables /\ ev_name v = name) \/
         inherited name = true)
  | None =>
      exists v j, In v envVariables /\ ev_name v = "__proto__" /\ ev_value v = VObject j
  end.
Proof.
  destruct (buildInterpolationContext envVariables) as [context|] eqn:Hb.
  - split.
    + intros v Hin Hname j Hj.
      pose proof (assignVariables_None envVariables ∅) as Hall.
      unfold buildInterpolationContext in Hb.
      destruct (assignVariables envVariables ∅); [|discriminate].
      specialize (Hall v Hin).
      assert (Ht : replacesPrototype (ev_name v) (ev_value v) = true)
        by (apply replacesPrototype_true; eauto).
      congruence.
    + intros name. pose proof (buildInterpolationContext_Some _ _ name Hb) as Hown.
      split; [exact Hown|]. split.
      * unfold getVariable. rewrite Hown. now destruct (ownValue name envVariables).
      * unfold hasVariable, hasProperty. rewrite Hown. unfold ownValue.
        destruct (String.eqb_spec name "__proto__") as [-> | Hnp].
        -- split; [intros _; now right | reflexivity].
        -- destruct (lastValue name envVariables) as [x|] eqn:El.
           ++ split; [intros _ | reflexivity]. left. split; [exact Hnp|].
              apply lastValue_In. rewrite El. eauto.
           ++ split; [intros ->; now right|]. intros [[_ Hex] | Hi]; [|exact Hi].
              apply lastValue_In in Hex. rewrite El in Hex. now destruct Hex.
  - pose proof (assignVariables_None envVariables ∅) as Hnone.
    unfold buildInterpolationContext in Hb.
    destruct (assignVariables envVariables ∅); [discriminate|].
    destruct Hnone as (v & Hin & Hv). apply replacesPrototype_true in Hv as [Hn [j Hj]].
    exists v, j. auto.
Qed.

(** X4.  [validateInterpolation] reports exactly the placeholder names for
    which [name in context.variables] fails, each once: names the context
    has no entry of and objects do not inherit, so never [toString] or
    [constructor].  [valid] holds exactly when there is none; and a
    placeholder whose name is reported is left as it is by
    [interpolateString]. *)
Theorem validateInterpolation_missing (template : string) (context : InterpolationContext) :
  let '(valid, missingVars) := validateInterpolation template context in
  (forall name, In name missingVars <->
                In name (extractVariableNames template) /\
                variables context !! name = None /\ inherited name = false) /\
  List.NoDup missingVars /\
  (valid = true <->
   forall name, In name (extractVariableNames template) -> hasVariable context name = true) /\
  (forall P body, In (trim body) missingVars ->
                  render P context (Hole body) = ("{{" ++ body ++ "}}")%string).
Proof.
  unfold validateInterpolation.
  set (names := extractVariableNames template).
  set (missing := List.filter _ names).
  assert (Hin0 : forall name, In name missing <->
                              In name names /\ hasVariable context name = false).
  { intros name. subst missing. rewrite filter_In, negb_true_iff. reflexivity. }
  assert (Hhas : forall name, hasVariable context name = false <->
                              variables context !! name = None /\ inherited name = false).
  { intros name. unfold hasVariable, hasProperty.
    destruct (variables context !! name); split; try discriminate; try tauto.
    intros [? _]; discriminate. }
  assert (Hin : forall name, In name missing <->
                  In name names /\ variables context !! name = None /\ inherited name = false).
  { intros name. rewrite Hin0, Hhas. reflexivity. }
  split; [exact Hin|]. split; [|split].
  - subst missing. apply List.NoDup_filter. apply pushNew_NoDup. constructor.
  - rewrite Nat.eqb_eq, length_zero_iff_nil. split.
    + intros Hnil name Hname. destruct (hasVariable context name) eqn:E; [reflexivity|].
      assert (Hm : In name missing) by (apply Hin0; auto). rewrite Hnil in Hm. destruct Hm.
    + intros Hall. destruct missing as [|n l] eqn:E; [reflexivity|].
      assert (Hm : In n (n :: l)) by now left.
      apply Hin0 in Hm as [Hn Hf]. rewrite (Hall n Hn) in Hf. discriminate.
  - intros P body Hm. apply Hin in Hm as (_ & Hown & Hinh). simpl.
    apply replacer_unbound. apply getVariable_undefined. right. now split.
Qed.

(** X5.  [interpolateVariablesJSON] keeps valid JSON valid: when the text
    it is given parses, so does the text it returns; and a result that does
    not parse is the text it was given, untouched. *)
Theorem interpolateVariablesJSON_valid (P : Platform) (variablesStr : string)
    (context : InterpolationContext) :
  let result := interpolateVariablesJSON P variablesStr context in
  (forall j, JSON_parse P variablesStr = inr j -> exists j', JSON_parse P result = inr j') /\
  (forall message, JSON_parse P result = inl message -> result = variablesStr).
Proof.
  unfold interpolateVariablesJSON.
  destruct (JSON_parse P (interpolateString P variablesStr context)) as [msg | j'] eqn:E.
  - split; [intros j Hj; exists j; exact Hj | reflexivity].
  - split; [intros _ _; exists j'; exact E|].
    intros message Hm. rewrite E in Hm. discriminate.
Qed.

End InterpolationMore2.

Module RequestMore.
Import Interpolation InterpolationStructs Encoding Request RequestTools RequestFacts.
Local Open Scope js_scope.

Section WithPlatform.
Context (P : Platform) (N : Network).

Lemma atMostOneCall_pure_throw {A} (Q : FetchCall -> Prop) (e : Thrown) :
  atMostOneCall Q (@throw A e).
Proof. intros w. left. split; [reflexivity | left; now exists e]. Qed.

Lemma atMostOneCall_bind {A B} (Q : FetchCall -> Prop) (m : M A) (k : A -> M B) :
  pure m -> settles m -> (forall a, atMostOneCall Q (k a)) -> atMostOneCall Q (bind m k).
Proof.
  intros Hm Hs Hk w. unfold bind. specialize (Hm w). specialize (Hs w).
  destruct (m w) as [[[e| |] | a] w1]; simpl in Hm, Hs; subst w1.
  - left. split; [reflexivity | left; now exists e].
  - congruence.
  - left. split; [reflexivity | now right].
  - apply Hk.
Qed.

Lemma atMostOneCall_fetch (Q : FetchCall -> Prop) (call : FetchCall) :
  Q call -> atMostOneCall Q (fetch N call).
Proof. intros HQ w. right. exists call. split; [exact HQ | apply fetch_fetched]. Qed.

Lemma atMostOneCall_weaken {A} (Q Q' : FetchCall -> Prop) (m : M A) :
  (forall call, Q call -> Q' call) -> atMostOneCall Q m -> atMostOneCall Q' m.
Proof.
  intros Himp Hm w. destruct (Hm w) as [H | (call & HQ & Hf)]; [now left|].
  right. exists call. auto.
Qed.

Lemma pure_lift_error {A} (r : string + A) : pure (lift_error r).
Proof. destruct r; [apply pure_throw | apply pure_ret]. Qed.

Lemma pure_parseIfTruthy (s : string) : pure (parseIfTruthy P s).
Proof.
  unfold parseIfTruthy. destruct (truthy s); [|apply pure_ret].
  apply pure_bind; [apply pure_lift_error | intros; apply pure_ret].
Qed.

Lemma settles_parseIfTruthy (s : string) : settles (parseIfTruthy P s).
Proof.
  unfold parseIfTruthy. destruct (truthy s); [|apply settles_ret].
  apply settles_bind; [apply settles_lift_error | intros; apply settles_ret].
Qed.

(** What every call of the GET path looks like. *)
Lemma executeGetRequest_call (endpoint : string) (options : RequestOptions)
    (headers : gmap string string) (timeout : Z) :
  atMostOneCall
    (fun call => fc_headers call !! "Content-Type" = None /\
                 fc_abortAfter call = timeout /\
                 fc_method call = (if useProxy options then "POST" else "GET") /\
                 (useProxy options = false -> fc_body call = NoBody))
    (executeGetRequest P N endpoint options headers timeout).
Proof.
  unfold executeGetRequest.
  apply atMostOneCall_bind; [apply pure_lift_error | apply settles_lift_error|]. intros url.
  apply atMostOneCall_bind.
  { destruct (useProxy options); cbn [negb]; [apply pure_ret|].
    destruct (truthy (buildApiKeyQueryParam _)); [|apply pure_ret].
    destruct (decodeURIComponent _); [|apply pure_throw].
    destruct (decodeURIComponent _); [apply pure_ret | apply pure_throw]. }
  { destruct (useProxy options); cbn [negb]; [apply settles_ret|].
    destruct (truthy (buildApiKeyQueryParam _)); [|apply settles_ret].
    destruct (decodeURIComponent _); [|apply settles_throw].
    destruct (decodeURIComponent _); [apply settles_ret | apply settles_throw]. }
  intros [url' headers'].
  destruct (useProxy options).
  - apply atMostOneCall_bind.
    { apply pure_bind; [apply pure_parseIfTruthy | intros; apply pure_ret]. }
    { apply settles_bind; [apply settles_parseIfTruthy | intros; apply settles_ret]. }
    intros body. apply atMostOneCall_fetch. simpl.
    split; [apply lookup_delete_eq|]. repeat split. discriminate.
  - intros w. unfold bind, ret. cbn beta iota. right.
    eexists. split; [|apply fetch_fetched]. simpl.
    split; [apply lookup_delete_eq|]. repeat split.
Qed.

Lemma executePostRequest_call (endpoint : string) (options : RequestOptions)
    (headers : gmap string string) (useProxy : bool) (timeout : Z) (w : World) :
  executePostRequest P N endpoint options headers useProxy timeout w =
  fetch N {| fc_url := if useProxy then "/api/proxy" else endpoint;
             fc_method := "POST";
             fc_headers := headers;
             fc_body := TextBody
               (JSON_stringify P
                  (operationsObject (query options)
                     (parsedOrUndefined P (interpolateString P (variables options)
                                                             (context options)))
                     (operationName options)));
             fc_abortAfter := timeout |} w.
Proof. reflexivity. Qed.

Lemma executeMultipartRequest_call (endpoint : string) (options : RequestOptions)
    (headers : gmap string string) (timeout : Z) :
  atMostOneCall
    (fun call => fc_headers call !! "Content-Type" = None /\
                 fc_abortAfter call = timeout /\ fc_method call = "POST")
    (executeMultipartRequest P N endpoint options headers timeout).
Proof.
  unfold executeMultipartRequest.
  apply atMostOneCall_bind; [apply pure_collectFiles | apply settles_collectFiles|].
  intros [[fileList map] parsedVariables].
  apply atMostOneCall_fetch. simpl. split; [apply lookup_delete_eq | split; reflexivity].
Qed.




(** *** Where the walk of [setNestedValue] stays inside the model *)










(** Every path: no call and a throw, or one call. *)
Lemma sendRequest_call (options : RequestOptions) :
  atMostOneCall
    (fun call => fc_abortAfter call = timeout options /\
                 (fc_method call = "GET" \/ fc_method call = "POST") /\
                 (selectEncoding options <> EncodePost ->
                  fc_headers call !! "Content-Type" = None))
    (sendRequest P N options).
Proof.
  unfold sendRequest.
  destruct (negb (truthy _) || negb (isValidUrl P _)); [apply atMostOneCall_pure_throw|].
  destruct (selectEncoding options) eqn:Hsel.
  - eapply atMostOneCall_weaken; [|apply executeGetRequest_call].
    intros call (Hct & Hab & Hm & _). split; [exact Hab|]. split; [|auto].
    rewrite Hm. destruct (useProxy options); auto.
  - eapply atMostOneCall_weaken; [|apply executeMultipartRequest_call].
    intros call (Hct & Hab & Hm). auto.
  - intros w. rewrite executePostRequest_call. right. eexists.
    split; [|apply fetch_fetched]. simpl. split; [reflexivity|]. split; [now right|].
    intros H. now destruct H.
Qed.



(** X7.  A query-string GET, a proxied GET and a multipart request go out
    without ['Content-Type'], also when an enabled header of the request
    has that name: the entry is deleted after the header map is built. *)
Theorem executeRequest_drops_content_type (options : RequestOptions) (w : World) :
  selectEncoding options <> EncodePost ->
  forall call,
    In call (fetched (snd (executeRequest P N options w))) ->
    In call (fetched w) \/ fc_headers call !! "Content-Type" = None.
Proof.
  intros Hsel call. rewrite executeRequest_fetched.
  destruct (sendRequest_call options w) as [[-> _] | (c & (_ & _ & Hct) & ->)]; [auto|].
  rewrite in_app_iff. intros [Hin | [<- | []]]; [now left | right; auto].
Qed.

(** X8.  The JSON POST.  For a valid endpoint, a method other than ['GET']
    and no bound file, [executeRequest] makes one call: a POST, whichever
    of POST, PUT, PATCH and DELETE is configured, to the endpoint (to
    ['/api/proxy'] in proxy mode), with the header map as built and the
    body [JSON.stringify({query, variables, operationName})]; the
    variables are left out of the body exactly when their text is empty or
    does not parse. *)
Theorem executeRequest_json_post (options : RequestOptions) (w : World) :
  httpMethod options <> GET ->
  hasFiles options = false ->
  let endpoint := interpolateString P (endpoint options) (context options) in
  let variables := interpolateString P (variables options) (context options) in
  endpoint <> EmptyString ->
  isValidUrl P endpoint = true ->
  fetched (snd (executeRequest P N options w)) =
  (fetched w ++
   [{| fc_url := if useProxy options then "/api/proxy" else endpoint;
       fc_method := "POST";
       fc_headers := buildHeaders P (headers options) (auth options) (context options)
                                  (useProxy options) endpoint;
       fc_body := TextBody
         (JSON_stringify P
            (operationsObject (query options) (parsedOrUndefined P variables)
                              (operationName options)));
       fc_abortAfter := timeout options |}])%list /\
  (parsedOrUndefined P variables = None <->
   variables = EmptyString \/ exists message, JSON_parse P variables = inl message).
Proof.
  intros Hmethod Hfiles ep variables Hne Hvalid. split.
  - rewrite executeRequest_fetched. unfold sendRequest. fold ep.
    apply truthy_nonempty in Hne. rewrite Hne, Hvalid. cbn [negb orb].
    assert (Hsel : selectEncoding options = EncodePost).
    { unfold selectEncoding. rewrite Hfiles. now destruct (httpMethod options). }
    rewrite Hsel, executePostRequest_call. apply fetch_fetched.
  - unfold parsedOrUndefined. destruct variables as [|c s]; simpl.
    + split; [now left | reflexivity].
    + destruct (JSON_parse P (String c s)) as [msg | j].
      * split; [intros _; right; now exists msg | reflexivity].
      * split; [discriminate|]. intros [H | (msg & H)]; discriminate.
Qed.

(** X9.  A proxied GET needs [new URL('/api/proxy')]; where the platform
    refuses a URL without a scheme, as browsers do, no call is made and the
    request fails with the message of that refusal: [response] null, no
    headers, status 0, statusText ["Error"], size 0. *)
Theorem executeRequest_proxied_get (options : RequestOptions) (w : World) (message : string) :
  httpMethod options = GET ->
  useProxy options = true ->
  let endpoint := interpolateString P (endpoint options) (context options) in
  endpoint <> EmptyString ->
  isValidUrl P endpoint = true ->
  URL_parse P "/api/proxy" = inl message ->
  let run := executeRequest P N options w in
  fetched (snd run) = fetched w /\
  exists r,
    fst run = inr r /\
    error r = Some message /\ response r = JNull /\ rr_headers r = [] /\
    exists st, stats r = Some st /\
               status st = 0 /\ statusText st = "Error" /\ size st = 0.
Proof.
  intros Hget Hproxy ep Hne Hvalid Hrel run. subst run.
  rewrite executeRequest_unfold. unfold bind at 1. unfold bind at 1.
  unfold sendRequest. fold ep.
  apply truthy_nonempty in Hne. rewrite Hne, Hvalid. cbn [negb orb].
  unfold selectEncoding. rewrite Hget. unfold executeGetRequest.
  rewrite Hproxy, Hrel. cbn [lift_error]. unfold bind, throw.
  rewrite failureResult_returns. simpl.
  split; [reflexivity|]. eexists. split; [reflexivity|]. simpl.
  repeat split. eexists. repeat split.
Qed.

End WithPlatform.
End RequestMore.

Module RequestMore2.
Import Interpolation InterpolationStructs Encoding Request RequestTools RequestFacts.
Local Open Scope js_scope.

Section WithPlatform.
Context (P : Platform) (N : Network).

(** X10.  Without the proxy the header map holds the derived auth header
    under its own name, over any header of that name; every enabled header
    of the request under its interpolated key, with the interpolated value
    of an enabled header of that key or with the value of the auth header;
    and nothing else but the initial ['Content-Type: application/json'].  A
    name that interpolates to [__proto__] makes no entry, for a header and
    for an api key alike.  A disabled header reaches the map under no name,
    and the target endpoint plays no part. *)
Theorem buildHeaders_direct (headers : list Header) (auth : AuthConfig)
    (context : InterpolationContext) (target : string) :
  let text := fun s => interpolateString P s context in
  let authHeader := buildAuthHeader (interpolateAuth P auth context) in
  let result := buildHeaders P headers auth context false target in
  (forall key value, authHeader = Some (key, value) ->
     result !! key = if String.eqb key "__proto__" then None else Some value) /\
  (forall h, In h headers -> enabled h = true -> text (h_key h) <> "__proto__" ->
     exists value,
       result !! text (h_key h) = Some value /\
       ((exists h', In h' headers /\ enabled h' = true /\
                    text (h_key h') = text (h_key h) /\ value = text (h_value h'))
        \/ authHeader = Some (text (h_key h), value))) /\
  (forall name value, result !! name = Some value ->
     (name = "Content-Type" /\ value = "application/json") \/
     (exists h, In h headers /\ enabled h = true /\
                text (h_key h) = name /\ text (h_value h) = value) \/
     authHeader = Some (name, value)) /\
  result !! "__proto__" = None /\
  (forall target', buildHeaders P headers auth context false target' = result).
Proof.
  intros text authHeader result. subst result. unfold buildHeaders.
  fold authHeader. set (hs := interpolateHeaders P headers context).
  set (base := addHeaders false hs _).
  assert (Hbase : forall name value, base !! name = Some value ->
            (name = "Content-Type" /\ value = "application/json") \/
            (exists h, In h headers /\ enabled h = true /\
                       text (h_key h) = name /\ text (h_value h) = value)).
  { intros name value Hb. apply addHeaders_lookup_Some in Hb
      as [[Hm _] | (h & Hin & Hen & Hk & Hv)].
    - left. apply lookup_singleton_Some in Hm as [<- <-]. auto.
    - right. apply In_interpolateHeaders in Hin as (h0 & Hin0 & ->).
      exists h0. simpl in *. auto. }
  assert (Hproto : base !! "__proto__" = None).
  { apply addHeaders_proto. apply lookup_singleton_ne. discriminate. }
  split; [|split; [|split; [|split]]].
  - intros key value ->. destruct (String.eqb_spec key "__proto__") as [-> | Hne].
    + now apply JsFacts.writeOwn_proto.
    + now apply JsFacts.writeOwn_lookup_eq.
  - intros h Hin Hen Hnp.
    set (h1 := {| h_id := h_id h; h_key := text (h_key h);
                  h_value := text (h_value h); enabled := enabled h |}).
    assert (Hin1 : In h1 hs) by (apply In_interpolateHeaders; eauto).
    destruct (addHeaders_enabled false hs {[ "Content-Type" := "application/json" ]} h1
                Hin1 Hen Hnp)
      as (h' & Hin' & Hen' & Hk & Hv).
    simpl in Hk, Hv. fold base in Hv.
    apply In_interpolateHeaders in Hin' as (h0 & Hin0 & ->). simpl in Hk, Hv, Hen'.
    destruct authHeader as [[key value]|].
    + destruct (decide (key = text (h_key h))) as [-> | Hne].
      * exists value. rewrite JsFacts.writeOwn_lookup_eq by exact Hnp.
        split; [reflexivity | now right].
      * exists (text (h_value h0)). rewrite JsFacts.writeOwn_lookup_ne by exact Hne.
        split; [exact Hv|]. left. exists h0. auto.
    + exists (text (h_value h0)). split; [exact Hv|]. left. exists h0. auto.
  - intros name value Hl. destruct authHeader as [[key value']|].
    + apply JsFacts.writeOwn_lookup_Some in Hl as [[-> ->] | Hl].
      * right; right. reflexivity.
      * destruct (Hbase _ _ Hl) as [H | H]; [now left | right; now left].
    + destruct (Hbase _ _ Hl) as [H | H]; [now left | right; now left].
  - destruct authHeader as [[key value]|]; [|exact Hproto].
    now apply JsFacts.writeOwn_proto.
  - reflexivity.
Qed.

(** The query-string GET with an API key that goes in the query. *)
Lemma executeGetRequest_keyed (endpoint : string) (options : RequestOptions)
    (headers : gmap string string) (timeout : Z) (w : World) (u : URL) (k : ApiKeyAuth) :
  useProxy options = false ->
  URL_parse P endpoint = inr u ->
  let a := interpolateAuth P (auth options) (context options) in
  mode a = ModeApiKey -> apiKey a = Some k -> addTo k = AddToQuery ->
  ak_key k <> EmptyString -> ak_value k <> EmptyString ->
  exists p3,
    executeGetRequest P N endpoint options headers timeout w =
    fetch N {| fc_url := URL_toString {| url_prefix := url_prefix u;
                                         url_searchParams :=
                                           sp_set (ak_key k) (ak_value k) p3;
                                         url_hash := url_hash u |};
               fc_method := "GET";
               fc_headers := delete "Content-Type" headers;
               fc_body := NoBody;
               fc_abortAfter := timeout |} w.
Proof.
  intros Hproxy Hparse a Hm Hk Ha Hkey Hval.
  destruct (apiKeyParam_roundtrip a)
    as [[_ Hnone] | (k' & _ & Hk' & _ & Ht & Hd0 & Hd1 & _)].
  { destruct (Hnone k Hm Hk Ha); contradiction. }
  rewrite Hk in Hk'. injection Hk' as <-.
  unfold executeGetRequest. rewrite Hproxy, Hparse. fold a.
  cbn [negb lift_error]. unfold bind at 1. unfold ret at 1.
  rewrite Ht, Hd0, Hd1. unfold bind, ret.
  set (variables := interpolateString P (variables options) (context options)).
  exists (match operationName options with
          | Some n =>
              if truthy n
              then sp_set "operationName" n
                     (if truthy variables && negb (String.eqb variables "{}")
                      then sp_set "variables" variables
                             (sp_set "query" (query options) (url_searchParams u))
                      else sp_set "query" (query options) (url_searchParams u))
              else if truthy variables && negb (String.eqb variables "{}")
                   then sp_set "variables" variables
                          (sp_set "query" (query options) (url_searchParams u))
                   else sp_set "query" (query options) (url_searchParams u)
          | None =>
              if truthy variables && negb (String.eqb variables "{}")
              then sp_set "variables" variables
                     (sp_set "query" (query options) (url_searchParams u))
              else sp_set "query" (query options) (url_searchParams u)
          end).
  destruct (operationName options) as [n|]; [destruct (truthy n)|];
    destruct (truthy variables && negb (String.eqb variables "{}")); reflexivity.
Qed.

(** X11.  An API key that goes in the query of a direct GET arrives there
    as it is: whatever characters the interpolated key and value hold, the
    query of the URL that is fetched has exactly one pair of that name,
    with that value; and no auth header is derived from it. *)
Theorem executeRequest_api_key_query
    (options : RequestOptions) (w : World) (u : URL) (k : ApiKeyAuth) :
  httpMethod options = GET ->
  useProxy options = false ->
  let endpoint := interpolateString P (endpoint options) (context options) in
  let a := interpolateAuth P (auth options) (context options) in
  endpoint <> EmptyString ->
  URL_parse P endpoint = inr u ->
  mode a = ModeApiKey -> apiKey a = Some k -> addTo k = AddToQuery ->
  ak_key k <> EmptyString -> ak_value k <> EmptyString ->
  buildAuthHeader a = None /\
  exists params,
    map fc_url (fetched (snd (executeRequest P N options w))) =
    (map fc_url (fetched w) ++
     [URL_toString {| url_prefix := url_prefix u; url_searchParams := params;
                      url_hash := url_hash u |}])%list /\
    count_name (ak_key k) params = 1%nat /\
    In (ak_key k, ak_value k) params.
Proof.
  intros Hget Hproxy ep a Hne Hparse Hm Hk Ha Hkey Hval. split.
  - unfold buildAuthHeader. rewrite Hm, Hk, Ha. now rewrite andb_false_r.
  - destruct (executeGetRequest_keyed ep options
                (buildHeaders P (headers options) (auth options) (context options)
                              (useProxy options) ep)
                (timeout options) w u k Hproxy Hparse Hm Hk Ha Hkey Hval) as (p3 & Hrun).
    exists (sp_set (ak_key k) (ak_value k) p3).
    rewrite executeRequest_fetched. unfold sendRequest. fold ep.
    assert (Hguard : negb (truthy ep) || negb (isValidUrl P ep) = false).
    { unfold isValidUrl. rewrite Hparse. apply truthy_nonempty in Hne. now rewrite Hne. }
    rewrite Hguard. unfold selectEncoding. rewrite Hget, Hrun, fetch_fetched.
    rewrite map_app. split; [reflexivity|]. split; [apply count_name_sp_set|].
    clear. induction p3 as [|[k0 v0] rest IH]; simpl; [now left|].
    destruct (String.eqb_spec k0 (ak_key k)) as [-> | Hne]; [now left | now right].
Qed.

End WithPlatform.
End RequestMore2.

Module MultipartFacts.
Import Interpolation InterpolationStructs Encoding Request RequestTools RequestFacts RequestMore.
Local Open Scope js_scope.

(** Two array indices with the same decimal text are the same. *)
Lemma index_toString_inj (n m : nat) : index_toString n = index_toString m -> n = m.
Proof.
  unfold index_toString. intros H.
  assert (Hnil : forall k, Nat.to_uint k <> Decimal.Nil).
  { intros k Hk. pose proof (DecimalNat.Unsigned.of_to k) as Hof.
    rewrite Hk in Hof. simpl in Hof. subst k. discriminate Hk. }
  assert (Hu : Some (Nat.to_uint n) = Some (Nat.to_uint m)).
  { rewrite <- (DecimalString.NilZero.usu (Nat.to_uint n)) by apply Hnil.
    rewrite <- (DecimalString.NilZero.usu (Nat.to_uint m)) by apply Hnil.
    now rewrite H. }
  injection Hu as Hu. now apply DecimalNat.Unsigned.to_uint_inj.
Qed.

Lemma field_lookup_assign_eq (k : string) (v : JSON) (fs : list (string * JSON)) :
  field_lookup k (field_assign k v fs) = Some v.
Proof.
  induction fs as [|[k0 v0] fs IH]; simpl.
  - now rewrite String.eqb_refl.
  - destruct (String.eqb k0 k) eqn:E; simpl; rewrite E; [reflexivity | exact IH].
Qed.

Lemma field_lookup_assign_ne (k k' : string) (v : JSON) (fs : list (string * JSON)) :
  k <> k' -> field_lookup k' (field_assign k v fs) = field_lookup k' fs.
Proof.
  intros Hne. induction fs as [|[k0 v0] fs IH]; simpl.
  - now apply String.eqb_neq in Hne as ->.
  - destruct (String.eqb k0 k) eqn:E; simpl.
    + apply String.eqb_eq in E. subst k0.
      now apply String.eqb_neq in Hne as ->.
    + destruct (String.eqb k0 k'); [reflexivity | exact IH].
Qed.

Lemma field_assign_fresh (k : string) (v : JSON) (fs : list (string * JSON)) :
  field_lookup k fs = None -> field_assign k v fs = (fs ++ [(k, v)])%list.
Proof.
  induction fs as [|[k0 v0] fs IH]; simpl; [reflexivity|].
  destruct (String.eqb k0 k); [discriminate|]. intros H. now rewrite IH.
Qed.

Lemma field_lookup_app (k : string) (fs gs : list (string * JSON)) :
  field_lookup k (fs ++ gs)%list =
  match field_lookup k fs with
  | Some v => Some v
  | None => field_lookup k gs
  end.
Proof.
  induction fs as [|[k0 v0] fs IH]; simpl; [reflexivity|].
  destruct (String.eqb k0 k); [reflexivity | exact IH].
Qed.

Lemma field_lookup_insert_index_eq (i : nat) (k : string) (v : JSON)
    (fs : list (string * JSON)) :
  field_lookup k fs = None -> field_lookup k (insert_index i k v fs) = Some v.
Proof.
  induction fs as [|[k0 v0] fs IH]; simpl.
  - now rewrite String.eqb_refl.
  - destruct (String.eqb k0 k) eqn:E; [discriminate|]. intros Hnone.
    destruct (parse_index k0) as [j|]; [destruct (j <? i)%nat|]; simpl;
      rewrite ?E, ?String.eqb_refl; auto.
Qed.

Lemma field_lookup_insert_index_ne (i : nat) (k k' : string) (v : JSON)
    (fs : list (string * JSON)) :
  k <> k' -> field_lookup k' (insert_index i k v fs) = field_lookup k' fs.
Proof.
  intros Hne. apply String.eqb_neq in Hne.
  induction fs as [|[k0 v0] fs IH]; simpl.
  - now rewrite Hne.
  - destruct (parse_index k0) as [j|]; [destruct (j <? i)%nat|]; simpl;
      rewrite ?Hne, ?IH; reflexivity.
Qed.

Lemma field_lookup_insert_eq (k : string) (v : JSON) (fs : list (string * JSON)) :
  field_lookup k fs = None -> field_lookup k (field_insert k v fs) = Some v.
Proof.
  intros Hnone. unfold field_insert. destruct (parse_index k) as [i|].
  - now apply field_lookup_insert_index_eq.
  - rewrite field_lookup_app, Hnone. simpl. now rewrite String.eqb_refl.
Qed.

Lemma field_lookup_insert_ne (k k' : string) (v : JSON) (fs : list (string * JSON)) :
  k <> k' -> field_lookup k' (field_insert k v fs) = field_lookup k' fs.
Proof.
  intros Hne. unfold field_insert. destruct (parse_index k) as [i|].
  - now apply field_lookup_insert_index_ne.
  - rewrite field_lookup_app. destruct (field_lookup k' fs); [reflexivity|].
    simpl. now apply String.eqb_neq in Hne as ->.
Qed.

Lemma field_insert_nil (k : string) (v : JSON) : field_insert k v [] = [(k, v)].
Proof. unfold field_insert. now destruct (parse_index k). Qed.

Lemma split_on_nonempty (sep : ascii) (s : string) : split_on sep s <> [].
Proof.
  destruct s as [|c s]; simpl; [discriminate|].
  destruct (Ascii.eqb c sep); [discriminate|].
  destruct (split_on sep s); discriminate.
Qed.

Section WithPlatform.
Context (P : Platform) (N : Network).

Lemma setNestedFrom_roundtrip (parts : list string) (value j : JSON) (w : World) :
  parts <> [] ->
  plainPath parts j = true ->
  exists j',
    setNestedFrom P parts value j w = (inr j', w) /\
    readPath parts j' = Some value /\
    forall k, Some k <> head parts -> readPath [k] j' = readPath [k] j.
Proof.
  revert j. induction parts as [|part rest IH]; intros j Hne Hpath; [congruence|].
  destruct j as [| | | | |fields]; try discriminate Hpath.
  destruct rest as [|part' rest'].
  - cbn [plainPath forallb] in Hpath. cbn [setNestedFrom setProperty].
    destruct (field_lookup part fields) as [old|] eqn:Hold.
    + exists (JObject (field_assign part value fields)). cbn [readPath].
      rewrite field_lookup_assign_eq. repeat split.
      intros k Hk. rewrite field_lookup_assign_ne; [reflexivity | simpl in Hk; congruence].
    + rewrite andb_true_r in Hpath. apply negb_true_iff in Hpath.
      apply JsFacts.not_inherited_proto in Hpath as Hnp.
      apply String.eqb_neq in Hnp. rewrite Hnp.
      exists (JObject (field_insert part value fields)). cbn [readPath].
      rewrite field_lookup_insert_eq by exact Hold. repeat split.
      intros k Hk. rewrite field_lookup_insert_ne; [reflexivity | simpl in Hk; congruence].
  - rewrite setNestedFrom_step by discriminate.
    cbn [plainPath] in Hpath.
    destruct (field_lookup part fields) as [child|] eqn:Hold.
    + destruct (IH child ltac:(discriminate) Hpath) as (child' & Hrun & Hread & _).
      exists (JObject (field_assign part child' fields)).
      unfold bind. rewrite Hrun. split; [reflexivity|]. split.
      * cbn [readPath]. rewrite field_lookup_assign_eq. exact Hread.
      * intros k Hk. simpl.
        rewrite field_lookup_assign_ne; [reflexivity | simpl in Hk; congruence].
    + cbn [forallb] in Hpath. apply andb_true_iff in Hpath as [Hpart Hrest].
      apply negb_true_iff in Hpart. rewrite Hpart.
      assert (Hchild : plainPath (part' :: rest') (JObject []) = true) by exact Hrest.
      destruct (IH (JObject []) ltac:(discriminate) Hchild) as (child' & Hrun & Hread & _).
      exists (JObject (field_insert part child' fields)).
      unfold bind. rewrite Hrun. split; [reflexivity|]. split.
      * cbn [readPath]. rewrite field_lookup_insert_eq by exact Hold. exact Hread.
      * intros k Hk. simpl.
        rewrite field_lookup_insert_ne; [reflexivity | simpl in Hk; congruence].
Qed.

(** X12.  [setNestedValue] reads back.  When the path runs on plain ground
    (each value found along it, the last part excepted, is an object, and
    a part the object reached has no entry of, from which on the objects
    are created, is no name that objects inherit, such as [constructor] or
    [__proto__]), the call does not throw, the value sits at the path
    afterwards, in own entries, and the own entries the object holds under
    other top-level names are untouched. *)
Theorem setNestedValue_roundtrip (obj : JSON) (path : string) (value : JSON) (w : World) :
  plainPath (split_on "." path) obj = true ->
  exists obj',
    setNestedValue P obj path value w = (inr obj', w) /\
    readPath (split_on "." path) obj' = Some value /\
    forall k, Some k <> head (split_on "." path) -> readPath [k] obj' = readPath [k] obj.
Proof.
  intros Hpath. unfold setNestedValue.
  apply setNestedFrom_roundtrip; [apply split_on_nonempty | exact Hpath].
Qed.

Lemma setNestedFrom_fresh (parts : list string) (value : JSON) (w : World) :
  parts <> [] ->
  forallb (fun p => negb (inherited p)) parts = true ->
  setNestedFrom P parts value (JObject []) w = (inr (nestObject parts value), w).
Proof.
  induction parts as [|part rest IH]; intros Hne Hplain; [congruence|].
  cbn [forallb] in Hplain. apply andb_true_iff in Hplain as [Hpart Hrest].
  apply negb_true_iff in Hpart.
  destruct rest as [|part' rest'].
  - cbn [setNestedFrom setProperty field_lookup nestObject].
    apply JsFacts.not_inherited_proto in Hpart. apply String.eqb_neq in Hpart.
    rewrite Hpart. now rewrite field_insert_nil.
  - rewrite setNestedFrom_step by discriminate.
    cbn [field_lookup]. rewrite Hpart. unfold bind.
    rewrite IH by (discriminate || exact Hrest).
    cbn [nestObject]. now rewrite field_insert_nil.
Qed.

(** X13.  On the empty object, which is what malformed or empty variables
    degrade to, [setNestedValue] does not throw for a path none of whose
    parts is a name that objects inherit (such as [constructor] or
    [__proto__]): it builds the chain of objects
    [{p1: {p2: ... {pn: value}}}] for the parts of the path between dots. *)
Theorem setNestedValue_fresh (path : string) (value : JSON) (w : World) :
  forallb (fun p => negb (inherited p)) (split_on "." path) = true ->
  setNestedValue P (JObject []) path value w =
  (inr (nestObject (split_on "." path) value), w).
Proof. intros Hplain. apply setNestedFrom_fresh; [apply split_on_nonempty | exact Hplain]. Qed.

Lemma mapEntries_lookup_below (j i : nat) (mappings : list FileMapping) :
  (j < i)%nat -> field_lookup (index_toString j) (mapEntries i mappings) = None.
Proof.
  revert i. induction mappings as [|m ms IH]; intros i Hlt; simpl; [reflexivity|].
  destruct (file m); [|now apply IH]. simpl.
  destruct (String.eqb_spec (index_toString i) (index_toString j)) as [Heq | _].
  - apply index_toString_inj in Heq. lia.
  - apply IH. lia.
Qed.

Lemma collectFiles_map (mappings : list FileMapping) (fileList fileList' : list File)
    (map map' : list (string * JSON)) (pv pv' : JSON) (w w' : World) :
  collectFiles P mappings fileList map pv w = (inr (fileList', map', pv'), w') ->
  (forall j, (length fileList <= j)%nat -> field_lookup (index_toString j) map = None) ->
  map' = (map ++ mapEntries (length fileList) mappings)%list.
Proof.
  revert fileList map pv w.
  induction mappings as [|m ms IH]; intros fl mp pv0 w0; simpl.
  - intros [= _ <- _ _] _. now rewrite app_nil_r.
  - destruct (file m) as [f|]; [|apply IH].
    unfold bind.
    destruct (setNestedValue P pv0 (variablePath m) JNull w0) as [[e | pv1] w1];
      [discriminate|].
    intros Hrun Hfresh. apply IH in Hrun.
    + rewrite Hrun, length_app. simpl. rewrite Nat.add_1_r.
      rewrite field_assign_fresh by (apply Hfresh; lia).
      now rewrite <- app_assoc.
    + intros j Hj. rewrite length_app in Hj. simpl in Hj.
      rewrite field_assign_fresh by (apply Hfresh; lia).
      rewrite field_lookup_app, Hfresh by lia. simpl.
      destruct (String.eqb_spec (index_toString (length fl)) (index_toString j)) as [Heq|];
        [|reflexivity].
      apply index_toString_inj in Heq. lia.
Qed.

Lemma mapEntries_keys (i : nat) (mappings : list FileMapping) :
  map fst (mapEntries i mappings) = map fst (fileParts i (boundFiles mappings)).
Proof.
  revert i. induction mappings as [|m ms IH]; intros i; [reflexivity|].
  unfold boundFiles in *. simpl. destruct (file m); simpl; [f_equal|]; apply IH.
Qed.

(** X14.  The multipart form.  When a multipart request goes out, its
    [map] part is the JSON text of the object that has, for each bound
    file in mapping order, the entry [index: ["variables.<path>"]], the
    index counting bound files only; the file parts carry those same
    indices as their names, in the same order. *)
Theorem executeRequest_multipart_map (options : RequestOptions) (w : World) :
  hasFiles options = true ->
  httpMethod options <> GET ->
  let ms := fileMappings options in
  map fst (mapEntries 0 ms) = map fst (fileParts 0 (boundFiles ms)) /\
  forall call,
    In call (fetched (snd (executeRequest P N options w))) ->
    In call (fetched w) \/
    exists operations,
      fc_body call =
      FormBody ([("operations", TextPart operations);
                 ("map", TextPart (JSON_stringify P (JObject (mapEntries 0 ms))))]
                ++ fileParts 0 (boundFiles ms)).
Proof.
  intros Hfiles Hmethod ms. split; [apply mapEntries_keys|].
  intros call. rewrite executeRequest_fetched. unfold sendRequest.
  destruct (negb (truthy _) || negb (isValidUrl P _)); [now left|].
  assert (Hsel : selectEncoding options = EncodeMultipart).
  { unfold selectEncoding. rewrite Hfiles. now destruct (httpMethod options). }
  rewrite Hsel. unfold executeMultipartRequest.
  set (pv := if truthy _ then _ else _). unfold bind.
  pose proof (pure_collectFiles P (fileMappings options) [] [] pv w) as Hpure.
  destruct (collectFiles P (fileMappings options) [] [] pv w)
    as [[e | [[files mp] pv']] w1] eqn:Hc; simpl in Hpure; subst w1; [now left|].
  pose proof (collectFiles_files _ _ _ _ _ _ _ _ _ _ Hc) as Hfl.
  pose proof (collectFiles_map _ _ _ _ _ _ _ _ _ Hc ltac:(reflexivity)) as Hmp.
  simpl in Hfl, Hmp. subst files mp.
  rewrite fetch_fetched, in_app_iff. intros [Hin | [<- | []]]; [now left|].
  right. eexists. reflexivity.
Qed.


End WithPlatform.
End MultipartFacts.

Module SubscriptionMore.
Import Interpolation InterpolationStructs Encoding Subscription SubscriptionFacts.
Local Open Scope list_scope.

Lemma updateClient_lookup (id i : nat) (f : Client -> Client) (st : ModuleState) :
  clients (updateClient id f st) !! i =
  if decide (i = id) then f <$> clients st !! i else clients st !! i.
Proof.
  unfold updateClient. simpl. destruct (clients st !! id) as [c|] eqn:E.
  - destruct (decide (i = id)) as [-> | Hne].
    + rewrite list_lookup_insert_eq by (eapply lookup_lt_Some; exact E). now rewrite E.
    + now rewrite list_lookup_insert_ne by congruence.
  - destruct (decide (i = id)) as [-> | Hne]; [now rewrite E | reflexivity].
Qed.

Lemma updateClient_fixed (id : nat) (f : Client -> Client) (st : ModuleState) :
  (forall c, clients st !! id = Some c -> f c = c) -> updateClient id f st = st.
Proof.
  intros Hf. unfold updateClient. destruct st as [cl wsv ssev dl]. simpl in *. f_equal.
  destruct (cl !! id) as [c|] eqn:E; [|reflexivity].
  apply list_insert_id. now rewrite (Hf c eq_refl).
Qed.

Lemma release_released (own : nat) (st : ModuleState) :
  (forall c, clients st !! own = Some c -> c_released c = true) -> release own st = st.
Proof.
  intros H. apply updateClient_fixed. intros c Hc. specialize (H c Hc).
  destruct c; simpl in *; now subst.
Qed.

Lemma released_after (own : nat) (st : ModuleState) (v : option nat) (c : Client) :
  clients (match v with
           | Some current => dispose current (release own st)
           | None => release own st
           end) !! own = Some c ->
  c_released c = true.
Proof.
  destruct v as [current|]; unfold dispose, release; rewrite !updateClient_lookup.
  - destruct (decide (own = current)); rewrite decide_True by reflexivity;
      destruct (clients st !! own) as [c0|]; simpl; intros [= <-]; reflexivity.
  - rewrite decide_True by reflexivity.
    destruct (clients st !! own) as [c0|]; simpl; intros [= <-]; reflexivity.
Qed.

(** X15.  [unsubscribe()] called twice in a row, with nothing in between:
    the second call changes nothing, no client and neither module-scope
    variable.  (Nothing is said of a call that comes after another
    [subscribe]: [unsubscribe] disposes the client the module-scope
    variable then points to.) *)
Theorem unsubscribe_idempotent (handle : SubscriptionHandle) (st : ModuleState) :
  unsubscribe handle (unsubscribe handle st) = unsubscribe handle st.
Proof.
  destruct handle as [own | own |]; [| |reflexivity].
  - unfold unsubscribe at 1.
    set (st3 := unsubscribe (WsHandle own) st).
    assert (Hrel : release own st3 = st3).
    { apply release_released. intros c. subst st3. unfold unsubscribe.
      change (clients (setWsClient None ?s)) with (clients s).
      change (wsClient (release own st)) with (wsClient st). apply released_after. }
    rewrite Hrel. reflexivity.
  - unfold unsubscribe at 1.
    set (st3 := unsubscribe (SseHandle own) st).
    assert (Hrel : release own st3 = st3).
    { apply release_released. intros c. subst st3. unfold unsubscribe.
      change (clients (setSseClient None ?s)) with (clients s).
      change (sseClient (release own st)) with (sseClient st). apply released_after. }
    rewrite Hrel. reflexivity.
Qed.

Lemma disconnectAll_eq (st : ModuleState) :
  disconnectAll st =
  {| clients :=
       clients (match sseClient st with
                | Some b => dispose b
                | None => fun s => s
                end (match wsClient st with
                     | Some a => dispose a st
                     | None => st
                     end));
     wsClient := None;
     sseClient := None;
     delivered := delivered st |}.
Proof. destruct st as [cl [a|] [b|] dl]; reflexivity. Qed.

(** X16.  [disconnectAll] clears both module-scope variables and disposes
    the clients they pointed to; every other client is left as it is; and
    a second call changes nothing. *)
Theorem disconnectAll_clears (st : ModuleState) :
  let st' := disconnectAll st in
  wsClient st' = None /\ sseClient st' = None /\
  (forall id c', (wsClient st = Some id \/ sseClient st = Some id) ->
                 clients st' !! id = Some c' -> c_disposed c' = true) /\
  (forall id, wsClient st <> Some id -> sseClient st <> Some id ->
              clients st' !! id = clients st !! id) /\
  disconnectAll st' = st'.
Proof.
  cbv zeta. rewrite disconnectAll_eq. cbn [wsClient sseClient clients].
  split; [reflexivity|]. split; [reflexivity|]. split; [|split; [|reflexivity]].
  - intros id c' Hid.
    destruct (wsClient st) as [a|], (sseClient st) as [b|]; unfold dispose;
      rewrite ?updateClient_lookup.
    + destruct Hid as [[= <-] | [= <-]].
      * destruct (decide (a = b)); rewrite ?decide_True by reflexivity;
          destruct (clients st !! a); simpl; intros [= <-]; reflexivity.
      * rewrite decide_True by reflexivity.
        destruct (decide (b = a)); destruct (clients st !! b); simpl; intros [= <-];
          reflexivity.
    + destruct Hid as [[= <-] | [=]]. rewrite decide_True by reflexivity.
      destruct (clients st !! a); simpl; intros [= <-]; reflexivity.
    + destruct Hid as [[=] | [= <-]]. rewrite decide_True by reflexivity.
      destruct (clients st !! b); simpl; intros [= <-]; reflexivity.
    + destruct Hid as [[=] | [=]].
  - intros id Ha Hb.
    destruct (wsClient st) as [a|], (sseClient st) as [b|]; unfold dispose;
      rewrite ?updateClient_lookup, ?decide_False by congruence; reflexivity.
Qed.

End SubscriptionMore.

Module SubscriptionMore2.
Import Interpolation InterpolationStructs Encoding Subscription SubscriptionFacts.
Local Open Scope list_scope.

Lemma liveClients_snoc_dead (kind : SubscriptionProtocol) (st st' : ModuleState) (c : Client) :
  clients st' = clients st ++ [c] -> live c = false ->
  liveClients kind st' = liveClients kind st.
Proof.
  intros Hc Hl. unfold liveClients. rewrite Hc, List.filter_app. simpl.
  rewrite Hl, andb_false_r. apply app_nil_r.
Qed.

Lemma unsubscribe_own_ws (own : nat) (st : ModuleState) (l : list Client) (c : Client) :
  clients st = l ++ [c] -> own = length l -> wsClient st = Some own ->
  clients (unsubscribe (WsHandle own) st) =
  l ++ [{| c_kind := c_kind c; c_url := c_url c; c_params := c_params c;
           c_subscription := c_subscription c;
           c_released := true; c_disposed := true |}].
Proof.
  intros Hc -> Hws. unfold unsubscribe.
  change (wsClient (release (length l) st)) with (wsClient st). rewrite Hws.
  change (clients (setWsClient None ?s)) with (clients s).
  assert (H1 : clients (release (length l) st) =
               l ++ [{| c_kind := c_kind c; c_url := c_url c; c_params := c_params c;
                        c_subscription := c_subscription c;
                        c_released := true; c_disposed := c_disposed c |}]).
  { unfold release. now rewrite (updateClient_last _ c st l Hc). }
  unfold dispose. now rewrite (updateClient_last _ _ _ l H1).
Qed.

Lemma unsubscribe_own_sse (own : nat) (st : ModuleState) (l : list Client) (c : Client) :
  clients st = l ++ [c] -> own = length l -> sseClient st = Some own ->
  clients (unsubscribe (SseHandle own) st) =
  l ++ [{| c_kind := c_kind c; c_url := c_url c; c_params := c_params c;
           c_subscription := c_subscription c;
           c_released := true; c_disposed := true |}].
Proof.
  intros Hc -> Hsse. unfold unsubscribe.
  change (sseClient (release (length l) st)) with (sseClient st). rewrite Hsse.
  change (clients (setSseClient None ?s)) with (clients s).
  assert (H1 : clients (release (length l) st) =
               l ++ [{| c_kind := c_kind c; c_url := c_url c; c_params := c_params c;
                        c_subscription := c_subscription c;
                        c_released := true; c_disposed := c_disposed c |}]).
  { unfold release. now rewrite (updateClient_last _ c st l Hc). }
  unfold dispose. now rewrite (updateClient_last _ _ _ l H1).
Qed.

(** X17.  A subscription that is ended through its own handle leaves no
    transport behind.  After [subscribe] and then [unsubscribe()] on the
    handle it returned, without another [subscribe] in between, the client
    the call made is released and disposed, the clients that hold a
    transport open are those that did before, every earlier client is as
    it was, and the variable of the protocol is null. *)
Theorem subscribe_then_unsubscribe (P : Platform) (options : SubscriptionOptions)
    (st : ModuleState) :
  let '(handle, st1) := subscribe P options st in
  let st2 := unsubscribe handle st1 in
  (forall kind, liveClients kind st2 = liveClients kind st) /\
  (forall id c, clients st !! id = Some c -> clients st2 !! id = Some c) /\
  match protocol options with
  | ws => wsClient st2 = None
  | sse => sseClient st2 = None
  | appsync => clients st2 = clients st
  end.
Proof.
  unfold subscribe. destruct (protocol options).
  - set (run := subscribeWebSocket _ _ _ _ st).
    pose proof (subscribeWebSocket_clients
                  (interpolateString P (url options) (context options)) options
                  (connectionHeaders P options)
                  (if truthy (variables options)
                   then match JSON_parse P (interpolateString P (variables options)
                                                              (context options)) with
                        | inr j => Some j
                        | inl _ => None
                        end
                   else None) st) as Hc.
    fold run in Hc.
    assert (Hh : fst run = WsHandle (length (clients st))) by reflexivity.
    assert (Hv : wsClient (snd run) = Some (length (clients st))) by reflexivity.
    destruct run as [handle st1]. simpl in Hc, Hh, Hv. subst handle.
    pose proof (unsubscribe_own_ws _ _ _ _ Hc eq_refl Hv) as Hc2.
    split; [|split; [|reflexivity]].
    + intros kind. eapply liveClients_snoc_dead; [exact Hc2 | reflexivity].
    + intros id c Hid. rewrite Hc2. now apply lookup_app_l_Some.
  - set (run := subscribeSSE _ _ _ _ st).
    pose proof (subscribeSSE_clients
                  (interpolateString P (url options) (context options)) options
                  (connectionHeaders P options)
                  (if truthy (variables options)
                   then match JSON_parse P (interpolateString P (variables options)
                                                              (context options)) with
                        | inr j => Some j
                        | inl _ => None
                        end
                   else None) st) as Hc.
    fold run in Hc.
    assert (Hh : fst run = SseHandle (length (clients st))) by reflexivity.
    assert (Hv : sseClient (snd run) = Some (length (clients st))) by reflexivity.
    destruct run as [handle st1]. simpl in Hc, Hh, Hv. subst handle.
    pose proof (unsubscribe_own_sse _ _ _ _ Hc eq_refl Hv) as Hc2.
    split; [|split; [|reflexivity]].
    + intros kind. eapply liveClients_snoc_dead; [exact Hc2 | reflexivity].
    + intros id c Hid. rewrite Hc2. now apply lookup_app_l_Some.
  - simpl. repeat split; auto.
Qed.

(** X18.  [toWsUrl] turns a leading [http] into [ws], so [https://] into
    [wss://], and nothing else; a text it has changed once it does not
    change again. *)
Theorem toWsUrl_scheme (url rest : string) :
  toWsUrl ("http" ++ rest) = ("ws" ++ rest)%string /\
  toWsUrl ("https://" ++ rest) = ("wss://" ++ rest)%string /\
  toWsUrl ("ws" ++ rest) = ("ws" ++ rest)%string /\
  toWsUrl (toWsUrl url) = toWsUrl url.
Proof.
  split; [reflexivity|]. split; [reflexivity|].
  split; [destruct rest as [|a [|b r]]; reflexivity|].
  destruct url as [|h [|t1 [|t2 [|p r]]]]; try reflexivity.
  cbn [toWsUrl].
  destruct (Ascii.eqb h "h" && Ascii.eqb t1 "t" && Ascii.eqb t2 "t" && Ascii.eqb p "p")
    eqn:E; [|cbn [toWsUrl]; now rewrite E].
  destruct r as [|a [|b r']]; reflexivity.
Qed.

(** X19.  For a subscription the basic credentials are sent as they are:
    in basic mode with a [basic] payload the connection parameters carry
    [Authorization: Basic <base64(user:pass)>] over any header of that
    name, also when the username or the password is empty, a case in
    which [buildAuthHeader] derives nothing for a request. *)
Theorem connectionHeaders_basic (P : Platform) (options : SubscriptionOptions) (b : BasicAuth) :
  let a := interpolateAuth P (auth options) (context options) in
  mode a = ModeBasic ->
  basic a = Some b ->
  connectionHeaders P options !! "Authorization" =
    Some ("Basic " ++ btoa (username b ++ ":" ++ password b))%string /\
  (username b = EmptyString \/ password b = EmptyString ->
   Request.buildAuthHeader a = None).
Proof.
  intros a Hm Hb. split.
  - unfold connectionHeaders. fold a. rewrite Hm, Hb.
    destruct (bearer a); apply lookup_insert_eq.
  - intros Hempty. unfold Request.buildAuthHeader. rewrite Hm, Hb.
    destruct Hempty as [-> | ->]; [reflexivity | now rewrite andb_false_r].
Qed.

End SubscriptionMore2.

Module ScriptsMore.
Import Scripts ScriptsFacts.
Local Open Scope list_scope.

Section WithEngine.
Context (pretty : JSON -> string) (engine : ScriptMessage -> Behaviour).





End WithEngine.
End ScriptsMore.

Module RequestBarFacts.
Import Interpolation InterpolationTools Scripts RequestBar.
Import InterpolationMore2.
Local Open Scope list_scope.

Lemma applyEnvOverrides_names (vs vs' : list EnvVariable) (o : gmap string Value) :
  applyEnvOverrides vs o = Some vs' -> map ev_name vs' = map ev_name vs.
Proof.
  revert vs'. induction vs as [|v vs IH]; intros vs'; simpl.
  - now intros [= <-].
  - destruct (o !! ev_name v) as [value|]; [|destruct (inherited (ev_name v)); [discriminate|]];
      destruct (applyEnvOverrides vs o) as [rest|]; try discriminate;
      intros [= <-]; simpl; now rewrite (IH rest).
Qed.

Lemma lastValue_applyEnvOverrides (name : string) (vs vs' : list EnvVariable)
    (o : gmap string Value) :
  applyEnvOverrides vs o = Some vs' ->
  lastValue name vs' =
  option_map (fun value => default value (o !! name)) (lastValue name vs).
Proof.
  revert vs'. induction vs as [|v vs IH]; intros vs'; simpl.
  - now intros [= <-].
  - destruct (o !! ev_name v) as [value|] eqn:Ho;
      [|destruct (inherited (ev_name v)); [discriminate|]];
      destruct (applyEnvOverrides vs o) as [rest|]; try discriminate;
      intros [= <-]; rewrite !lastValue_cons, (IH rest eq_refl);
      destruct (lastValue name vs); simpl; try reflexivity;
      destruct (String.eqb_spec (ev_name v) name) as [<- | Hne]; simpl;
      rewrite ?Ho; reflexivity.
Qed.

Lemma applyEnvOverrides_None (vs : list EnvVariable) (o : gmap string Value) :
  applyEnvOverrides vs o = None ->
  exists v, In v vs /\ inherited (ev_name v) = true /\ o !! ev_name v = None.
Proof.
  induction vs as [|v vs IH]; simpl; [discriminate|].
  destruct (o !! ev_name v) as [value|] eqn:Ho.
  - destruct (applyEnvOverrides vs o); [discriminate|]. intros _.
    destruct (IH eq_refl) as (v' & Hin & Hv'). exists v'. auto.
  - destruct (inherited (ev_name v)) eqn:Hi; [intros _; exists v; auto|].
    destruct (applyEnvOverrides vs o); [discriminate|]. intros _.
    destruct (IH eq_refl) as (v' & Hin & Hv'). exists v'. auto.
Qed.

(** X22.  What a pre-request script can change of the environment.  The
    test [v.name in envOverrides] holds for a name the script set and for a
    name that objects inherit; a variable of such a name that the script
    did not set is given the member objects inherit as its value, and that
    case is left aside here.  In every other case, after the overrides are
    applied, the names of the variables and their order are as before; the
    value a name leaves in the object [buildInterpolationContext] fills is
    the script's value when the script set the name and the old value
    otherwise, and a name that was no variable before is none afterwards,
    even when the script set it; so the context built afterwards has, under
    each name, what the context built before had, replaced by the script's
    value where there is one. *)
Theorem applyEnvOverrides_context (envVars : list EnvVariable)
    (envOverrides : gmap string Value) :
  match applyEnvOverrides envVars envOverrides with
  | Some envVars' =>
      map ev_name envVars' = map ev_name envVars /\
      (forall name,
         ownValue name envVars' =
         match ownValue name envVars with
         | Some old => Some (default old (envOverrides !! name))
         | None => None
         end) /\
      (forall before after name,
         buildInterpolationContext envVars = Some before ->
         buildInterpolationContext envVars' = Some after ->
         variables after !! name =
         match variables before !! name with
         | Some old => Some (default old (envOverrides !! name))
         | None => None
         end)
  | None =>
      exists v, In v envVars /\ inherited (ev_name v) = true /\
                envOverrides !! ev_name v = None
  end.
Proof.
  destruct (applyEnvOverrides envVars envOverrides) as [envVars'|] eqn:Ha;
    [|now apply applyEnvOverrides_None].
  assert (Hown : forall name,
            ownValue name envVars' =
            match ownValue name envVars with
            | Some old => Some (default old (envOverrides !! name))
            | None => None
            end).
  { intros name. unfold ownValue. destruct (String.eqb name "__proto__"); [reflexivity|].
    rewrite (lastValue_applyEnvOverrides name _ _ _ Ha).
    now destruct (lastValue name envVars). }
  split; [now apply applyEnvOverrides_names with envOverrides|]. split; [exact Hown|].
  intros before after name Hb Hafter.
  rewrite (buildInterpolationContext_Some _ _ name Hb).
  rewrite (buildInterpolationContext_Some _ _ name Hafter). apply Hown.
Qed.

Section WithIds.
Context (randomUUID : nat -> string).

Lemma sameHeader_refl (hs : list Header) : Forall2 sameHeader hs hs.
Proof. induction hs; constructor; [repeat split | assumption]. Qed.

Lemma setExisting_Some (key value : string) (hs updated : list Header) :
  setExisting key value hs = Some updated ->
  firstValue key updated = Some value /\
  (forall k, k <> key -> firstValue k updated = firstValue k hs) /\
  Forall2 sameHeader hs updated.
Proof.
  revert updated. induction hs as [|h hs IH]; intros updated; simpl; [discriminate|].
  destruct (String.eqb_spec (h_key h) key) as [Hk | Hk].
  - intros [= <-]. unfold firstValue. simpl. rewrite Hk, String.eqb_refl.
    split; [reflexivity|]. split.
    + intros k Hne. destruct (String.eqb_spec key k) as [-> | _]; [congruence | reflexivity].
    + constructor; [repeat split; simpl; auto | apply sameHeader_refl].
  - destruct (setExisting key value hs) as [u|]; [|discriminate].
    intros [= <-]. destruct (IH u eq_refl) as (Hf & Ho & Hs).
    unfold firstValue in *. simpl.
    destruct (String.eqb_spec (h_key h) key) as [? | _]; [contradiction|].
    split; [exact Hf|]. split.
    + intros k Hne. destruct (String.eqb (h_key h) k); [reflexivity | now apply Ho].
    + constructor; [repeat split | exact Hs].
Qed.

Lemma setExisting_None (key value : string) (hs : list Header) :
  setExisting key value hs = None -> firstValue key hs = None.
Proof.
  induction hs as [|h hs IH]; simpl; [reflexivity|].
  unfold firstValue in *. simpl.
  destruct (String.eqb (h_key h) key); [discriminate|].
  destruct (setExisting key value hs); [discriminate|]. auto.
Qed.

Lemma firstValue_app (k : string) (a b : list Header) :
  firstValue k (a ++ b) =
  match firstValue k a with
  | Some v => Some v
  | None => firstValue k b
  end.
Proof.
  unfold firstValue. induction a as [|h a IH]; simpl; [reflexivity|].
  destruct (String.eqb (h_key h) k); [reflexivity | exact IH].
Qed.

Lemma applyHeaderOverride_step (hs : list Header) (key value : string) :
  let result := applyHeaderOverride randomUUID hs (key, value) in
  firstValue key result = Some value /\
  (forall k, k <> key -> firstValue k result = firstValue k hs) /\
  exists updated extra, result = updated ++ extra /\ Forall2 sameHeader hs updated.
Proof.
  cbv zeta. unfold applyHeaderOverride.
  destruct (setExisting key value hs) as [u|] eqn:E.
  - destruct (setExisting_Some _ _ _ _ E) as (Hf & Ho & Hs).
    split; [exact Hf|]. split; [exact Ho|].
    exists u, []. now rewrite app_nil_r.
  - apply setExisting_None in E. split; [|split].
    + rewrite firstValue_app, E. unfold firstValue. simpl. now rewrite String.eqb_refl.
    + intros k Hne. rewrite firstValue_app. destruct (firstValue k hs); [reflexivity|].
      unfold firstValue. simpl.
      destruct (String.eqb_spec key k) as [-> | _]; [congruence | reflexivity].
    + eexists hs, _. split; [reflexivity | apply sameHeader_refl].
Qed.

Lemma sameHeader_trans (a b c : list Header) :
  Forall2 sameHeader a b -> Forall2 sameHeader b c -> Forall2 sameHeader a c.
Proof.
  intros Hab. revert c. induction Hab as [|x y a b (H1 & H2 & H3) Hab IH]; intros c Hbc.
  - inversion Hbc. constructor.
  - inversion Hbc as [|y' z b' c' (G1 & G2 & G3) Hbc']; subst.
    constructor; [repeat split; congruence | now apply IH].
Qed.

Lemma Forall2_app_split (b1 b2 c : list Header) :
  Forall2 sameHeader (b1 ++ b2) c ->
  exists c1 c2, c = c1 ++ c2 /\ Forall2 sameHeader b1 c1.
Proof.
  revert c. induction b1 as [|x b1 IH]; intros c H.
  - exists [], c. split; [reflexivity | constructor].
  - simpl in H. inversion H as [|x' z l l' Hxz Hrest]; subst.
    destruct (IH _ Hrest) as (c1 & c2 & -> & Hc1).
    exists (z :: c1), c2. split; [reflexivity | now constructor].
Qed.

(** X23.  What a pre-request script can change of the headers.  After the
    overrides are applied, each in its turn, the first header of an
    overridden key has the script's value and the first header of any other
    key has the value it had; the headers there were keep their place,
    their id, their key and their enabled flag (so an override of a
    disabled header leaves it disabled), new ones come after them. *)
Theorem applyHeaderOverrides_result (entries : list (string * string))
    (allHeaders : list Header) :
  List.NoDup (map fst entries) ->
  let result := applyHeaderOverrides randomUUID entries allHeaders in
  (forall key value, In (key, value) entries -> firstValue key result = Some value) /\
  (forall key, ~ In key (map fst entries) -> firstValue key result = firstValue key allHeaders) /\
  exists updated extra, result = updated ++ extra /\ Forall2 sameHeader allHeaders updated.
Proof.
  cbv zeta. unfold applyHeaderOverrides. revert allHeaders.
  induction entries as [|[k v] entries IH]; intros hs Hnd; simpl.
  - split; [intros ? ? []|]. split; [reflexivity|].
    exists hs, []. split; [now rewrite app_nil_r | apply sameHeader_refl].
  - simpl in Hnd. apply List.NoDup_cons_iff in Hnd as [Hfresh Hnd].
    destruct (applyHeaderOverride_step hs k v) as (Hset & Hother & u & e & Hu & Hsame).
    cbv zeta in Hset, Hother, Hu.
    destruct (IH (applyHeaderOverride randomUUID hs (k, v)) Hnd)
      as (Hin & Hout & u' & e' & Hu' & Hsame').
    split; [|split].
    + intros key value [[= <- <-] | H].
      * rewrite Hout by exact Hfresh. exact Hset.
      * now apply Hin.
    + intros key Hno. rewrite Hout by (intros Hc; apply Hno; now right).
      apply Hother. intros ->. apply Hno. now left.
    + rewrite Hu in Hsame'. apply Forall2_app_split in Hsame' as (c1 & c2 & -> & Hc1).
      exists c1, (c2 ++ e'). split.
      * rewrite app_assoc. exact Hu'.
      * now apply sameHeader_trans with u.
Qed.

End WithIds.
End RequestBarFacts.

Module StoreFacts.
Import Store.
Local Open Scope list_scope.

Section WithEntries.
Context {HistoryEntry Tab : Type} (tab_id : Tab -> string).

(** X24.  The history kept in the store never grows beyond a hundred
    entries: the new entry comes first, the entries there were follow in
    their order, and only what would come after the hundredth is dropped. *)
Theorem addHistoryEntry_bounded (full : HistoryEntry) (history : list HistoryEntry) :
  let history' := addHistoryEntry full history in
  (length history' <= 100)%nat /\
  length history' = Nat.min 100 (S (length history)) /\
  history' = full :: firstn 99 history /\
  exists dropped, (full :: history = history' ++ dropped)%list.
Proof.
  cbv zeta. unfold addHistoryEntry. split; [apply firstn_le_length|].
  split; [apply length_firstn|]. split; [reflexivity|].
  exists (skipn 100 (full :: history)). symmetry. apply firstn_skipn.
Qed.

Lemma filter_other_In (id : string) (ts : list Tab) (t : Tab) :
  In t (List.filter (fun t => negb (String.eqb (tab_id t) id)) ts) <->
  In t ts /\ tab_id t <> id.
Proof.
  rewrite filter_In. destruct (String.eqb_spec (tab_id t) id); simpl; intuition congruence.
Qed.

(** X25.  Deleting a tab.  With one tab or none [deleteTab] throws
    ['Cannot delete the last tab'] and sets nothing, whatever the tabs and
    the active id are.  With more, the tabs that remain are those of
    another id, and the active id stays as it is unless it is the id
    deleted; when no two tabs share an id at least one tab remains, and
    when moreover the active id was the id of a tab, it is the id of a tab
    that remains. *)
Theorem deleteTab_active (id : string) (s : TabsState (Tab := Tab)) :
  ((length (tabs s) <= 1)%nat ->
   deleteTab tab_id id s = inl "Cannot delete the last tab"%string) /\
  ((1 < length (tabs s))%nat ->
   exists s',
     deleteTab tab_id id s = inr s' /\
     (forall t, In t (tabs s') <-> In t (tabs s) /\ tab_id t <> id) /\
     (activeTabId s <> Some id -> activeTabId s' = activeTabId s) /\
     (List.NoDup (map tab_id (tabs s)) ->
      tabs s' <> [] /\ (activeIsTab tab_id s -> activeIsTab tab_id s'))).
Proof.
  unfold deleteTab. split.
  - intros Hle. apply Nat.leb_le in Hle. now rewrite Hle.
  - intros Hgt. destruct (Nat.leb_spec (length (tabs s)) 1) as [Hle | _]; [lia|].
    eexists. split; [reflexivity|].
    cbn [tabs activeTabId].
    set (remaining := List.filter (fun t => negb (String.eqb (tab_id t) id)) (tabs s)).
    split; [intros t; apply filter_other_In|]. split.
    { intros Hother. destruct (activeTabId s) as [aid|]; simpl; [|reflexivity].
      destruct (String.eqb_spec aid id) as [-> | _]; [congruence | reflexivity]. }
    intros Hnd.
    assert (Hrem : remaining <> []).
    { destruct (tabs s) as [|t1 [|t2 rest]] eqn:Et; simpl in Hgt; try lia.
      simpl in Hnd. apply List.NoDup_cons_iff in Hnd as [Hfresh _].
      assert (Hne : tab_id t1 <> tab_id t2) by (intros Heq; apply Hfresh; now left).
      subst remaining. simpl.
      destruct (String.eqb_spec (tab_id t1) id) as [H1 | H1]; simpl; [|discriminate].
      destruct (String.eqb_spec (tab_id t2) id) as [H2 | H2]; simpl;
        [congruence | discriminate]. }
    split; [exact Hrem|].
    intros (ta & aid & Hact & Hin & Hid).
    unfold activeIsTab. cbn [tabs activeTabId]. rewrite Hact. simpl.
    destruct (String.eqb_spec aid id) as [-> | Hne].
    + destruct remaining as [|t0 rest] eqn:Er; [contradiction|].
      exists t0, (tab_id t0). repeat split. now left.
    + exists ta, aid. repeat split; [|exact Hid].
      apply filter_other_In. split; [exact Hin | congruence].
Qed.

End WithEntries.
End StoreFacts.

Module ScriptsMore2.
Import Scripts.

Lemma trimStart_blank (s : string) :
  forallb is_space (list_ascii_of_string s) = true -> trimStart s = "".
Proof.
  induction s as [|c s IH]; simpl; [reflexivity|].
  destruct (is_space c); simpl; [exact IH | discriminate].
Qed.

(** X26.  A script of white space only is not run.  Both
    [runPreRequestScript] and [runPostRequestScript] resolve at once to the
    successful result with no logs and no overrides, not even the headers
    they were given, and the worker is not used: it is as it was, whatever
    the script engine would do and whatever is pending in it. *)
Theorem blank_script_not_run (pretty : JSON -> string) (engine : ScriptMessage -> Behaviour)
    (P : Platform) (script : string) (envVariables : list EnvVariable) (variables : string)
    (headers : list Header) (response : JSON) (timeout : Z) (wk : Worker) :
  forallb is_space (list_ascii_of_string script) = true ->
  runPreRequestScript pretty engine P script envVariables variables headers timeout wk =
    Some (emptyResult, wk) /\
  runPostRequestScript pretty engine P script envVariables variables headers response timeout wk =
    Some (emptyResult, wk).
Proof.
  intros Hblank. unfold runPreRequestScript, runPostRequestScript, trim.
  rewrite (trimStart_blank script Hblank). split; reflexivity.
Qed.

End ScriptsMore2.

Module MoreExamples.
Import Interpolation InterpolationStructs Encoding Request RequestTools Reference.
Local Open Scope list_scope.

Lemma executeRequest_drops_content_type_witness :
  let options := withMethod GET baseOptions in
  selectEncoding options <> EncodePost /\
  forall call,
    In call (fetched (snd (executeRequest browser unreachable options world0))) ->
    In call (fetched world0) \/ fc_headers call !! "Content-Type" = None.
Proof.
  intros options. split; [discriminate|].
  apply (RequestMore.executeRequest_drops_content_type browser unreachable options world0).
  discriminate.
Defined.

Lemma executeRequest_json_post_witness :
  let options := withVariables "{}" baseOptions in
  httpMethod options <> GET /\
  hasFiles options = false /\
  isValidUrl browser "https://x.test/graphql" = true /\
  fetched (snd (executeRequest browser unreachable options world0)) =
  [{| fc_url := "https://x.test/graphql";
      fc_method := "POST";
      fc_headers := buildHeaders browser [] noAuth emptyContext false "https://x.test/graphql";
      fc_body := TextBody
        (JSON_stringify browser (operationsObject "{me}" (Some (JObject [])) None));
      fc_abortAfter := 30000 |}].
Proof.
  intros options. split; [discriminate|]. split; [reflexivity|]. split; [reflexivity|].
  exact (proj1 (RequestMore.executeRequest_json_post browser unreachable options world0
                  ltac:(discriminate) eq_refl ltac:(discriminate) eq_refl)).
Defined.

Lemma executeRequest_proxied_get_witness :
  let options := withMethod GET proxied in
  let run := executeRequest browser unreachable options world0 in
  httpMethod options = GET /\
  useProxy options = true /\
  URL_parse browser "/api/proxy" = inl "Invalid URL" /\
  fetched (snd run) = fetched world0 /\
  exists r,
    fst run = inr r /\
    error r = Some "Invalid URL" /\ response r = JNull /\ rr_headers r = [] /\
    exists st, stats r = Some st /\
               status st = 0 /\ statusText st = "Error" /\ size st = 0.
Proof.
  intros options run. split; [reflexivity|]. split; [reflexivity|]. split; [reflexivity|].
  apply (RequestMore.executeRequest_proxied_get browser unreachable options world0 "Invalid URL");
    [reflexivity | reflexivity | discriminate | reflexivity | reflexivity].
Defined.

Lemma executeRequest_api_key_query_witness :
  let options := withAuth (keyInQuery "key") (withMethod GET baseOptions) in
  httpMethod options = GET /\
  useProxy options = false /\
  buildAuthHeader (interpolateAuth browser (auth options) (context options)) = None /\
  exists params,
    map fc_url (fetched (snd (executeRequest browser unreachable options world0))) =
    [URL_toString {| url_prefix := "https://x.test/graphql"; url_searchParams := params;
                     url_hash := "" |}] /\
    count_name "key" params = 1%nat /\
    In ("key", "s3") params.
Proof.
  intros options. split; [reflexivity|]. split; [reflexivity|].
  apply (RequestMore2.executeRequest_api_key_query browser unreachable options world0
           {| url_prefix := "https://x.test/graphql"; url_searchParams := []; url_hash := "" |}
           {| ak_key := "key"; ak_value := "s3"; addTo := AddToQuery |});
    first [reflexivity | discriminate].
Defined.



(** C9 in a browser: an unknown variable named like a member of
    [Object.prototype] is replaced, by the text of that member. *)
Example interpolateString_constructor :
  interpolateString browser "{{constructor}}" emptyContext =
    "function Object() { [native code] }" /\
  interpolateString browser "{{UNKNOWN}}" emptyContext = "{{UNKNOWN}}" /\
  interpolateString browser "id={{valueOf}}" emptyContext =
    "id=function valueOf() { [native code] }".
Proof. repeat split. Qed.

(** C10 on a bearer token that is a template: the header follows the text
    the token interpolates to, and there is none when that text is empty. *)
Example buildAuthHeader_template :
  let auth := {| mode := ModeBearer; bearer := Some {| token := "{{T}}" |};
                 basic := None; apiKey := None |} in
  let blank := {| Interpolation.variables := {[ "T" := VString "" ]} |} in
  buildAuthHeader (interpolateAuth browser auth tokenContext) =
    Some ("Authorization", "Bearer t0k") /\
  buildHeaders browser [] auth tokenContext false "https://x.test/graphql"
    !! "Authorization" = Some "Bearer t0k" /\
  buildAuthHeader (interpolateAuth browser auth blank) = None /\
  buildHeaders browser [] auth blank false "https://x.test/graphql"
    !! "Authorization" = None.
Proof. repeat split. Qed.

(** X10 on a header named [__proto__]: it makes no entry. *)
Example buildHeaders_direct_proto :
  let hs := [ {| h_id := "1"; h_key := "__proto__"; h_value := "x"; enabled := true |};
              {| h_id := "2"; h_key := "Accept"; h_value := "*/*"; enabled := true |} ] in
  let result := buildHeaders browser hs noAuth emptyContext false "https://x.test/graphql" in
  result !! "__proto__" = None /\ result !! "Accept" = Some "*/*".
Proof. repeat split. Qed.

Lemma setNestedValue_roundtrip_witness :
  let obj := JObject [("file", JObject [("upload", JString "old")]); ("n", JNumber "7")] in
  plainPath (split_on "." "file.upload") obj = true /\
  exists obj',
    setNestedValue browser obj "file.upload" JNull world0 = (inr obj', world0) /\
    readPath (split_on "." "file.upload") obj' = Some JNull /\
    forall k, Some k <> head (split_on "." "file.upload") -> readPath [k] obj' = readPath [k] obj.
Proof.
  intros obj. split; [reflexivity|].
  apply (MultipartFacts.setNestedValue_roundtrip browser obj "file.upload" JNull world0).
  reflexivity.
Defined.

Lemma setNestedValue_fresh_witness :
  forallb (fun p => negb (inherited p)) (split_on "." "input.files.0") = true /\
  setNestedValue browser (JObject []) "input.files.0" JNull world0 =
  (inr (JObject [("input", JObject [("files", JObject [("0", JNull)])])]), world0).
Proof.
  split; [reflexivity|].
  apply (MultipartFacts.setNestedValue_fresh browser "input.files.0" JNull world0).
  reflexivity.
Defined.

Lemma executeRequest_multipart_map_witness :
  let options := withMethod PUT (withFiles [upload] baseOptions) in
  hasFiles options = true /\
  httpMethod options <> GET /\
  map fst (mapEntries 0 [upload]) = map fst (fileParts 0 (boundFiles [upload])) /\
  forall call,
    In call (fetched (snd (executeRequest browser unreachable options world0))) ->
    In call (fetched world0) \/
    exists operations,
      fc_body call =
      FormBody ([("operations", TextPart operations);
                 ("map", TextPart (JSON_stringify browser (JObject (mapEntries 0 [upload]))))]
                ++ fileParts 0 (boundFiles [upload])).
Proof.
  intros options. split; [reflexivity|]. split; [discriminate|].
  apply (MultipartFacts.executeRequest_multipart_map browser unreachable options world0);
    [reflexivity | discriminate].
Defined.

End MoreExamples.

Module SubscriptionExamples.
Import InterpolationStructs Encoding Subscription Reference.

Lemma connectionHeaders_basic_witness :
  let b := {| username := "u"; password := "" |} in
  let a := {| mode := ModeBasic; bearer := None; basic := Some b; apiKey := None |} in
  let options :=
    {| url := "https://x.test/graphql"; query := "subscription{tick}";
       variables := EmptyString; operationName := None; headers := []; auth := a;
       protocol := ws; context := emptyContext |} in
  mode (interpolateAuth browser (auth options) (context options)) = ModeBasic /\
  basic (interpolateAuth browser (auth options) (context options)) = Some b /\
  connectionHeaders browser options !! "Authorization" =
    Some ("Basic " ++ btoa (username b ++ ":" ++ password b))%string /\
  (username b = EmptyString \/ password b = EmptyString ->
   Request.buildAuthHeader (interpolateAuth browser (auth options) (context options)) = None).
Proof.
  intros b a options. split; [reflexivity|]. split; [reflexivity|].
  apply (SubscriptionMore2.connectionHeaders_basic browser options b); reflexivity.
Defined.

End SubscriptionExamples.

Module ScriptsExamples.
Import Scripts Reference.
Local Open Scope list_scope.


Lemma blank_script_not_run_witness :
  let blank := String (ascii_of_nat 32) (String (ascii_of_nat 10) EmptyString) in
  forallb is_space (list_ascii_of_string blank) = true /\
  runPreRequestScript stringify exampleEngine browser blank [] "{}" [] 5000 newWorker =
    Some (emptyResult, newWorker) /\
  runPostRequestScript stringify exampleEngine browser blank [] "{}" [] JNull 5000 newWorker =
    Some (emptyResult, newWorker).
Proof.
  intros blank. split; [reflexivity|].
  apply (ScriptsMore2.blank_script_not_run stringify exampleEngine browser blank [] "{}" []
           JNull 5000 newWorker).
  reflexivity.
Defined.

End ScriptsExamples.

Module EditorExamples.
Import RequestBar Store.
Local Open Scope list_scope.

Lemma applyHeaderOverrides_result_witness :
  let randomUUID := fun n : nat => "new"%string in
  let allHeaders := [{| h_id := "1"; h_key := "X-Debug"; h_value := "0"; enabled := false |}] in
  let entries := [("X-Debug", "1"); ("X-Trace", "on")]%string in
  let result := applyHeaderOverrides randomUUID entries allHeaders in
  List.NoDup (map fst entries) /\
  (forall key value, In (key, value) entries -> firstValue key result = Some value) /\
  (forall key, ~ In key (map fst entries) -> firstValue key result = firstValue key allHeaders) /\
  exists updated extra, result = updated ++ extra /\ Forall2 sameHeader allHeaders updated.
Proof.
  intros randomUUID allHeaders entries result.
  assert (Hnd : List.NoDup (map fst entries)).
  { constructor; [simpl; intros [H | []]; discriminate H|].
    constructor; [intros [] | constructor]. }
  split; [exact Hnd|].
  exact (RequestBarFacts.applyHeaderOverrides_result randomUUID entries allHeaders Hnd).
Defined.

(** X22 on two variables: the script's value replaces the old one, a name
    that was no variable is not added; and a variable named like a member
    objects inherit, which the script did not set, is the case left aside. *)
Example applyEnvOverrides_example :
  let envVars := [ {| Scripts.ev_id := "1"; Scripts.ev_name := "A";
                      Scripts.ev_value := VString "1"; Scripts.isSecret := false |};
                   {| Scripts.ev_id := "2"; Scripts.ev_name := "B";
                      Scripts.ev_value := VString "2"; Scripts.isSecret := true |} ] in
  let overrides : gmap string Value := {[ "B" := VString "x"; "C" := VString "y" ]} in
  applyEnvOverrides envVars overrides =
    Some [ {| Scripts.ev_id := "1"; Scripts.ev_name := "A";
              Scripts.ev_value := VString "1"; Scripts.isSecret := false |};
           {| Scripts.ev_id := "2"; Scripts.ev_name := "B";
              Scripts.ev_value := VString "x"; Scripts.isSecret := true |} ] /\
  applyEnvOverrides
    [ {| Scripts.ev_id := "3"; Scripts.ev_name := "toString";
         Scripts.ev_value := VString "t"; Scripts.isSecret := false |} ] overrides = None.
Proof. split; reflexivity. Qed.

Lemma deleteTab_active_witness :
  let tab_id := fun t : string => t in
  let s := {| tabs := ["a"; "b"]%string; activeTabId := Some "a"%string |} in
  (1 < length (tabs s))%nat /\
  exists s',
    deleteTab tab_id "a" s = inr s' /\
    (forall t, In t (tabs s') <-> In t (tabs s) /\ tab_id t <> "a"%string) /\
    (activeTabId s <> Some "a"%string -> activeTabId s' = activeTabId s) /\
    (List.NoDup (map tab_id (tabs s)) ->
     tabs s' <> [] /\ (activeIsTab tab_id s -> activeIsTab tab_id s')).
Proof.
  intros tab_id s. split; [simpl; lia|].
  apply (proj2 (StoreFacts.deleteTab_active tab_id "a" s)). simpl. lia.
Defined.

End EditorExamples.
